(** * Somfy URTSii node server: shade position engine and serial transport

    A shallow embedding of [somfy-urts-poly.py] and the properties its
    specification states about it.

    The program is Python: integers are unbounded ([Z]), floats are IEEE-754
    binary64 values (the kernel's primitive [float], whose operations are
    specified by [FloatAxioms] against [SpecFloat]), exceptions propagate
    until a [try] catches them, and methods mutate the objects they are
    called on.  Methods are written in a state-and-exception monad over a
    [World] that holds the controller node, one shade node and the
    environment the program talks to (the wall clock and the serial
    library).  The first part embeds the program, the second states its
    properties: those of the specification first, then further ones the
    code shows about the connection, the channel nodes, calibration and the
    handlers. *)

From Stdlib Require Import ZArith List String Ascii Bool Lia Floats DecimalString.
Import ListNotations.
Local Open Scope string_scope.
Local Open Scope Z_scope.

(** ** Python values and the built-ins the program calls *)

Module Py.

(** The exception classes that occur; every one of them derives from
    [Exception], so [except Exception] catches them all. *)
Inductive exn : Type :=
| ValueError
| TypeError
| OverflowError
| ZeroDivisionError
| IndexError
| SerialException.

(** The outcome of evaluating an expression: a value, or a raised exception. *)
Inductive result (A : Type) : Type :=
| Ok (a : A)
| Raise (e : exn).
Arguments Ok {A} a.
Arguments Raise {A} e.

Definition is_ok {A : Type} (r : result A) : bool :=
  match r with Ok _ => true | Raise _ => false end.

(** The values a command's ['value'] entry, or the [nextCmd] argument of
    [_command], can hold. *)
Inductive value : Type :=
| PyNone
| PyInt (z : Z)
| PyFloat (f : float)
| PyStr (s : string).

(** *** Strings *)

Definition is_space (c : ascii) : bool :=
  let n := N_of_ascii c in
  ((9 <=? n) && (n <=? 13) || (n =? 32))%N.

Fixpoint lstrip_space (s : list ascii) : list ascii :=
  match s with
  | c :: s' => if is_space c then lstrip_space s' else s
  | [] => []
  end.

(** [s.strip()] *)
Definition strip (s : list ascii) : list ascii :=
  rev (lstrip_space (rev (lstrip_space s))).

(** [s.lstrip(c)] for a one-character argument *)
Fixpoint lstrip_char (c : ascii) (s : string) : string :=
  match s with
  | String c' s' => if Ascii.eqb c' c then lstrip_char c s' else s
  | EmptyString => EmptyString
  end.

(** [s.replace(c, "")] for a one-character [c] *)
Fixpoint remove_char (c : ascii) (s : string) : string :=
  match s with
  | String c' s' =>
      if Ascii.eqb c' c then remove_char c s' else String c' (remove_char c s')
  | EmptyString => EmptyString
  end.

(** [s[:n]] *)
Fixpoint slice_to (n : nat) (s : string) : string :=
  match n, s with
  | S n', String c s' => String c (slice_to n' s')
  | _, _ => EmptyString
  end.

(** [s[n:]] *)
Fixpoint slice_from (n : nat) (s : string) : string :=
  match n, s with
  | S n', String _ s' => slice_from n' s'
  | _, _ => s
  end.

(** [sub in s] for strings *)
Fixpoint contains (sub s : string) : bool :=
  prefix sub s ||
  match s with
  | String _ s' => contains sub s'
  | EmptyString => false
  end.

Definition lower (c : ascii) : ascii :=
  let n := N_of_ascii c in
  if ((65 <=? n) && (n <=? 90))%N then ascii_of_N (n + 32) else c.

Definition digit_val (c : ascii) : option Z :=
  let n := N_of_ascii c in
  if ((48 <=? n) && (n <=? 57))%N then Some (Z.of_N n - 48) else None.

(** [digit (["_"] digit)*]: the digits read so far as a number, how many
    there were, and what follows them. *)
Fixpoint digits_loop (acc cnt : Z) (s : list ascii) : Z * Z * list ascii :=
  match s with
  | c :: s' =>
      match digit_val c with
      | Some d => digits_loop (10 * acc + d) (cnt + 1) s'
      | None =>
          if Ascii.eqb c "_" then
            match s' with
            | c2 :: s'' =>
                match digit_val c2 with
                | Some d => digits_loop (10 * acc + d) (cnt + 1) s''
                | None => (acc, cnt, s)
                end
            | [] => (acc, cnt, s)
            end
          else (acc, cnt, s)
      end
  | [] => (acc, cnt, [])
  end.

Definition digitpart (acc : Z) (s : list ascii) : option (Z * Z * list ascii) :=
  match s with
  | c :: s' =>
      match digit_val c with
      | Some d => Some (digits_loop (10 * acc + d) 1 s')
      | None => None
      end
  | [] => None
  end.

(** An optional sign: whether it was ["-"], and what follows. *)
Definition sign (s : list ascii) : bool * list ascii :=
  match s with
  | c :: s' =>
      if Ascii.eqb c "-" then (true, s')
      else if Ascii.eqb c "+" then (false, s')
      else (false, s)
  | [] => (false, [])
  end.

(** [str(z)] for an int *)
Definition str_of_int (z : Z) : string := NilZero.string_of_int (Z.to_int z).

(** [s.rjust(width, fill)] *)
Definition rjust (width : nat) (fill : ascii) (s : string) : string :=
  string_of_list_ascii (repeat fill (width - String.length s)) ++ s.

(** A dict with str keys, as its items in insertion order, each key once:
    [lookup k d] is [Some v] when [k in d], with [v] the value [d[k]]. *)
Definition dict (V : Type) : Type := list (string * V).

Fixpoint lookup {V : Type} (k : string) (d : dict V) : option V :=
  match d with
  | (k', v) :: d' => if String.eqb k' k then Some v else lookup k d'
  | [] => None
  end.

(** [d[k] = v] for a key that is not in [d] *)
Definition store {V : Type} (k : string) (v : V) (d : dict V) : dict V :=
  (d ++ [(k, v)])%list.

(** *** Integers and floats *)

(** [float(z)] for an int: the nearest binary64 value (ties to even);
    [OverflowError] when that is out of range. *)
Definition nearest_float (z : Z) : float :=
  SF2Prim (binary_normalize prec emax z 0 false).

Definition float_of_int (z : Z) : result float :=
  let f := nearest_float z in
  if is_infinity f then Raise OverflowError else Ok f.

(** [int(f)] for a float: truncation towards zero; [ValueError] for a NaN,
    [OverflowError] for an infinity. *)
Definition int_of_float (f : float) : result Z :=
  match Prim2SF f with
  | S754_nan => Raise ValueError
  | S754_infinity _ => Raise OverflowError
  | S754_zero _ => Ok 0
  | S754_finite s m e =>
      let magnitude :=
        match e with
        | Zneg k => Z.shiftr (Zpos m) (Zpos k)
        | _ => Z.shiftl (Zpos m) e
        end in
      Ok (if s then - magnitude else magnitude)
  end.

(** The binary64 value nearest to [(-1)^neg * m * 10^e10]. *)
Definition float_of_decimal (neg : bool) (m e10 : Z) : float :=
  match m with
  | Zpos p =>
      match e10 with
      | Zneg k =>
          SF2Prim (SFdiv prec emax (S754_finite neg p 0)
                     (S754_finite false (Pos.pow 10 k) 0))
      | _ => SF2Prim (binary_normalize prec emax
                        (if neg then - (m * 10 ^ e10) else m * 10 ^ e10) 0 false)
      end
  | _ => if neg then neg_zero else zero
  end.

(** [("e" | "E") [sign] digitpart], when present. *)
Definition exponent (s : list ascii) : option (Z * list ascii) :=
  match s with
  | c :: s' =>
      if Ascii.eqb (lower c) "e" then
        let '(neg, s1) := sign s' in
        match digitpart 0 s1 with
        | Some (x, _, rest) => Some (if neg then - x else x, rest)
        | None => None
        end
      else Some (0, s)
  | [] => Some (0, [])
  end.

(** [[digitpart] "." digitpart | digitpart ["."]]: the digits as one
    number, how many of them follow the point, and the rest. *)
Definition number (s : list ascii) : option (Z * Z * list ascii) :=
  match digitpart 0 s with
  | Some (m, _, rest) =>
      match rest with
      | c :: rest' =>
          if Ascii.eqb c "." then
            match digitpart m rest' with
            | Some (m', k, rest'') => Some (m', k, rest'')
            | None => Some (m, 0, rest')
            end
          else Some (m, 0, rest)
      | [] => Some (m, 0, [])
      end
  | None =>
      match s with
      | c :: rest' =>
          if Ascii.eqb c "." then digitpart 0 rest' else None
      | [] => None
      end
  end.

(** [float(s)] for a str (ASCII input): surrounding white space, a sign,
    then [inf], [infinity], [nan] in any case, or a decimal number with an
    optional exponent. *)
Definition float_of_str (s : string) : result float :=
  let '(neg, body) := sign (strip (list_ascii_of_string s)) in
  let word := string_of_list_ascii (map lower body) in
  if String.eqb word "inf" || String.eqb word "infinity" then
    Ok (if neg then neg_infinity else infinity)
  else if String.eqb word "nan" then Ok nan
  else
    match number body with
    | Some (m, k, rest) =>
        match exponent rest with
        | Some (x, []) => Ok (float_of_decimal neg m (x - k))
        | _ => Raise ValueError
        end
    | None => Raise ValueError
    end.

(** [int(s)] for a str, base 10 (ASCII input). *)
Definition int_of_str (s : string) : result Z :=
  let '(neg, body) := sign (strip (list_ascii_of_string s)) in
  match digitpart 0 body with
  | Some (m, _, []) => Ok (if neg then - m else m)
  | _ => Raise ValueError
  end.

(** [float(v)] *)
Definition float_of (v : value) : result float :=
  match v with
  | PyNone => Raise TypeError
  | PyInt z => float_of_int z
  | PyFloat f => Ok f
  | PyStr s => float_of_str s
  end.

(** [int(v)] *)
Definition int_of (v : value) : result Z :=
  match v with
  | PyNone => Raise TypeError
  | PyInt z => Ok z
  | PyFloat f => int_of_float f
  | PyStr s => int_of_str s
  end.

(** [str(v) == "S"]: the text of an int, of a float or of [None] is never
    that letter. *)
Definition str_is (lit : string) (v : value) : bool :=
  match v with
  | PyStr s => String.eqb s lit
  | _ => false
  end.

(** [x / y] on floats: Python raises where IEEE-754 returns an infinity or
    a NaN for a zero divisor. *)
Definition truediv (x y : float) : result float :=
  if (y =? 0)%float then Raise ZeroDivisionError else Ok (x / y)%float.

(** [max(a, b)] and [min(a, b)]: the first argument wins unless the second
    compares strictly greater (smaller); with a NaN no comparison holds. *)
Definition max (a b : float) : float :=
  if (a <? b)%float then b else a.

Definition min (a b : float) : float :=
  if (b <? a)%float then b else a.

End Py.

Import Py.

(** ** State *)

(** What [threading.Timer] is asked to call when it expires. *)
Inductive TimerFunction : Type :=
| LoggerDebug                         (* [LOGGER.debug], the timer of [__init__] *)
| Stop                                (* [self._stop] *)
| SetShadePosition (arg : value)      (* [self.setShadePosition], [args=[nextCmd]] *)
| UpdatePosition.                     (* [self._updatePosition] *)

(** A [threading.Timer] object: it calls [function] once, [interval]
    seconds after [start()], unless its [finished] event was set first
    (which is what [cancel()] does). *)
Record Timer : Type := mkTimer {
  interval : float;
  function : TimerFunction;
  started : bool;
  finished : bool
}.

(** A [serial.Serial] object. *)
Record Serial : Type := mkSerial { is_open : bool }.

(** The [Controller] node: its attributes and its [GV1] driver (serial
    port connected).  Polyglot's custom parameters are strings, so
    [serialPort] always holds a str. *)
Record Controller : Type := mkController {
  serialPort : string;
  _ser : option Serial;
  GV1 : Z
}.

(** A [SomfyShade] node after [start()]: its attributes, and its drivers
    [ST] (position, percent) and [GV1] (travel time, seconds).  [travelTime]
    holds a float, or the int [8] when the configuration gives none; the int
    is held here as the float [8.0], which every expression that uses it
    yields the same value for as long as eight times the distance to travel
    is an int that [float()] can read (below [2^1024]). *)
Record SomfyShade : Type := mkShade {
  address : string;
  position : Z;
  lastCmdTime : float;
  lastCmd : string;
  travelTime : float;
  timer : Timer;
  ST : Z;
  travelTimeDriver : float
}.

(** What a call into the serial library does. *)
Inductive OpenOutcome : Type :=
| Opened            (* returns a port object that is open *)
| ReturnedClosed    (* returns a port object that is not open *)
| OpenRaises.       (* raises *)

(** One call into the serial library, as it happened.  A port is opened
    with [serial.serial_for_url] when its name holds ["://"], with
    [serial.Serial] at 9600 baud, 8 data bits, 1 stop bit and no parity
    otherwise. *)
Inductive SerialCall : Type :=
| CallOpen (port : string) (by_url : bool) (o : OpenOutcome)
| CallWrite (payload : string) (completed : bool)
| CallClose (completed : bool).

(** The environment: the wall clock as the sequence of values [time.time()]
    returns, and the serial device as the outcomes of the coming [open],
    [write] and [close] calls, in order (a call past the end of its list
    raises: the device is gone).  [calls] records the serial calls made so
    far, oldest first. *)
Record Env : Type := mkEnv {
  clock : nat -> float;
  ticks : nat;
  opens : list OpenOutcome;
  writes : list bool;
  closes : list bool;
  calls : list SerialCall
}.

Record World : Type := mkWorld {
  parent : Controller;
  shade : SomfyShade;
  env : Env
}.

(** *** Field updates *)

Definition set_parent (c : Controller) (w : World) : World :=
  mkWorld c (shade w) (env w).

Definition set_shade (s : SomfyShade) (w : World) : World :=
  mkWorld (parent w) s (env w).

Definition set_env (e : Env) (w : World) : World :=
  mkWorld (parent w) (shade w) e.

Definition with_ser (h : option Serial) (c : Controller) : Controller :=
  mkController (serialPort c) h (GV1 c).

Definition with_GV1 (v : Z) (c : Controller) : Controller :=
  mkController (serialPort c) (_ser c) v.

Definition with_serialPort (port : string) (c : Controller) : Controller :=
  mkController port (_ser c) (GV1 c).

Definition with_position (p : Z) (s : SomfyShade) : SomfyShade :=
  mkShade (address s) p (lastCmdTime s) (lastCmd s) (travelTime s) (timer s)
    (ST s) (travelTimeDriver s).

Definition with_lastCmdTime (t : float) (s : SomfyShade) : SomfyShade :=
  mkShade (address s) (position s) t (lastCmd s) (travelTime s) (timer s)
    (ST s) (travelTimeDriver s).

Definition with_lastCmd (c : string) (s : SomfyShade) : SomfyShade :=
  mkShade (address s) (position s) (lastCmdTime s) c (travelTime s) (timer s)
    (ST s) (travelTimeDriver s).

Definition with_travelTime (t : float) (s : SomfyShade) : SomfyShade :=
  mkShade (address s) (position s) (lastCmdTime s) (lastCmd s) t (timer s)
    (ST s) (travelTimeDriver s).

Definition with_timer (t : Timer) (s : SomfyShade) : SomfyShade :=
  mkShade (address s) (position s) (lastCmdTime s) (lastCmd s) (travelTime s) t
    (ST s) (travelTimeDriver s).

Definition with_ST (v : Z) (s : SomfyShade) : SomfyShade :=
  mkShade (address s) (position s) (lastCmdTime s) (lastCmd s) (travelTime s)
    (timer s) v (travelTimeDriver s).

Definition with_travelTimeDriver (v : float) (s : SomfyShade) : SomfyShade :=
  mkShade (address s) (position s) (lastCmdTime s) (lastCmd s) (travelTime s)
    (timer s) (ST s) v.

Definition with_calls (l : list SerialCall) (e : Env) : Env :=
  mkEnv (clock e) (ticks e) (opens e) (writes e) (closes e) l.

(** ** The monad of methods: state, and exceptions that keep the state *)

Definition M (A : Type) : Type := World -> result A * World.

Definition ret {A : Type} (a : A) : M A := fun w => (Ok a, w).

Definition raise {A : Type} (e : exn) : M A := fun w => (Raise e, w).

Definition bind {A B : Type} (m : M A) (k : A -> M B) : M B :=
  fun w =>
    match m w with
    | (Ok a, w') => k a w'
    | (Raise e, w') => (Raise e, w')
    end.

(** [try: m  except Exception: handler] *)
Definition try {A : Type} (m : M A) (handler : M A) : M A :=
  fun w =>
    match m w with
    | (Ok a, w') => (Ok a, w')
    | (Raise _, w') => handler w'
    end.

Definition lift {A : Type} (r : result A) : M A := fun w => (r, w).

Definition get {A : Type} (proj : World -> A) : M A := fun w => (Ok (proj w), w).

Definition modify (f : World -> World) : M unit := fun w => (Ok tt, f w).

Declare Scope py_scope.
Delimit Scope py_scope with py.
Notation "x <- m ;; k" := (bind m (fun x => k))
  (at level 61, m at next level, right associativity) : py_scope.
Notation "m ;; k" := (bind m (fun _ => k))
  (at level 61, right associativity) : py_scope.
Local Open Scope py_scope.

Definition modify_parent (f : Controller -> Controller) : M unit :=
  modify (fun w => set_parent (f (parent w)) w).

Definition modify_shade (f : SomfyShade -> SomfyShade) : M unit :=
  modify (fun w => set_shade (f (shade w)) w).

Definition modify_env (f : Env -> Env) : M unit :=
  modify (fun w => set_env (f (env w)) w).

(** ** The environment's operations *)

(** [time.time()] *)
Definition time : M float :=
  fun w =>
    let e := env w in
    (Ok (clock e (ticks e)),
     set_env (mkEnv (clock e) (S (ticks e)) (opens e) (writes e) (closes e) (calls e)) w).

Definition record_call (c : SerialCall) : M unit :=
  modify_env (fun e => with_calls (calls e ++ [c]) e).

(** [self._ser.write(payload)] on an open port *)
Definition serial_write (payload : string) : M unit :=
  fun w =>
    let e := env w in
    match writes e with
    | true :: rest =>
        record_call (CallWrite payload true)
          (set_env (mkEnv (clock e) (ticks e) (opens e) rest (closes e) (calls e)) w)
    | _ =>
        (record_call (CallWrite payload false) ;; raise SerialException)
          (set_env (mkEnv (clock e) (ticks e) (opens e) (tl (writes e)) (closes e)
                      (calls e)) w)
    end.

(** [self._ser.close()] *)
Definition serial_close : M unit :=
  fun w =>
    let e := env w in
    match closes e with
    | true :: rest =>
        (record_call (CallClose true) ;;
         modify_parent (with_ser (Some (mkSerial false))))
          (set_env (mkEnv (clock e) (ticks e) (opens e) (writes e) rest (calls e)) w)
    | _ =>
        (record_call (CallClose false) ;; raise SerialException)
          (set_env (mkEnv (clock e) (ticks e) (opens e) (writes e) (tl (closes e))
                      (calls e)) w)
    end.

(** ** class Controller *)

Module Controller.

(** [self.setDriver('GV1', v)] *)
Definition setDriver_GV1 (v : Z) : M unit := modify_parent (with_GV1 v).

Definition disconnectSerial : M bool :=
  setDriver_GV1 0 ;;
  (* [if self.serialPort is None: return False] never applies to a str *)
  h <- get (fun w => _ser (parent w)) ;;
  match h with
  | Some _ => try (serial_close ;; ret true) (ret false)
  | None => ret false
  end.

(** The environment's answer to the next [serial.serial_for_url(port)] or
    [serial.Serial(port=port, ...)]: [rest] is what remains of the script. *)
Definition serial_open (o : OpenOutcome) (rest : list OpenOutcome) : M unit :=
  port <- get (fun w => serialPort (parent w)) ;;
  modify_env (fun e => mkEnv (clock e) (ticks e) rest (writes e) (closes e) (calls e)) ;;
  record_call (CallOpen port (contains "://" port) o).

(** What is left of the loop of [connectSerial] once the script has run
    out: every [open] raises, so each of the [remaining] passes costs a try,
    and the loop ends. *)
Fixpoint connect_gone (remaining : nat) : M bool :=
  match remaining with
  | S n => serial_open OpenRaises [] ;; connect_gone n
  | O => disconnectSerial ;; ret false
  end.

(** The [while _tries <= 1] loop of [connectSerial], over the outcomes the
    [open] calls will have.  An outcome that raises costs a try; a port
    returned closed does not. *)
Fixpoint connect_loop (script : list OpenOutcome) (_tries : nat) : M bool :=
  if (_tries <=? 1)%nat then
    match script with
    | Opened :: rest =>
        serial_open Opened rest ;;
        modify_parent (with_ser (Some (mkSerial true))) ;;
        setDriver_GV1 1 ;;
        ret true
    | ReturnedClosed :: rest =>
        serial_open ReturnedClosed rest ;;
        modify_parent (with_ser (Some (mkSerial false))) ;;
        setDriver_GV1 0 ;;
        connect_loop rest _tries
    | OpenRaises :: rest =>
        serial_open OpenRaises rest ;;
        connect_loop rest (S _tries)
    | [] => connect_gone (2 - _tries)
    end
  else
    disconnectSerial ;; ret false.

Definition connectSerial : M bool :=
  h <- get (fun w => _ser (parent w)) ;;
  if match h with Some s => is_open s | None => false end then
    setDriver_GV1 1 ;; ret true
  else
    script <- get (fun w => opens (env w)) ;;
    connect_loop script 0.

(** The [while _tries <= 2] loop of [_sendURTSCmd]; every pass that does not
    return adds one to [_tries], so [remaining] is [3 - _tries]. *)
Fixpoint send_loop (remaining : nat) (command : string) : M bool :=
  match remaining with
  | S r =>
      returned <- try (connected <- connectSerial ;;
                       if connected : bool then
                         serial_write command ;; ret (Some true)
                       else ret None)
                      (ret None) ;;
      match returned with
      | Some b => ret b
      | None => send_loop r command
      end
  | O =>
      disconnectSerial ;;
      ret false
  end.

Definition _sendURTSCmd (command : string) : M bool :=
  if String.eqb command "" then ret false
  else send_loop 3 command.

(** The carriage return that ends a frame. *)
Definition CR : string := String (ascii_of_nat 13) EmptyString.

Definition command (node_address command : string) : M bool :=
  try (if String.eqb command "" then ret false
       else
         _serialPort <- lift (int_of (PyStr (lstrip_char "0" (slice_to 2 node_address)))) ;;
         let _prefix := remove_char "_" (slice_from 3 node_address) in
         _sendURTSCmd (_prefix ++ command ++ CR))
      (ret false).

(** [customParams] is [self.polyConfig['customParams']], the parameters the
    user has set in Polyglot, which are strings; a configuration without
    that entry is not considered, so nothing in the [try] block raises. *)
Definition _getSerialConfig (customParams : dict string) : M unit :=
  try (match lookup "port" customParams with
       | Some port => modify_parent (with_serialPort port)
       | None => modify_parent (with_serialPort "/dev/ttyUSB0")
       end)
      (modify_parent (with_serialPort "/dev/ttyUSB0")).

Definition shortPoll : M unit := ret tt.

Definition longPoll : M unit := connectSerial ;; ret tt.

(** The address of the node of a channel: serial port 1, controller 1. *)
Definition channel_address (ch : Z) : string :=
  "01_01_" ++ rjust 2 "0" (str_of_int ch).

(** The [for ch in range(1,17)] loop of [discover].  [nodes] is
    [self.nodes], every node by its address and the name it was created
    with; [addNode] stores the node under its address. *)
Fixpoint discover_loop (channels : list Z) (nodes : dict string) : dict string :=
  match channels with
  | ch :: rest =>
      let _chAddress := channel_address ch in
      let _chName := "Shade_" ++ _chAddress in
      match lookup _chAddress nodes with
      | Some _ => discover_loop rest nodes
      | None => discover_loop rest (store _chAddress _chName nodes)
      end
  | [] => nodes
  end.

Definition discover (nodes : dict string) : dict string :=
  discover_loop (map Z.of_nat (seq 1 16)) nodes.

(** [start()] returns [True]; the node table after it is returned with it. *)
Definition start (customParams : dict string) (nodes : dict string) :
    M (bool * dict string) :=
  _getSerialConfig customParams ;;
  connectSerial ;;
  ret (true, discover nodes).

Definition delete : M unit := disconnectSerial ;; ret tt.

(** The handlers of the controller's commands [CONNECT] and [DISCONNECT]. *)
Definition _connectSerial (customParams : dict string) : M unit :=
  _getSerialConfig customParams ;;
  connectSerial ;;
  ret tt.

Definition _disconnectSerial : M unit := disconnectSerial ;; ret tt.

End Controller.

(** ** class SomfyShade *)

Module SomfyShade.

(** [self.setDriver('ST', v)] and [self.setDriver('GV1', v)] *)
Definition setDriver_ST (v : Z) : M unit := modify_shade (with_ST v).

Definition setDriver_GV1 (v : float) : M unit :=
  modify_shade (with_travelTimeDriver v).

(** [Timer.cancel()] sets the event that [Timer.run] tests before it calls
    the function. *)
Definition cancel (t : Timer) : Timer :=
  mkTimer (interval t) (function t) (started t) true.

Definition start_timer (t : Timer) : Timer :=
  mkTimer (interval t) (function t) true (finished t).

(** [__init__] followed by [start()]: [configured] is the entry of the
    shade's address in the custom parameters, when there is one. *)
Definition new (address : string) (configured : option value) : SomfyShade :=
  let travelTime :=
    match configured with
    | Some v => match float_of v with Ok f => f | Raise _ => 8%float end
    | None => 8%float
    end in
  mkShade address (-1) 0%float "" travelTime
    (mkTimer 1%float LoggerDebug false false) 0 travelTime.

(** [start()] on its own, for a shade that exists: it returns [True] when
    it took the travel time from the configuration and [None] otherwise.
    [customParams] is [self.parent.polyConfig['customParams']]. *)
Definition start (customParams : dict string) : M (option bool) :=
  a <- get (fun w => address (shade w)) ;;
  returned <-
    match lookup a customParams with
    | Some configured =>
        try (t <- lift (float_of (PyStr configured)) ;;
             modify_shade (with_travelTime t) ;;
             setDriver_GV1 t ;;
             ret (Some true))
            (ret None)
    | None => ret None
    end ;;
  match returned with
  | Some b => ret (Some b)
  | None =>
      modify_shade (with_travelTime 8) ;;
      setDriver_GV1 8 ;;
      ret None
  end.

Definition _isNumeric (v : value) : bool := is_ok (float_of v).

Definition _travelTimeReqd (positionSP : Z) : M float :=
  s <- get shade ;;
  try (if (position s =? -1)%Z then ret (travelTime s)
       else
         distance <- lift (float_of_int (positionSP - position s)) ;;
         q <- lift (truediv (travelTime s * distance) 100) ;;
         ret (abs q))
      (ret (travelTime s)).

Definition _updatePosition : M bool :=
  try (modify_shade (fun s => with_timer (cancel (timer s)) s)) (ret tt) ;;
  _now <- time ;;
  s <- get shade ;;
  let _timeDifference := Py.max (_now - lastCmdTime s) 0 in
  (if (travelTime s <=? _timeDifference)%float then
     if String.eqb (lastCmd s) "U" then modify_shade (with_position 100)
     else if String.eqb (lastCmd s) "D" then modify_shade (with_position 0)
     else ret tt
   else if (0 <? _timeDifference)%float && (0 <=? position s)%Z then
     q <- lift (truediv _timeDifference (travelTime s)) ;;
     let _travel := (q * 100)%float in
     if String.eqb (lastCmd s) "U" then
       p <- lift (float_of_int (position s)) ;;
       v <- lift (int_of_float (Py.max (Py.min (p + _travel) 100) 0)) ;;
       modify_shade (with_position v)
     else if String.eqb (lastCmd s) "D" then
       p <- lift (float_of_int (position s)) ;;
       v <- lift (int_of_float (Py.max (Py.min (p - _travel) 100) 0)) ;;
       modify_shade (with_position v)
     else ret tt
   else ret tt) ;;
  s <- get shade ;;
  (if (0 <=? position s)%Z then setDriver_ST (position s) else ret tt) ;;
  t <- time ;;
  modify_shade (with_lastCmdTime t) ;;
  modify_shade (with_lastCmd "") ;;
  ret true.

Definition _stop : M bool :=
  a <- get (fun w => address (shade w)) ;;
  _success <- Controller.command a "S" ;;
  _updatePosition ;;
  ret _success.

Definition _command (timeSP : float) (command : string) (nextCmd : value) : M bool :=
  _command <- lift (match command with
                    | String c _ => Ok (String c EmptyString)
                    | EmptyString => Raise IndexError
                    end) ;;
  a <- get (fun w => address (shade w)) ;;
  Controller.command a _command ;;
  t <- time ;;
  modify_shade (with_lastCmdTime t) ;;
  modify_shade (with_lastCmd _command) ;;
  try ((* [self.timer] is never [None] *)
       modify_shade (fun s => with_timer (cancel (timer s)) s) ;;
       modify_shade (with_timer
         (mkTimer timeSP
            (if str_is "S" nextCmd then Stop
             else if _isNumeric nextCmd then SetShadePosition nextCmd
             else UpdatePosition)
            false false)) ;;
       modify_shade (fun s => with_timer (start_timer (timer s)) s) ;;
       ret true)
      (ret false).

Definition setShadePosition (positionSP : Z) : M bool :=
  _updatePosition ;;
  s <- get shade ;;
  if (positionSP <=? 0)%Z then
    timeSP <- _travelTimeReqd positionSP ;; _command timeSP "D" (PyStr "")
  else if (100 <=? positionSP)%Z then
    timeSP <- _travelTimeReqd positionSP ;; _command timeSP "U" (PyStr "")
  else if (position s =? -1)%Z then
    timeSP <- _travelTimeReqd positionSP ;; _command timeSP "D" (PyInt positionSP)
  else if (position s <? positionSP)%Z then
    timeSP <- _travelTimeReqd positionSP ;; _command timeSP "U" (PyStr "S")
  else
    timeSP <- _travelTimeReqd positionSP ;; _command timeSP "D" (PyStr "S").

(** The handlers of the node's commands.  [v] is [command.get('value')]. *)

Definition query : M unit :=
  s <- get shade ;;
  (if (0 <=? position s)%Z then setDriver_ST (position s) else ret tt) ;;
  setDriver_GV1 (travelTime s).

Definition down : M bool := setShadePosition 0.

Definition up5 : M bool :=
  s <- get shade ;;
  if (position s =? -1)%Z then ret false
  else setShadePosition (position s + 5).

Definition down5 : M bool :=
  s <- get shade ;;
  if (position s =? -1)%Z then ret false
  else setShadePosition (position s - 5).

Definition up (v : value) : M bool :=
  match v with
  | PyNone => setShadePosition 100
  | _ => _position <- lift (int_of v) ;; setShadePosition _position
  end.

Definition stop : M bool := _stop.

Definition setTravelTime (v : value) : M bool :=
  parsed <- try (_time <- lift (float_of v) ;; ret (Some _time)) (ret None) ;;
  match parsed with
  | None => ret false
  | Some _time =>
      if (_time <? 0)%float || (60 <? _time)%float then ret false
      else
        modify_shade (with_travelTime _time) ;;
        setDriver_GV1 _time ;;
        ret true
  end.

(** [Timer.run] once the interval has passed: the function is called unless
    the timer was cancelled.  [setShadePosition] takes the int that
    [_command] stored. *)
Definition expire : M unit :=
  t <- get (fun w => timer (shade w)) ;;
  if started t && negb (finished t) then
    match function t with
    | LoggerDebug => ret tt
    | Stop => _stop ;; ret tt
    | SetShadePosition (PyInt positionSP) => setShadePosition positionSP ;; ret tt
    | SetShadePosition _ => raise TypeError
    | UpdatePosition => _updatePosition ;; ret tt
    end
  else ret tt.

End SomfyShade.

(** ** Vocabulary of the properties *)

(** A float that is not a NaN, with its sign. *)
Definition signed (s : bool) (x : spec_float) : Prop :=
  match x with
  | S754_nan => False
  | S754_zero s' | S754_infinity s' | S754_finite s' _ _ => s' = s
  end.

Definition sf100 : spec_float := S754_finite false 7036874417766400 (-46).

(** The float of a position that is known. *)
Definition nonneg_finite (x : spec_float) : Prop :=
  match x with
  | S754_zero false | S754_finite false _ _ => True
  | _ => False
  end.

Definition clamp (x : float) : float := Py.max (Py.min x 100) 0.

Definition small_nonneg (z : Z) : bool :=
  match float_of_int z with
  | Ok f =>
      match Prim2SF f with
      | S754_zero false | S754_finite false _ _ => true
      | _ => false
      end
  | Raise _ => false
  end.

Definition percents : list Z := map Z.of_nat (seq 0 101).

Definition distances : list Z := map (fun n => Z.of_nat n - 100) (seq 0 201).

Definition small_distance (d : Z) : bool :=
  PrimFloat.Leibniz.eqb (abs (nearest_float d)) (nearest_float (Z.abs d)) &&
  is_ok (float_of_int d).

(** A method that never raises. *)
Definition returns {A : Type} (m : M A) : Prop :=
  forall w, exists a, fst (m w) = Ok a.

(** A relation between the world before and after a method, whether it
    returns or raises. *)
Definition keeps {A : Type} (R : World -> World -> Prop) (m : M A) : Prop :=
  forall w, R w (snd (m w)).

(** The controller leaves the shade and the clock alone. *)
Definition same_shade (w w' : World) : Prop :=
  shade w' = shade w /\ clock (env w') = clock (env w) /\
  ticks (env w') = ticks (env w).

Definition elapsed (w : World) : float :=
  Py.max (clock (env w) (ticks (env w)) - lastCmdTime (shade w)) 0.

Definition well_formed (w : World) : Prop :=
  (travelTime (shade w) =? travelTime (shade w))%float = true /\
  -1 <= position (shade w) <= 100.

Definition finalized (w : World) (p' : Z) : World :=
  let s := shade w in
  let e := env w in
  mkWorld (parent w)
    (mkShade (address s) p' (clock e (S (ticks e))) "" (travelTime s)
       (SomfyShade.cancel (timer s)) (if (0 <=? p')%Z then p' else ST s)
       (travelTimeDriver s))
    (mkEnv (clock e) (S (S (ticks e))) (opens e) (writes e) (closes e) (calls e)).

(** The timer [_command] arms for its [nextCmd]. *)
Definition follow_up (nextCmd : value) : TimerFunction :=
  if str_is "S" nextCmd then Stop
  else if SomfyShade._isNumeric nextCmd then SetShadePosition nextCmd
  else UpdatePosition.

(** The world after [_command timeSP command nextCmd], from the world [w]
    before it and the world [w2] in which the controller's [command]
    returned. *)
Definition commanded (w w2 : World) (timeSP : float) (command : string)
    (nextCmd : value) : World :=
  let s := shade w in
  let e := env w2 in
  mkWorld (parent w2)
    (mkShade (address s) (position s) (clock (env w) (ticks (env w))) command
       (travelTime s) (mkTimer timeSP (follow_up nextCmd) true false) (ST s)
       (travelTimeDriver s))
    (mkEnv (clock e) (S (ticks e)) (opens e) (writes e) (closes e) (calls e)).

Definition direction (p t : Z) : string :=
  if t <=? 0 then "D"
  else if 100 <=? t then "U"
  else if p =? -1 then "D"
  else if p <? t then "U" else "D".

Definition next_command (p t : Z) : value :=
  if (t <=? 0) || (100 <=? t) then PyStr ""
  else if p =? -1 then PyInt t else PyStr "S".

(** The serial side of the world: the controller, what the device will do
    next, and the calls made so far. *)
Definition transport (w : World) :
    Controller * list OpenOutcome * list bool * list bool * list SerialCall :=
  (parent w, opens (env w), writes (env w), closes (env w), calls (env w)).

(** Between [w] and [w'] the shade handed [command] to the controller: the
    serial side of [w'] is the one [Controller.command] leaves. *)
Definition sent (command : string) (w w' : World) : Prop :=
  transport w' = transport (snd (Controller.command (address (shade w)) command w)).

(** A position estimate: the sentinel [-1] (unknown), or a percentage. *)
Definition estimate (p : Z) : Prop := p = -1 \/ 0 <= p <= 100.

(** What a method does to the position: it keeps it, or sets a percentage. *)
Definition position_step (w w' : World) : Prop :=
  position (shade w') = position (shade w) \/ 0 <= position (shade w') <= 100.

(** The commands of a shade node, by their names in [commands], and the
    expiry of its timer. *)
Inductive Operation : Type :=
| DON (v : value)
| DOF
| BRT
| DIM
| QUERY
| STOP
| SET_TRAVEL_TIME (v : value)
| TimerExpires.

Definition perform (op : Operation) : M unit :=
  match op with
  | DON v => SomfyShade.up v ;; ret tt
  | DOF => SomfyShade.down ;; ret tt
  | BRT => SomfyShade.up5 ;; ret tt
  | DIM => SomfyShade.down5 ;; ret tt
  | QUERY => SomfyShade.query
  | STOP => SomfyShade.stop ;; ret tt
  | SET_TRAVEL_TIME v => SomfyShade.setTravelTime v ;; ret tt
  | TimerExpires => SomfyShade.expire
  end.

(** The world after a sequence of operations; one that raises leaves the
    world as it was when the exception left the handler. *)
Definition run (ops : list Operation) (w : World) : World :=
  fold_left (fun w op => snd (perform op w)) ops w.

Definition is_write (c : SerialCall) : bool :=
  match c with CallWrite _ _ => true | _ => false end.

Definition is_completed_write (c : SerialCall) : bool :=
  match c with CallWrite _ true => true | _ => false end.

(** [self._ser] is a port object that is open. *)
Definition link_is_open (w : World) : bool :=
  match _ser (parent w) with Some h => is_open h | None => false end.

(** What connecting and disconnecting do to the serial side: calls are
    added, none of them a write, and the outcomes of the coming writes are
    not consumed. *)
Definition no_write_between (w w' : World) : Prop :=
  writes (env w') = writes (env w) /\
  exists l, calls (env w') = (calls (env w) ++ l)%list /\ filter is_write l = [].

(** What [connectSerial] promises its caller. *)
Definition connected (r : result bool) (w' : World) : Prop :=
  match r with
  | Ok true => link_is_open w' = true /\ GV1 (parent w') = 1
  | Ok false => GV1 (parent w') = 0
  | Raise _ => False
  end.

(** One connect+write attempt, the body of the loop of [_sendURTSCmd]:
    whether the write completed.  An attempt that does not get connected,
    or in which anything raises, has failed. *)
Definition attempt (payload : string) : M bool :=
  try (connected <- Controller.connectSerial ;;
       if connected : bool then serial_write payload ;; ret true
       else ret false)
      (ret false).

(** The world after [k] attempts in a row that failed, if they all did. *)
Fixpoint after_failures (payload : string) (k : nat) (w : World) : option World :=
  match k with
  | O => Some w
  | S k' =>
      match attempt payload w with
      | (Ok false, w1) => after_failures payload k' w1
      | _ => None
      end
  end.

(** *** Further vocabulary *)

(** A call to open the port that raised. *)
Definition is_failed_open (c : SerialCall) : bool :=
  match c with CallOpen _ _ OpenRaises => true | _ => false end.

(** The call that opens the port of [w], with its outcome. *)
Definition open_call (w : World) (o : OpenOutcome) : SerialCall :=
  let port := serialPort (parent w) in
  CallOpen port (contains "://" port) o.

(** What a run [r] of the loop of [connectSerial] from [w] has done with a
    [budget] of tries left: the calls it has added, of which at most
    [budget] are opens that raised; the port name is the same; [True] comes
    right after the call that opened the port, and [False] leaves the port
    not open if it was not. *)
Definition connect_trace (budget : nat) (w : World) (r : result bool * World) : Prop :=
  exists l,
    calls (env (snd r)) = (calls (env w) ++ l)%list /\
    serialPort (parent (snd r)) = serialPort (parent w) /\
    (List.length (filter is_failed_open l) <= budget)%nat /\
    (fst r = Ok true -> exists l0, l = (l0 ++ [open_call w Opened])%list) /\
    (link_is_open w = false -> fst r = Ok false -> link_is_open (snd r) = false).

(** The port the configuration names: the ['port'] parameter, or the USB
    port when there is none. *)
Definition configured_port (customParams : dict string) : string :=
  match lookup "port" customParams with
  | Some port => port
  | None => "/dev/ttyUSB0"
  end.

(** The channels of a URTSii: [range(1,17)]. *)
Definition channels : list Z := map Z.of_nat (seq 1 16).

(** What [command] needs of a channel's address: a serial port number that
    reads as an int, and the controller and channel digits after it. *)
Definition channel_ok (ch : Z) : bool :=
  let a := Controller.channel_address ch in
  is_ok (int_of_str (lstrip_char "0" (slice_to 2 a))) &&
  String.eqb (remove_char "_" (slice_from 3 a)) ("01" ++ rjust 2 "0" (str_of_int ch)) &&
  Nat.eqb (String.length a) 8.

(** The travel time the configuration gives a shade: the entry of its
    address, when there is one that [float()] reads. *)
Definition configured_time (customParams : dict string) (a : string) : option float :=
  match lookup a customParams with
  | Some configured =>
      match float_of (PyStr configured) with
      | Ok t => Some t
      | Raise _ => None
      end
  | None => None
  end.

(** The shade with a new travel time, reported on its driver. *)
Definition calibrated (t : float) (w : World) : World :=
  set_shade (with_travelTimeDriver t (with_travelTime t (shade w))) w.

(** No write will complete on the device. *)
Definition write_fails (w : World) : bool := forallb negb (writes (env w)).

(** On a device on which no write completes, none does. *)
Definition failing_between (w w' : World) : Prop :=
  write_fails w = true ->
  write_fails w' = true /\
  exists l, calls (env w') = (calls (env w) ++ l)%list /\
            filter is_completed_write l = [].

(** The finalizations that raise: the travel time is a NaN, time has passed
    since a motor command, and the position is known. *)
Definition finalization_fails (w : World) : bool :=
  let s := shade w in
  negb (travelTime s =? travelTime s)%float &&
  (0 <? elapsed w)%float && (0 <=? position s)%Z &&
  (String.eqb (lastCmd s) "U" || String.eqb (lastCmd s) "D").

(** A timer that calls [setShadePosition] was given an int. *)
Definition timer_ok (t : Timer) : Prop :=
  match function t with
  | SetShadePosition v => exists z, v = PyInt z
  | _ => True
  end.

(** A shade in working order: its travel time is a number, its position an
    estimate, its timer one that [_command] made. *)
Definition sound (w : World) : Prop :=
  well_formed w /\ timer_ok (timer (shade w)).

(** A request with a value the handler can read: a target that [int()]
    reads, a travel time that [float()] does not read as a NaN. *)
Definition readable (op : Operation) : Prop :=
  match op with
  | DON v => v = PyNone \/ is_ok (int_of v) = true
  | SET_TRAVEL_TIME v =>
      match float_of v with
      | Ok t => (t =? t)%float = true
      | Raise _ => True
      end
  | _ => True
  end.

(** Every operation of the sequence returns. *)
Fixpoint all_return (ops : list Operation) (w : World) : Prop :=
  match ops with
  | [] => True
  | op :: rest => fst (perform op w) = Ok tt /\ all_return rest (snd (perform op w))
  end.

(** The drivers report the state: [GV1] the travel time, [ST] the position
    when it is known. *)
Definition drivers_report (s : SomfyShade) : Prop :=
  travelTimeDriver s = travelTime s /\ (0 <= position s -> ST s = position s).

(** A step that keeps the drivers in line with the state. *)
Definition report_step (w w' : World) : Prop :=
  drivers_report (shade w) -> drivers_report (shade w').

(** What the drivers report on is untouched. *)
Definition same_report (w w' : World) : Prop :=
  travelTimeDriver (shade w') = travelTimeDriver (shade w) /\
  travelTime (shade w') = travelTime (shade w) /\
  ST (shade w') = ST (shade w) /\
  position (shade w') = position (shade w).

(** The serial side of the world is untouched. *)
Definition silent {A : Type} (m : M A) : Prop :=
  forall w, transport (snd (m w)) = transport w.

(** The frame of a command for the node at address [a]. *)
Definition frame (a c : string) : string :=
  remove_char "_" (slice_from 3 a) ++ c ++ Controller.CR.

(** A serial call that is not a write, or a write of one of the payloads. *)
Definition writes_one_of (payloads : list string) (c : SerialCall) : Prop :=
  match c with
  | CallWrite p _ => In p payloads
  | _ => True
  end.

(** The calls between [w] and [w']: writes of the given payloads only, at
    most [n] of them, of which at most one completed. *)
Definition wrote (payloads : list string) (n : nat) (w w' : World) : Prop :=
  exists l,
    calls (env w') = (calls (env w) ++ l)%list /\
    Forall (writes_one_of payloads) l /\
    (List.length (filter is_write l) <= n)%nat /\
    (List.length (filter is_completed_write l) <= 1)%nat.

(** The frames that move or stop the shade at address [a]. *)
Definition motor_frames (a : string) : list string :=
  [frame a "U"; frame a "D"; frame a "S"].

(** One request: it keeps the address and writes motor frames only, in at
    most three writes of which at most one completes. *)
Definition one_request (w w' : World) : Prop :=
  address (shade w') = address (shade w) /\
  wrote (motor_frames (address (shade w))) 3 w w'.

(** ** Example worlds *)

(** A wall clock that returns the given seconds, one at each reading. *)
Definition readings (seconds : list Z) (n : nat) : float :=
  nearest_float (nth n seconds 0).

(** The shade [01_01_05] at [position], with travel time [T], whose last
    motor command [lastCmd] was issued at [lastCmdTime]; the port is open
    and the device completes the next four writes. *)
Definition example (position : Z) (T : float) (lastCmd : string)
    (lastCmdTime : float) (seconds : list Z) : World :=
  mkWorld (mkController "/dev/ttyUSB0" (Some (mkSerial true)) 1)
    (mkShade "01_01_05" position lastCmdTime lastCmd T
       (mkTimer 1 LoggerDebug false false) 0 T)
    (mkEnv (readings seconds) 0 [] [true; true; true; true] [] []).

(** A shade that has just been started, before the port is opened; the
    device will open and complete four writes. *)
Definition fresh (seconds : list Z) : World :=
  mkWorld (mkController "/dev/ttyUSB0" None 0)
    (SomfyShade.new "01_01_05" None)
    (mkEnv (readings seconds) 0 [Opened] [true; true; true; true] [] []).

(** The same shade with a device on which every write fails. *)
Definition failing_device : World :=
  mkWorld (mkController "/dev/ttyUSB0" None 0)
    (SomfyShade.new "01_01_05" None)
    (mkEnv (readings []) 0 [Opened] [false; false; false] [true] []).

(** A device that opens, on which three writes fail and [close()] raises. *)
Definition stuck_device : World :=
  mkWorld (mkController "/dev/ttyUSB0" None 0)
    (SomfyShade.new "01_01_05" None)
    (mkEnv (readings []) 0 [Opened; Opened] [false; false; false; true] [false] []).

(** A device that is opened twice: three writes fail on it, the fourth
    completes. *)
Definition flaky_device : World :=
  mkWorld (mkController "/dev/ttyUSB0" None 0)
    (SomfyShade.new "01_01_05" None)
    (mkEnv (readings []) 0 [Opened; Opened] [false; false; false; true] [true] []).

(** ** Facts about binary64 arithmetic *)

Lemma shr_1_nonneg (mrs : shr_record) : 0 <= shr_m mrs -> 0 <= shr_m (shr_1 mrs).
Proof.
  destruct mrs as [m r s]; simpl.
  destruct m as [|p|p]; simpl; try lia; destruct p; simpl; lia.
Qed.

Lemma iter_shr_1_nonneg (n : positive) :
  forall mrs, 0 <= shr_m mrs -> 0 <= shr_m (iter_pos shr_1 n mrs).
Proof.
  induction n as [n IH|n IH|]; intros mrs H; simpl.
  - apply IH, IH, shr_1_nonneg, H.
  - apply IH, IH, H.
  - apply shr_1_nonneg, H.
Qed.

Lemma shr_fexp_nonneg (m e : Z) (l : location) :
  0 <= m -> 0 <= shr_m (fst (shr_fexp prec emax m e l)).
Proof.
  intros H. unfold shr_fexp, shr.
  assert (H0 : 0 <= shr_m (shr_record_of_loc m l))
    by (destruct l as [|[]]; simpl; exact H).
  destruct (fexp prec emax (Zdigits2 m + e) - e); simpl; auto.
  apply iter_shr_1_nonneg, H0.
Qed.

Lemma round_nearest_even_nonneg (m : Z) (l : location) :
  0 <= m -> 0 <= round_nearest_even m l.
Proof.
  intros H. destruct l as [|[]]; simpl; try lia.
  destruct (Z.even m); lia.
Qed.

Lemma binary_round_aux_signed (s : bool) (m e : Z) (l : location) :
  0 <= m -> signed s (binary_round_aux prec emax s m e l).
Proof.
  intros H. unfold binary_round_aux.
  pose proof (shr_fexp_nonneg m e l H) as H1.
  destruct (shr_fexp prec emax m e l) as [mrs' e']. simpl in H1.
  pose proof (shr_fexp_nonneg _ e' loc_Exact
                (round_nearest_even_nonneg _ (loc_of_shr_record mrs') H1)) as H2.
  destruct (shr_fexp prec emax _ e' loc_Exact) as [mrs'' e'']. simpl in H2.
  destruct (shr_m mrs'') as [|p|p]; simpl; try reflexivity; try lia.
  destruct (_ <=? _); simpl; reflexivity.
Qed.

Lemma SFdiv_signed (m1 m2 : positive) (e1 e2 : Z) :
  signed false (SFdiv prec emax (S754_finite false m1 e1) (S754_finite false m2 e2)).
Proof.
  unfold SFdiv, SFdiv_core_binary.
  match goal with |- context [Z.div_eucl ?a ?b] =>
    pose proof (Z.div_eucl_eq a b ltac:(lia)) as Hq;
    pose proof (Z.mod_pos_bound a b ltac:(lia)) as Hr;
    assert (Ha : 0 <= a);
    [| unfold Z.modulo in Hr; destruct (Z.div_eucl a b) as [q r] ]
  end.
  { destruct (e1 - e2 - _); try lia. apply Z.shiftl_nonneg. lia. }
  apply binary_round_aux_signed. nia.
Qed.

Lemma Prim2SF_100 : Prim2SF 100 = sf100.
Proof. vm_compute. reflexivity. Qed.

Lemma Prim2SF_0 : Prim2SF 0 = S754_zero false.
Proof. vm_compute. reflexivity. Qed.

Lemma Prim2SF_60 : Prim2SF 60 = S754_finite false 8444249301319680 (-47).
Proof. vm_compute. reflexivity. Qed.

Lemma SFmul_100_signed (q : spec_float) :
  signed false q -> signed false (SFmul prec emax q sf100).
Proof.
  destruct q as [s|s| |s m e]; simpl; try tauto; intros ->; try reflexivity.
  apply binary_round_aux_signed. lia.
Qed.

Lemma binary_normalize_not_nan (z e : Z) :
  binary_normalize prec emax z e false <> S754_nan.
Proof.
  assert (H : forall s m, signed s (binary_round prec emax s m e)).
  { intros s m. unfold binary_round.
    destruct (shl_align m e _) as [mz ez]. apply binary_round_aux_signed. lia. }
  destruct z as [|p|p]; simpl; try discriminate.
  - specialize (H false p). intros E. rewrite E in H. exact H.
  - specialize (H true p). intros E. rewrite E in H. exact H.
Qed.

Lemma SFadd_not_nan (p t : spec_float) :
  nonneg_finite p -> signed false t -> SFadd prec emax p t <> S754_nan.
Proof.
  destruct p as [[]|[]| |[] m e]; simpl; try tauto; intros _;
    destruct t as [s|s| |s m' e']; simpl; try tauto; intros ->;
    try discriminate.
  apply binary_normalize_not_nan.
Qed.

Lemma SFsub_not_nan (p t : spec_float) :
  nonneg_finite p -> signed false t -> SFsub prec emax p t <> S754_nan.
Proof.
  destruct p as [[]|[]| |[] m e]; simpl; try tauto; intros _;
    destruct t as [s|s| |s m' e']; simpl; try tauto; intros ->;
    try discriminate.
  apply binary_normalize_not_nan.
Qed.

Lemma digits2_pos_bound (m : positive) : Zpos m < 2 ^ Zpos (digits2_pos m).
Proof.
  induction m as [m IH|m IH|]; simpl digits2_pos;
    rewrite ?Pos2Z.inj_succ, ?Z.pow_succ_r by lia; lia.
Qed.

Lemma valid_mantissa_bound (m : positive) (e : Z) :
  valid_binary (S754_finite false m e) = true -> Zpos m < 2 ^ 53.
Proof.
  unfold valid_binary, bounded, canonical_mantissa, fexp.
  intros H. apply andb_prop in H as [H _]. apply Z.eqb_eq in H.
  pose proof (digits2_pos_bound m) as B.
  assert (D : Zpos (digits2_pos m) <= 53) by (unfold prec in H; lia).
  eapply Z.lt_le_trans; [exact B|]. apply Z.pow_le_mono_r; lia.
Qed.

(** What [int()] makes of a float that the clamp let through. *)
Lemma int_of_clamped (r : float) :
  (100 <? r)%float = false -> (r <? 0)%float = false ->
  match int_of_float r with
  | Ok v => 0 <= v <= 100
  | Raise _ => Prim2SF r = S754_nan
  end.
Proof.
  rewrite !ltb_spec, Prim2SF_100, Prim2SF_0. unfold int_of_float.
  pose proof (Prim2SF_valid r) as V.
  destruct (Prim2SF r) as [s|s| |s m e]; try reflexivity.
  - intros _ _. lia.
  - destruct s; simpl; discriminate.
  - destruct s; [simpl; discriminate|].
    intros H _. apply valid_mantissa_bound in V.
    unfold sf100, SFltb, SFcompare in H.
    destruct (Z.compare_spec (-46) e) as [E|E|E]; try discriminate.
    + subst e.
      assert (B : Zpos m <= 7036874417766400).
      { change (PosDef.Pos.compare_cont Eq 7036874417766400 m)
          with (Pos.compare 7036874417766400 m) in H.
        destruct (Pos.compare_spec 7036874417766400 m) as [C|C|C];
          try discriminate.
        - subst m. apply Z.le_refl.
        - apply Pos2Z.pos_lt_pos in C. apply Z.lt_le_incl, C. }
      clear H V. rewrite Z.shiftr_div_pow2 by lia.
      change (2 ^ 46) with 70368744177664.
      split; [apply Z.div_pos; lia|]. apply Z.div_le_upper_bound; lia.
    + clear H. destruct e as [|e|k]; try lia.
      rewrite Z.shiftr_div_pow2 by lia.
      assert (P : 2 ^ 47 <= 2 ^ Zpos k) by (apply Z.pow_le_mono_r; lia).
      change (2 ^ 53) with (64 * 2 ^ 47) in V.
      assert (Q : 0 < 2 ^ 47) by lia.
      split; [apply Z.div_pos; lia|].
      apply Z.div_le_upper_bound; [lia|].
      generalize dependent (2 ^ Zpos k). generalize dependent (2 ^ 47).
      intros; lia.
Qed.

Lemma clamp_bounds (x : float) :
  (100 <? clamp x)%float = false /\ (clamp x <? 0)%float = false.
Proof.
  unfold clamp, Py.max, Py.min.
  destruct (100 <? x)%float eqn:A.
  - split; reflexivity.
  - destruct (x <? 0)%float eqn:B.
    + split; reflexivity.
    + rewrite A, B. split; reflexivity.
Qed.

Lemma clamp_nan (x : float) :
  Prim2SF (clamp x) = S754_nan -> Prim2SF x = S754_nan.
Proof.
  unfold clamp, Py.max, Py.min.
  destruct (100 <? x)%float.
  - change (if (100 <? 0)%float then 0%float else 100%float) with 100%float.
    rewrite Prim2SF_100. discriminate.
  - destruct (x <? 0)%float; [rewrite Prim2SF_0; discriminate|auto].
Qed.

Lemma int_of_clamp_range (x : float) (v : Z) :
  int_of_float (clamp x) = Ok v -> 0 <= v <= 100.
Proof.
  intros H. destruct (clamp_bounds x) as [A B].
  pose proof (int_of_clamped _ A B) as C. rewrite H in C. exact C.
Qed.

Lemma int_of_clamp_ok (x : float) :
  Prim2SF x <> S754_nan ->
  exists v, int_of_float (clamp x) = Ok v /\ 0 <= v <= 100.
Proof.
  intros H. destruct (clamp_bounds x) as [A B].
  pose proof (int_of_clamped _ A B) as C.
  destruct (int_of_float (clamp x)) as [v|e].
  - exists v. split; [reflexivity|exact C].
  - apply clamp_nan in C. contradiction.
Qed.

Lemma no_zero_division (td T : float) :
  (T <=? td)%float = false -> (0 <? td)%float = true -> (T =? 0)%float = false.
Proof.
  rewrite leb_spec, ltb_spec, eqb_spec, Prim2SF_0.
  destruct (Prim2SF T) as [s|s| |s m e], (Prim2SF td) as [s'|s'| |s' m' e'];
    try reflexivity; try discriminate;
    try (destruct s; reflexivity); try (destruct s'; discriminate).
Qed.

Lemma partial_travel_signed (td T : float) :
  (T =? T)%float = true -> (T <=? td)%float = false -> (0 <? td)%float = true ->
  signed false (Prim2SF (td / T * 100)).
Proof.
  rewrite mul_spec, div_spec, leb_spec, ltb_spec, eqb_spec, Prim2SF_0, Prim2SF_100.
  intros N L P. apply SFmul_100_signed. revert N L P.
  destruct (Prim2SF T) as [s|s| |s m e], (Prim2SF td) as [s'|s'| |s' m' e'];
    try discriminate; try (destruct s'; discriminate);
    try (destruct s; discriminate); destruct s, s'; try discriminate;
    intros _ _ _; try reflexivity.
  apply SFdiv_signed.
Qed.

Lemma positive_not_nan (T : float) : (0 <? T)%float = true -> (T =? T)%float = true.
Proof.
  rewrite ltb_spec, eqb_spec, Prim2SF_0.
  destruct (Prim2SF T) as [s|s| |s m e]; try discriminate; try reflexivity.
  - destruct s; reflexivity.
  - intros _. unfold SFeqb, SFcompare. destruct s; rewrite Z.compare_refl, Pos.compare_cont_refl; reflexivity.
Qed.

(** For a float that is a number, the test of [setTravelTime] is the range
    [0 <= _time <= 60]. *)
Lemma range_check (f : float) :
  (f =? f)%float = true ->
  (f <? 0)%float || (60 <? f)%float = negb ((0 <=? f)%float && (f <=? 60)%float).
Proof.
  rewrite eqb_spec, !ltb_spec, !leb_spec, Prim2SF_0, Prim2SF_60.
  generalize 8444249301319680%positive (-47). intros M E.
  destruct (Prim2SF f) as [s|s| |s m e]; try discriminate; intros _.
  - destruct s; reflexivity.
  - destruct s; reflexivity.
  - destruct s; [reflexivity|].
    unfold SFltb, SFleb, SFcompare. cbn [orb andb negb].
    rewrite (Z.compare_antisym e E).
    destruct (e ?= E); try reflexivity. cbn [CompOpp].
    change (PosDef.Pos.compare_cont Eq M m)
      with (Pos.compare_cont (CompOpp Eq) M m).
    rewrite <- (Pos.compare_cont_antisym m M Eq).
    destruct (Pos.compare_cont Eq m M); reflexivity.
Qed.

Lemma In_percents (p : Z) : 0 <= p <= 100 -> In p percents.
Proof.
  intros H. unfold percents. rewrite <- (Z2Nat.id p) by lia.
  apply in_map, in_seq. lia.
Qed.

Lemma float_of_percent (p : Z) :
  0 <= p <= 100 ->
  float_of_int p = Ok (nearest_float p) /\ nonneg_finite (Prim2SF (nearest_float p)).
Proof.
  intros H. apply In_percents in H.
  assert (A : forallb small_nonneg percents = true) by (vm_compute; reflexivity).
  rewrite forallb_forall in A. specialize (A p H). unfold small_nonneg in A.
  unfold float_of_int in *.
  destruct (is_infinity (nearest_float p)); [discriminate|]. split; [reflexivity|].
  unfold nonneg_finite. destruct (Prim2SF (nearest_float p)) as [[]|[]| |[] ? ?];
    try discriminate; exact I.
Qed.

Lemma SFabs_round (s : bool) (m e : Z) (l : location) :
  SFabs (binary_round_aux prec emax s m e l) = binary_round_aux prec emax false m e l.
Proof.
  unfold binary_round_aux.
  destruct (shr_fexp prec emax m e l) as [mrs' e'].
  destruct (shr_fexp prec emax _ e' loc_Exact) as [mrs'' e''].
  destruct (shr_m mrs''); simpl; try reflexivity.
  destruct (_ <=? _); reflexivity.
Qed.

Lemma SFabs_mul (x y : spec_float) :
  SFabs (SFmul prec emax x y) = SFmul prec emax (SFabs x) (SFabs y).
Proof.
  destruct x, y; simpl; try reflexivity. apply SFabs_round.
Qed.

Lemma SFabs_div (x y : spec_float) :
  SFabs (SFdiv prec emax x y) = SFdiv prec emax (SFabs x) (SFabs y).
Proof.
  destruct x, y; simpl; try reflexivity.
  destruct (SFdiv_core_binary _ _ _ _ _ _) as [[mz ez] lz]. apply SFabs_round.
Qed.

Lemma In_distances (d : Z) : -100 <= d <= 100 -> In d distances.
Proof.
  intros H. unfold distances.
  apply in_map_iff. exists (Z.to_nat (d + 100)). split; [lia|].
  apply in_seq. lia.
Qed.

Lemma float_of_distance (d : Z) :
  -100 <= d <= 100 ->
  float_of_int d = Ok (nearest_float d) /\
  abs (nearest_float d) = nearest_float (Z.abs d).
Proof.
  intros H. apply In_distances in H.
  assert (A : forallb small_distance distances = true) by (vm_compute; reflexivity).
  rewrite forallb_forall in A. specialize (A d H). unfold small_distance in A.
  apply andb_prop in A as [A B]. apply FloatAxioms.Leibniz.eqb_spec in A.
  split; [|exact A]. unfold float_of_int in *.
  destruct (is_infinity (nearest_float d)); [discriminate|reflexivity].
Qed.

Lemma required_seconds (T : float) (d : Z) :
  (0 <? T)%float = true -> -100 <= d <= 100 ->
  abs (T * nearest_float d / 100) = (T * nearest_float (Z.abs d) / 100)%float.
Proof.
  intros P H. apply Prim2SF_inj.
  destruct (float_of_distance d H) as [_ A]. rewrite <- A.
  rewrite abs_spec, !div_spec, !mul_spec, abs_spec. unfold SF64div, SF64mul.
  rewrite SFabs_div, SFabs_mul, Prim2SF_100.
  rewrite ltb_spec, Prim2SF_0 in P.
  destruct (Prim2SF T) as [s|s| |s m e]; try discriminate;
    destruct s; try discriminate; reflexivity.
Qed.

(** ** Reasoning about methods *)

Section Returns.
Context {A B : Type}.

Lemma returns_ret (a : A) : returns (ret a).
Proof. intros w. exists a. reflexivity. Qed.

Lemma returns_get (proj : World -> A) : returns (get proj).
Proof. intros w. eexists. reflexivity. Qed.

Lemma returns_modify (f : World -> World) : returns (modify f).
Proof. intros w. eexists. reflexivity. Qed.

Lemma returns_bind (m : M A) (k : A -> M B) :
  returns m -> (forall a, returns (k a)) -> returns (bind m k).
Proof.
  intros Hm Hk w. unfold bind. destruct (Hm w) as [a Ha].
  destruct (m w) as [r w']. simpl in Ha. subst r. apply Hk.
Qed.

Lemma returns_try (m handler : M A) : returns handler -> returns (try m handler).
Proof.
  intros Hh w. unfold try. destruct (m w) as [[a|e] w'].
  - exists a. reflexivity.
  - apply Hh.
Qed.

End Returns.

Section Keeps.
Variable R : World -> World -> Prop.
Hypothesis R_refl : forall w, R w w.
Hypothesis R_trans : forall w1 w2 w3, R w1 w2 -> R w2 w3 -> R w1 w3.
Context {A B : Type}.

Lemma keeps_ret (a : A) : keeps R (ret a).
Proof. intros w. apply R_refl. Qed.

Lemma keeps_raise (e : exn) : keeps R (@raise A e).
Proof. intros w. apply R_refl. Qed.

Lemma keeps_lift (r : result A) : keeps R (lift r).
Proof. intros w. apply R_refl. Qed.

Lemma keeps_get (proj : World -> A) : keeps R (get proj).
Proof. intros w. apply R_refl. Qed.

Lemma keeps_modify (f : World -> World) : (forall w, R w (f w)) -> keeps R (modify f).
Proof. intros H w. apply H. Qed.

Lemma keeps_bind (m : M A) (k : A -> M B) :
  keeps R m -> (forall a, keeps R (k a)) -> keeps R (bind m k).
Proof.
  intros Hm Hk w. unfold bind. specialize (Hm w).
  destruct (m w) as [[a|e] w']; simpl in *; [|exact Hm].
  eapply R_trans; [exact Hm|apply Hk].
Qed.

Lemma keeps_try (m handler : M A) :
  keeps R m -> keeps R handler -> keeps R (try m handler).
Proof.
  intros Hm Hh w. unfold try. specialize (Hm w).
  destruct (m w) as [[a|e] w']; simpl in *; [exact Hm|].
  eapply R_trans; [exact Hm|apply Hh].
Qed.

Lemma keeps_bind_lift (r : result A) (k : A -> M B) :
  (forall a, r = Ok a -> keeps R (k a)) -> keeps R (bind (lift r) k).
Proof.
  intros H w. unfold bind, lift. destruct r as [a|e]; [apply (H a eq_refl)|apply R_refl].
Qed.

Lemma keeps_weaken (R' : World -> World -> Prop) (m : M A) :
  (forall w w', R' w w' -> R w w') -> keeps R' m -> keeps R m.
Proof. intros H Hm w. apply H, Hm. Qed.

End Keeps.

Ltac unfold_method :=
  unfold SomfyShade.setDriver_ST, SomfyShade.setDriver_GV1,
    Controller.setDriver_GV1, bind, try, get, modify_shade, modify_parent,
    modify_env, modify, time, lift, ret, raise, set_shade, set_env, set_parent;
  cbn.

(** Closed facts about the example worlds. *)
Ltac by_computation :=
  cbv zeta; vm_compute; repeat split; try reflexivity; try (intro; discriminate).

(** ** The controller, seen from a shade *)

Lemma same_shade_refl (w : World) : same_shade w w.
Proof. repeat split. Qed.

Lemma same_shade_trans (w1 w2 w3 : World) :
  same_shade w1 w2 -> same_shade w2 w3 -> same_shade w1 w3.
Proof.
  unfold same_shade. intros (A1 & B1 & C1) (A2 & B2 & C2).
  repeat split; congruence.
Qed.

Ltac keeps_same_shade :=
  repeat first
    [ apply (keeps_bind _ same_shade_trans); [|intros ?]
    | apply (keeps_try _ same_shade_trans)
    | apply (keeps_ret _ same_shade_refl)
    | apply (keeps_raise _ same_shade_refl)
    | apply (keeps_lift _ same_shade_refl)
    | apply (keeps_get _ same_shade_refl)
    | apply keeps_modify; intros ?; repeat split ].

Lemma setDriver_GV1_same_shade (v : Z) : keeps same_shade (Controller.setDriver_GV1 v).
Proof. unfold Controller.setDriver_GV1, modify_parent. keeps_same_shade. Qed.

Lemma record_call_same_shade (c : SerialCall) : keeps same_shade (record_call c).
Proof. unfold record_call, modify_env. keeps_same_shade. Qed.

Lemma serial_close_same_shade : keeps same_shade serial_close.
Proof.
  intros w. unfold serial_close.
  destruct (closes (env w)) as [|[] rest]; repeat split.
Qed.

Lemma serial_write_same_shade (p : string) : keeps same_shade (serial_write p).
Proof.
  intros w. unfold serial_write.
  destruct (writes (env w)) as [|[] rest]; repeat split.
Qed.

Lemma disconnectSerial_same_shade : keeps same_shade Controller.disconnectSerial.
Proof.
  unfold Controller.disconnectSerial.
  apply (keeps_bind _ same_shade_trans); [apply setDriver_GV1_same_shade|intros _].
  apply (keeps_bind _ same_shade_trans); [keeps_same_shade|intros [h|]].
  - apply (keeps_try _ same_shade_trans); [|keeps_same_shade].
    apply (keeps_bind _ same_shade_trans); [apply serial_close_same_shade|].
    intros _. keeps_same_shade.
  - keeps_same_shade.
Qed.

Lemma serial_open_same_shade (o : OpenOutcome) (rest : list OpenOutcome) :
  keeps same_shade (Controller.serial_open o rest).
Proof.
  unfold Controller.serial_open, modify_env.
  apply (keeps_bind _ same_shade_trans); [keeps_same_shade|intros port].
  apply (keeps_bind _ same_shade_trans); [keeps_same_shade|intros _].
  apply record_call_same_shade.
Qed.

Lemma connect_loop_same_shade (script : list OpenOutcome) :
  forall _tries, keeps same_shade (Controller.connect_loop script _tries).
Proof.
  assert (X : keeps same_shade (Controller.disconnectSerial ;; ret false)).
  { apply (keeps_bind _ same_shade_trans); [apply disconnectSerial_same_shade|].
    intros _. keeps_same_shade. }
  induction script as [|o rest IH]; intros _tries;
    cbn [Controller.connect_loop]; destruct (_tries <=? 1)%nat; try exact X.
  - generalize (2 - _tries)%nat. intros n. induction n as [|n IHn]; [exact X|].
    cbn [Controller.connect_gone].
    apply (keeps_bind _ same_shade_trans);
      [apply serial_open_same_shade|intros _; exact IHn].
  - destruct o;
      (apply (keeps_bind _ same_shade_trans);
       [apply serial_open_same_shade|intros _]);
      try apply IH.
    + unfold Controller.setDriver_GV1, modify_parent. keeps_same_shade.
    + unfold Controller.setDriver_GV1, modify_parent.
      apply (keeps_bind _ same_shade_trans); [keeps_same_shade|intros _].
      apply (keeps_bind _ same_shade_trans); [keeps_same_shade|intros _].
      apply IH.
Qed.

Lemma connectSerial_same_shade : keeps same_shade Controller.connectSerial.
Proof.
  unfold Controller.connectSerial.
  apply (keeps_bind _ same_shade_trans); [keeps_same_shade|intros h].
  destruct (match h with Some s => is_open s | None => false end).
  - unfold Controller.setDriver_GV1, modify_parent. keeps_same_shade.
  - apply (keeps_bind _ same_shade_trans); [keeps_same_shade|intros script].
    apply connect_loop_same_shade.
Qed.

Lemma send_loop_same_shade (command : string) :
  forall remaining, keeps same_shade (Controller.send_loop remaining command).
Proof.
  induction remaining as [|r IH]; simpl.
  - apply (keeps_bind _ same_shade_trans); [apply disconnectSerial_same_shade|].
    intros _. keeps_same_shade.
  - apply (keeps_bind _ same_shade_trans).
    + apply (keeps_try _ same_shade_trans); [|keeps_same_shade].
      apply (keeps_bind _ same_shade_trans); [apply connectSerial_same_shade|].
      intros [|]; [|keeps_same_shade].
      apply (keeps_bind _ same_shade_trans); [apply serial_write_same_shade|].
      intros _. keeps_same_shade.
    + intros [b|]; [keeps_same_shade|exact IH].
Qed.

Lemma command_same_shade (a c : string) : keeps same_shade (Controller.command a c).
Proof.
  unfold Controller.command, Controller._sendURTSCmd.
  apply (keeps_try _ same_shade_trans); [|keeps_same_shade].
  destruct (String.eqb c ""); [keeps_same_shade|].
  apply (keeps_bind _ same_shade_trans); [keeps_same_shade|intros _].
  destruct (String.eqb _ ""); [keeps_same_shade|apply send_loop_same_shade].
Qed.

Lemma command_returns (a c : string) : returns (Controller.command a c).
Proof. apply returns_try, returns_ret. Qed.

(** What the shade sees of a call to the controller's [command]. *)
Lemma command_frame (a c : string) (w : World) :
  exists b w', Controller.command a c w = (Ok b, w') /\ same_shade w w'.
Proof.
  destruct (command_returns a c w) as [b Hb].
  pose proof (command_same_shade a c w) as Hs.
  destruct (Controller.command a c w) as [r w']. simpl in *. subst r.
  exists b, w'. split; [reflexivity|exact Hs].
Qed.

(** ** The serial transport *)

Lemma no_write_between_refl (w : World) : no_write_between w w.
Proof. split; [reflexivity|]. exists []. rewrite app_nil_r. split; reflexivity. Qed.

Lemma no_write_between_trans (w1 w2 w3 : World) :
  no_write_between w1 w2 -> no_write_between w2 w3 -> no_write_between w1 w3.
Proof.
  intros (A & l & B & C) (A' & l' & B' & C'). split; [congruence|].
  exists (l ++ l')%list. rewrite B', B, app_assoc, filter_app, C, C'. split; reflexivity.
Qed.

Ltac keeps_no_write :=
  repeat match goal with
    | |- keeps _ (bind _ _) =>
        apply (keeps_bind _ no_write_between_trans); [|intros ?]
    | |- keeps _ (try _ _) => apply (keeps_try _ no_write_between_trans)
    | |- keeps _ (ret _) => apply (keeps_ret _ no_write_between_refl)
    | |- keeps _ (raise _) => apply (keeps_raise _ no_write_between_refl)
    | |- keeps _ (lift _) => apply (keeps_lift _ no_write_between_refl)
    | |- keeps _ (get _) => apply (keeps_get _ no_write_between_refl)
    | |- keeps _ (if ?c then _ else _) => destruct c
    | |- keeps _ (match ?v with _ => _ end) => destruct v
    | |- keeps _ (modify_parent _) =>
        unfold modify_parent; apply keeps_modify; intros ?;
        split; [reflexivity|]; exists []; rewrite app_nil_r; split; reflexivity
    end.

Lemma serial_close_no_write : keeps no_write_between serial_close.
Proof.
  intros w. unfold serial_close.
  destruct (closes (env w)) as [|[] rest]; (split; [reflexivity|]); cbn;
    eexists; (split; [reflexivity|reflexivity]).
Qed.

Lemma serial_open_no_write (o : OpenOutcome) (rest : list OpenOutcome) :
  keeps no_write_between (Controller.serial_open o rest).
Proof.
  intros w. split; [reflexivity|]. cbn. eexists. split; reflexivity.
Qed.

Lemma disconnectSerial_no_write : keeps no_write_between Controller.disconnectSerial.
Proof.
  unfold Controller.disconnectSerial, Controller.setDriver_GV1.
  keeps_no_write. apply serial_close_no_write.
Qed.

Lemma connect_gone_no_write (n : nat) :
  keeps no_write_between (Controller.connect_gone n).
Proof.
  induction n as [|n IH]; cbn [Controller.connect_gone]; keeps_no_write.
  - apply disconnectSerial_no_write.
  - apply serial_open_no_write.
  - exact IH.
Qed.

Lemma connect_loop_no_write (script : list OpenOutcome) :
  forall _tries, keeps no_write_between (Controller.connect_loop script _tries).
Proof.
  induction script as [|o rest IH]; intros _tries;
    cbn [Controller.connect_loop]; unfold Controller.setDriver_GV1;
    keeps_no_write;
    try apply disconnectSerial_no_write; try apply connect_gone_no_write;
    try apply serial_open_no_write; try apply IH.
Qed.

Lemma connectSerial_no_write : keeps no_write_between Controller.connectSerial.
Proof.
  unfold Controller.connectSerial, Controller.setDriver_GV1. keeps_no_write.
  apply connect_loop_no_write.
Qed.

Lemma disconnectSerial_spec (w : World) :
  exists b w' l,
    Controller.disconnectSerial w = (Ok b, w') /\
    GV1 (parent w') = 0 /\
    calls (env w') = (calls (env w) ++ l)%list /\
    filter is_write l = [] /\
    (link_is_open w' = false \/ l = [CallClose false]).
Proof.
  unfold Controller.disconnectSerial. unfold_method. unfold link_is_open.
  destruct (_ser (parent w)) as [h|] eqn:H.
  - unfold serial_close. cbn. destruct (closes (env w)) as [|[] rest]; cbn;
      do 3 eexists; (split; [reflexivity|]); (split; [reflexivity|]); cbn;
      (split; [reflexivity|]); (split; [reflexivity|]).
    + right. reflexivity.
    + left. reflexivity.
    + right. reflexivity.
  - exists false, (set_parent (with_GV1 0 (parent w)) w), [].
    split; [reflexivity|]. split; [reflexivity|].
    split; [symmetry; apply app_nil_r|]. split; [reflexivity|].
    left. cbn. rewrite H. reflexivity.
Qed.

Lemma connect_exit_connected (w : World) :
  connected (fst ((Controller.disconnectSerial ;; ret false) w))
            (snd ((Controller.disconnectSerial ;; ret false) w)).
Proof.
  destruct (disconnectSerial_spec w) as (b & w' & l & E & G & _).
  unfold bind, ret. rewrite E. exact G.
Qed.

Lemma connect_gone_connected (n : nat) (w : World) :
  connected (fst (Controller.connect_gone n w)) (snd (Controller.connect_gone n w)).
Proof.
  revert w. induction n as [|n IH]; intros w; cbn [Controller.connect_gone].
  - apply connect_exit_connected.
  - unfold bind at 1 2. cbn. apply IH.
Qed.

Lemma connect_loop_connected (script : list OpenOutcome) :
  forall _tries w,
    connected (fst (Controller.connect_loop script _tries w))
              (snd (Controller.connect_loop script _tries w)).
Proof.
  induction script as [|o rest IH]; intros _tries w;
    cbn [Controller.connect_loop]; destruct (_tries <=? 1)%nat;
    try apply connect_exit_connected.
  - apply connect_gone_connected.
  - destruct o; unfold bind at 1 2; cbn.
    + split; reflexivity.
    + apply IH.
    + apply IH.
Qed.

Lemma connectSerial_connected (w : World) :
  connected (fst (Controller.connectSerial w)) (snd (Controller.connectSerial w)).
Proof.
  unfold Controller.connectSerial, bind, get. cbv beta iota.
  destruct (match _ser (parent w) with Some s => is_open s | None => false end) eqn:O.
  - cbn. unfold link_is_open. cbn. split; [exact O|reflexivity].
  - apply connect_loop_connected.
Qed.

(** What [connectSerial] does, for the loop of [_sendURTSCmd]. *)
Lemma connectSerial_spec (w : World) :
  exists b w',
    Controller.connectSerial w = (Ok b, w') /\
    no_write_between w w' /\ connected (Ok b) w'.
Proof.
  pose proof (connectSerial_connected w) as C.
  pose proof (connectSerial_no_write w) as N.
  destruct (Controller.connectSerial w) as [[b|e] w']; cbn in *; [|contradiction].
  exists b, w'. split; [reflexivity|]. split; [exact N|exact C].
Qed.

Lemma serial_write_spec (payload : string) (w : World) :
  exists r w',
    serial_write payload w = (r, w') /\
    parent w' = parent w /\
    match r with
    | Ok _ => calls (env w') = (calls (env w) ++ [CallWrite payload true])%list
    | Raise _ => calls (env w') = (calls (env w) ++ [CallWrite payload false])%list
    end.
Proof.
  unfold serial_write.
  destruct (writes (env w)) as [|[] rest]; cbn; do 2 eexists;
    (split; [reflexivity|]); split; reflexivity.
Qed.

Lemma send_loop_spec (command : string) (remaining : nat) :
  forall w,
  exists b w' l,
    Controller.send_loop remaining command w = (Ok b, w') /\
    calls (env w') = (calls (env w) ++ l)%list /\
    (List.length (filter is_write l) <= remaining)%nat /\
    (b = true ->
     exists l0, l = (l0 ++ [CallWrite command true])%list /\
                filter is_completed_write l0 = []) /\
    (b = false ->
     filter is_completed_write l = [] /\ GV1 (parent w') = 0 /\
     (link_is_open w' = false \/ exists l0, l = (l0 ++ [CallClose false])%list)).
Proof.
  assert (NC : forall l, filter is_write l = [] -> filter is_completed_write l = []).
  { induction l as [|[| ? []|] l IH]; cbn; intros H; try discriminate; auto. }
  induction remaining as [|r IH]; intros w; cbn [Controller.send_loop].
  - destruct (disconnectSerial_spec w) as (b & w' & l & E & G & Cl & Nl & L).
    exists false, w', l. unfold bind, ret. rewrite E.
    split; [reflexivity|]. split; [exact Cl|]. split; [rewrite Nl; cbn; lia|].
    split; [discriminate|]. intros _. split; [apply NC, Nl|]. split; [exact G|].
    destruct L as [L|L]; [left; exact L|right]. exists []. exact L.
  - destruct (connectSerial_spec w) as (c & w1 & E1 & (_ & l1 & C1 & N1) & K).
    unfold bind at 1. unfold try. unfold bind at 1. rewrite E1.
    destruct c.
    + destruct (serial_write_spec command w1) as (o & w2 & E2 & P2 & C2).
      unfold bind at 1. rewrite E2. destruct o as [[]|e].
      * exists true, w2, (l1 ++ [CallWrite command true])%list.
        split; [reflexivity|]. split; [rewrite C2, C1, app_assoc; reflexivity|].
        split; [rewrite filter_app, N1; cbn; lia|].
        split; [|discriminate]. intros _. exists l1. split; [reflexivity|].
        apply NC, N1.
      * destruct (IH w2) as (b & w3 & l3 & E3 & C3 & N3 & T3 & F3).
        cbn [ret]. rewrite E3.
        exists b, w3, (l1 ++ [CallWrite command false] ++ l3)%list.
        split; [reflexivity|].
        split; [rewrite C3, C2, C1, <- !app_assoc; reflexivity|].
        split; [rewrite !filter_app, N1; cbn; lia|].
        split.
        -- intros B. destruct (T3 B) as (l0 & -> & Z0).
           exists (l1 ++ [CallWrite command false] ++ l0)%list.
           split; [rewrite <- !app_assoc; reflexivity|].
           rewrite !filter_app, (NC _ N1), Z0. reflexivity.
        -- intros B. destruct (F3 B) as (Z3 & G3 & L3).
           split; [rewrite !filter_app, (NC _ N1), Z3; reflexivity|].
           split; [exact G3|].
           destruct L3 as [L3|[l0 ->]]; [left; exact L3|right].
           exists (l1 ++ [CallWrite command false] ++ l0)%list.
           rewrite <- !app_assoc. reflexivity.
    + destruct (IH w1) as (b & w3 & l3 & E3 & C3 & N3 & T3 & F3).
      cbn [ret]. rewrite E3.
      exists b, w3, (l1 ++ l3)%list.
      split; [reflexivity|].
      split; [rewrite C3, C1, <- !app_assoc; reflexivity|].
      split; [rewrite !filter_app, N1; cbn; lia|].
      split.
      * intros B. destruct (T3 B) as (l0 & -> & Z0).
        exists (l1 ++ l0)%list.
        split; [rewrite <- !app_assoc; reflexivity|].
        rewrite !filter_app, (NC _ N1), Z0. reflexivity.
      * intros B. destruct (F3 B) as (Z3 & G3 & L3).
        split; [rewrite !filter_app, (NC _ N1), Z3; reflexivity|].
        split; [exact G3|].
        destruct L3 as [L3|[l0 ->]]; [left; exact L3|right].
        exists (l1 ++ l0)%list. rewrite <- !app_assoc. reflexivity.
Qed.

Lemma attempt_spec (payload : string) (w : World) :
  exists ok w1 l,
    attempt payload w = (Ok ok, w1) /\
    calls (env w1) = (calls (env w) ++ l)%list /\
    (List.length (filter is_write l) <= 1)%nat /\
    (ok = true <-> exists l0, l = (l0 ++ [CallWrite payload true])%list).
Proof.
  unfold attempt, try, bind.
  destruct (connectSerial_spec w) as (b & w1 & E & (_ & l1 & C1 & F1) & _). rewrite E.
  destruct b.
  - destruct (serial_write_spec payload w1) as (res & w2 & E2 & _ & C2). rewrite E2.
    destruct res as [[]|e]; cbn.
    + exists true, w2, (l1 ++ [CallWrite payload true])%list.
      split; [reflexivity|]. rewrite C2, C1, <- app_assoc. split; [reflexivity|].
      rewrite filter_app, F1. split; [cbn; lia|].
      split; [intros _; exists l1; reflexivity|reflexivity].
    + exists false, w2, (l1 ++ [CallWrite payload false])%list.
      split; [reflexivity|]. rewrite C2, C1, <- app_assoc. split; [reflexivity|].
      rewrite filter_app, F1. split; [cbn; lia|].
      split; [discriminate|]. intros (l0 & H). apply app_inj_tail in H as [_ H].
      discriminate.
  - cbn. exists false, w1, l1. split; [reflexivity|]. split; [exact C1|].
    rewrite F1. split; [cbn; lia|]. split; [discriminate|].
    intros (l0 & ->). rewrite filter_app in F1. cbn in F1.
    apply app_eq_nil in F1 as [_ F1]. discriminate.
Qed.

(** The loop of [_sendURTSCmd] is: attempt until one succeeds, at most
    [remaining] times; then the forced disconnect. *)
Lemma send_loop_attempts (payload : string) (remaining : nat) :
  forall w,
  exists k wk,
    after_failures payload k w = Some wk /\
    match Controller.send_loop remaining payload w with
    | (Ok true, w') => (k < remaining)%nat /\ attempt payload wk = (Ok true, w')
    | (Ok false, w') =>
        k = remaining /\ exists b, Controller.disconnectSerial wk = (Ok b, w')
    | (Raise _, _) => False
    end.
Proof.
  induction remaining as [|r IH]; intros w; cbn [Controller.send_loop].
  - exists 0%nat, w. split; [reflexivity|].
    destruct (disconnectSerial_spec w) as (b & w' & l & E & _).
    unfold bind. rewrite E. cbn. split; [reflexivity|]. exists b. reflexivity.
  - assert (B : try (connected <- Controller.connectSerial ;;
                     if connected : bool then serial_write payload ;; ret (Some true)
                     else ret None) (ret None) w =
                (match fst (attempt payload w) with
                 | Ok true => Ok (Some true)
                 | Ok false => Ok None
                 | Raise e => Raise e
                 end, snd (attempt payload w))).
    { unfold attempt, try, bind.
      destruct (Controller.connectSerial w) as [[[]|e] w1]; cbn; try reflexivity.
      destruct (serial_write payload w1) as [[[]|e] w2]; reflexivity. }
    unfold bind at 1. rewrite B.
    destruct (attempt_spec payload w) as (ok & w1 & l & E & _). rewrite E.
    cbn [fst snd]. destruct ok.
    + exists 0%nat, w. split; [reflexivity|]. cbn. split; [lia|exact E].
    + destruct (IH w1) as (k & wk & A & M).
      exists (S k), wk. split; [cbn [after_failures]; rewrite E; exact A|].
      destruct (Controller.send_loop r payload w1) as [[[]|e] w'].
      * destruct M as [M1 M2]. split; [lia|exact M2].
      * destruct M as [M1 M2]. split; [lia|exact M2].
      * exact M.
Qed.

(** Claim C9, as the code has it.  [_sendURTSCmd] returns a bool, never an
    exception, and the serial calls it makes include at most three writes.
    It returns [True] exactly when its last call is a write of the payload
    that completed, the first to complete; on [False] no write completed.
    An empty payload is refused at once.  For any other payload it makes
    connect+write attempts, each after the failure of the one before: it
    returns [True] from the first attempt whose write completes, which is
    one of the first three; after three failed attempts, those that did not
    get connected included, and not before, it calls [disconnectSerial] and
    returns [False].  The [GV1] driver is then 0; the port is closed, so
    that the next call reconnects, unless [close()] itself raised: then the
    port is left as it was.  An attempt never raises and makes at most one
    write; it succeeds exactly when its last call is a write of the payload
    that completed. *)
Theorem _sendURTSCmd_bounded_retry (payload : string) (w : World) :
  exists b w' l,
    Controller._sendURTSCmd payload w = (Ok b, w') /\
    calls (env w') = (calls (env w) ++ l)%list /\
    (List.length (filter is_write l) <= 3)%nat /\
    (b = true ->
     exists l0, l = (l0 ++ [CallWrite payload true])%list /\
                filter is_completed_write l0 = []) /\
    (b = false -> filter is_completed_write l = []) /\
    (payload = "" -> b = false /\ w' = w) /\
    (payload <> "" ->
     exists k wk,
       after_failures payload k w = Some wk /\
       if b then (k < 3)%nat /\ attempt payload wk = (Ok true, w')
       else k = 3%nat /\
            (exists closed, Controller.disconnectSerial wk = (Ok closed, w')) /\
            GV1 (parent w') = 0 /\
            (link_is_open w' = true -> exists l0, l = (l0 ++ [CallClose false])%list)) /\
    (forall w0,
     exists ok w1 l1,
       attempt payload w0 = (Ok ok, w1) /\
       calls (env w1) = (calls (env w0) ++ l1)%list /\
       (List.length (filter is_write l1) <= 1)%nat /\
       (ok = true <-> exists l0, l1 = (l0 ++ [CallWrite payload true])%list)).
Proof.
  unfold Controller._sendURTSCmd. destruct (String.eqb payload "") eqn:E.
  - apply String.eqb_eq in E. exists false, w, []. split; [reflexivity|].
    split; [symmetry; apply app_nil_r|]. split; [cbn; lia|].
    split; [discriminate|]. split; [reflexivity|].
    split; [intros _; split; reflexivity|].
    split; [intros X; contradiction|]. intros w0. apply attempt_spec.
  - apply String.eqb_neq in E.
    destruct (send_loop_spec payload 3 w) as (b & w' & l & E1 & C & N & T & F).
    destruct (send_loop_attempts payload 3 w) as (k & wk & A & M). rewrite E1 in M.
    exists b, w', l. split; [exact E1|]. split; [exact C|]. split; [exact N|].
    split; [exact T|]. split; [intros B; apply (F B)|].
    split; [intros X; contradiction|].
    split; [|intros w0; apply attempt_spec].
    intros _. exists k, wk. split; [exact A|]. destruct b; [exact M|].
    destruct M as (-> & M). split; [reflexivity|]. split; [exact M|].
    destruct (F eq_refl) as (_ & G & L). split; [exact G|].
    intros O. destruct L as [L|L]; [congruence|exact L].
Qed.

(** Scenario 5 of the specification: one open, three writes that fail, then
    the forced close; the link is reported down. *)
Example three_failed_writes :
  let r := Controller._sendURTSCmd ("0105U" ++ Controller.CR) failing_device in
  fst r = Ok false /\
  GV1 (parent (snd r)) = 0 /\ link_is_open (snd r) = false /\
  calls (env (snd r)) =
    [CallOpen "/dev/ttyUSB0" false Opened;
     CallWrite ("0105U" ++ Controller.CR) false;
     CallWrite ("0105U" ++ Controller.CR) false;
     CallWrite ("0105U" ++ Controller.CR) false;
     CallClose true].
Proof. vm_compute. repeat split. Qed.

(** Claim C9 as stated fails where it has the forced disconnect leave the
    link for a clean reconnect: on this device the three writes fail and
    [close()] raises.  The send returns [False] with the [GV1] driver 0, but
    the port is still open, and the next send writes on it without opening
    it again. *)
Lemma forced_disconnect_can_fail :
  let frame := "0105U" ++ Controller.CR in
  let first := Controller._sendURTSCmd frame stuck_device in
  let second := Controller._sendURTSCmd frame (snd first) in
  fst first = Ok false /\
  GV1 (parent (snd first)) = 0 /\
  link_is_open (snd first) = true /\
  calls (env (snd first)) =
    [CallOpen "/dev/ttyUSB0" false Opened;
     CallWrite frame false; CallWrite frame false; CallWrite frame false;
     CallClose false] /\
  fst second = Ok true /\
  calls (env (snd second)) = (calls (env (snd first)) ++ [CallWrite frame true])%list.
Proof. cbv zeta. vm_compute. repeat split. Qed.

(** The frame on the wire: with the port open and a device that completes
    the write, [command] writes the address without its first three
    characters and its underscores, the command, and a carriage return. *)
Lemma command_writes_frame (a c : string) (w : World) (rest : list bool) :
  link_is_open w = true -> writes (env w) = true :: rest ->
  c <> "" -> is_ok (int_of_str (lstrip_char "0" (slice_to 2 a))) = true ->
  exists w',
    Controller.command a c w = (Ok true, w') /\
    calls (env w') =
      (calls (env w) ++ [CallWrite (remove_char "_" (slice_from 3 a) ++ c ++ Controller.CR) true])%list /\
    writes (env w') = rest.
Proof.
  intros L W C A. unfold Controller.command, try, bind, lift.
  apply String.eqb_neq in C. rewrite C. cbn [int_of].
  destruct (int_of_str _) as [n|e]; [clear A|discriminate].
  unfold Controller._sendURTSCmd.
  replace (String.eqb _ "") with false.
  2:{ symmetry. apply String.eqb_neq. intros H.
      destruct (remove_char "_" (slice_from 3 a)); [|discriminate].
      destruct c; [discriminate|discriminate]. }
  cbn [Controller.send_loop]. unfold bind, try, Controller.connectSerial, bind, get.
  unfold link_is_open in L. rewrite L.
  unfold Controller.setDriver_GV1, modify_parent, modify, ret. cbn.
  unfold serial_write. cbn. rewrite W. cbn.
  eexists. split; [reflexivity|]. split; reflexivity.
Qed.

(** ** Position finalization *)

(** What [_updatePosition] computes on a shade whose travel time is a number
    and whose position is an estimate: it returns [True]; after a full travel
    time the estimate snaps to the boundary of the last command; within it,
    a known estimate moves by [elapsed / travelTime * 100] in the direction
    of the last command, clamped and truncated; otherwise it stays. *)
Lemma updatePosition_spec (w : World) :
  well_formed w ->
  let s := shade w in
  let T := travelTime s in
  let td := elapsed w in
  exists p',
    SomfyShade._updatePosition w = (Ok true, finalized w p') /\
    (p' = position s \/ 0 <= p' <= 100) /\
    ((T <=? td)%float = true ->
       p' = if String.eqb (lastCmd s) "U" then 100
            else if String.eqb (lastCmd s) "D" then 0 else position s) /\
    ((T <=? td)%float = false -> (0 <? td)%float = true -> 0 <= position s ->
       (lastCmd s = "U" ->
          int_of_float (clamp (nearest_float (position s) + td / T * 100)) = Ok p') /\
       (lastCmd s = "D" ->
          int_of_float (clamp (nearest_float (position s) - td / T * 100)) = Ok p') /\
       (lastCmd s <> "U" -> lastCmd s <> "D" -> p' = position s)) /\
    ((T <=? td)%float = false -> (0 <? td)%float = false \/ position s < 0 ->
       p' = position s).
Proof.
  intros [N R]. cbv zeta. unfold SomfyShade._updatePosition, finalized, elapsed.
  unfold_method.
  set (s := shade w). set (T := travelTime s).
  set (td := Py.max (clock (env w) (ticks (env w)) - lastCmdTime s) 0).
  fold s T in N, R.
  destruct (T <=? td)%float eqn:L.
  - exists (if String.eqb (lastCmd s) "U" then 100
            else if String.eqb (lastCmd s) "D" then 0 else position s).
    split; [|split; [|split; [|split]]]; try discriminate; try reflexivity.
    + destruct (String.eqb (lastCmd s) "U"); [reflexivity|].
      destruct (String.eqb (lastCmd s) "D"); [reflexivity|].
      cbn. destruct (0 <=? position s)%Z; reflexivity.
    + destruct (String.eqb (lastCmd s) "U"); [lia|].
      destruct (String.eqb (lastCmd s) "D"); [lia|]. left. reflexivity.
  - destruct (0 <? td)%float eqn:P; [destruct (0 <=? position s)%Z eqn:Z0|]; cbn.
    + apply Z.leb_le in Z0.
      destruct (float_of_percent (position s) ltac:(lia)) as [Fp Np].
      pose proof (partial_travel_signed td T N L P) as St.
      unfold truediv. rewrite (no_zero_division td T L P).
      destruct (String.eqb (lastCmd s) "U") eqn:U;
        [|destruct (String.eqb (lastCmd s) "D") eqn:D].
      * rewrite Fp.
        destruct (int_of_clamp_ok (nearest_float (position s) + td / T * 100))
          as (v & Hv & Rv).
        { rewrite add_spec. apply SFadd_not_nan; assumption. }
        unfold clamp in Hv. rewrite Hv. exists v. cbn.
        replace (0 <=? v)%Z with true by (symmetry; apply Z.leb_le; lia).
        split; [reflexivity|]. split; [right; exact Rv|].
        split; [discriminate|]. split; [|intros _ [?|?]; [discriminate|lia]].
        intros _ _ _. apply String.eqb_eq in U. 
        split; [intros _; exact Hv|]. split; [rewrite U; discriminate|].
        intros X; contradiction.
      * rewrite Fp.
        destruct (int_of_clamp_ok (nearest_float (position s) - td / T * 100))
          as (v & Hv & Rv).
        { rewrite sub_spec. apply SFsub_not_nan; assumption. }
        unfold clamp in Hv. rewrite Hv. exists v. cbn.
        replace (0 <=? v)%Z with true by (symmetry; apply Z.leb_le; lia).
        split; [reflexivity|]. split; [right; exact Rv|].
        split; [discriminate|]. split; [|intros _ [?|?]; [discriminate|lia]].
        intros _ _ _. apply String.eqb_eq in D. apply String.eqb_neq in U.
        split; [intros X; contradiction|]. split; [intros _; exact Hv|].
        intros _ X; contradiction.
      * exists (position s). cbn.
        replace (0 <=? position s)%Z with true
          by (symmetry; apply Z.leb_le; exact Z0).
        split; [reflexivity|]. split; [left; reflexivity|].
        split; [discriminate|]. split; [|reflexivity].
        intros _ _ _. apply String.eqb_neq in U, D.
        split; [intros X; contradiction|]. split; [intros X; contradiction|].
        reflexivity.
    + exists (position s). fold s. rewrite Z0.
      split; [reflexivity|]. split; [left; reflexivity|].
      split; [discriminate|]. split; [|reflexivity].
      apply Z.leb_gt in Z0. intros; lia.
    + exists (position s). fold s.
      split; [destruct (0 <=? position s)%Z; reflexivity|].
      split; [left; reflexivity|].
      split; [discriminate|]. split; [discriminate|reflexivity].
Qed.

Lemma finalized_range (w : World) (p : Z) :
  well_formed w -> p = position (shade w) \/ 0 <= p <= 100 -> -1 <= p <= 100.
Proof. intros [_ R] [->|H]; lia. Qed.

Lemma well_formed_finalized (w : World) (p : Z) :
  well_formed w -> p = position (shade w) \/ 0 <= p <= 100 ->
  well_formed (finalized w p).
Proof.
  intros WF H. split; [exact (proj1 WF)|].
  exact (finalized_range w p WF H).
Qed.

(** With no motor command pending, finalization leaves the estimate alone. *)
Lemma finalized_idle (w : World) (p : Z) :
  well_formed w -> lastCmd (shade w) = "" ->
  SomfyShade._updatePosition w = (Ok true, finalized w p) ->
  p = position (shade w).
Proof.
  intros WF Idle E. destruct (updatePosition_spec w WF) as (q & E' & _ & A & B & C).
  rewrite E in E'.
  assert (Q : q = p)
    by (apply (f_equal (fun r => position (shade (snd r)))) in E'; symmetry;
        exact E').
  subst q. cbv zeta in A, B, C. rewrite Idle in *.
  destruct (travelTime (shade w) <=? elapsed w)%float.
  - exact (A eq_refl).
  - destruct (0 <? elapsed w)%float;
      [destruct (Z.le_gt_cases 0 (position (shade w))) as [Hp|Hp]|].
    + apply (B eq_refl eq_refl Hp); discriminate.
    + apply (C eq_refl). right. lia.
    + apply (C eq_refl). left. reflexivity.
Qed.

(** Claim C5.  On a shade whose travel time is a number and whose position
    is an estimate, [_updatePosition] returns [True] in a world where
    [lastCmd] is empty and [lastCmdTime] is the clock's reading at the end of
    the call; a second call returns [True] as well and leaves the position as
    the first one set it, whatever the clock reads by then. *)
Theorem _updatePosition_idempotent (w : World) :
  well_formed w ->
  exists w1 w2,
    SomfyShade._updatePosition w = (Ok true, w1) /\
    lastCmd (shade w1) = "" /\
    lastCmdTime (shade w1) = clock (env w) (S (ticks (env w))) /\
    SomfyShade._updatePosition w1 = (Ok true, w2) /\
    position (shade w2) = position (shade w1).
Proof.
  intros WF. destruct (updatePosition_spec w WF) as (p & E1 & Rp & _).
  pose proof (well_formed_finalized w p WF Rp) as WF1.
  destruct (updatePosition_spec (finalized w p) WF1) as (q & E2 & _ & A & B & C).
  exists (finalized w p), (finalized (finalized w p) q).
  split; [exact E1|]. split; [reflexivity|]. split; [reflexivity|].
  split; [exact E2|]. change (q = p). cbv zeta in A, B, C.
  change (lastCmd (shade (finalized w p))) with "" in *.
  change (position (shade (finalized w p))) with p in *.
  destruct (travelTime (shade (finalized w p)) <=? elapsed (finalized w p))%float.
  - exact (A eq_refl).
  - destruct (0 <? elapsed (finalized w p))%float;
      [destruct (Z.le_gt_cases 0 p) as [Hp|Hp]|].
    + apply (B eq_refl eq_refl Hp); discriminate.
    + apply (C eq_refl). right. lia.
    + apply (C eq_refl). left. reflexivity.
Qed.

(** Moving up from 30 for 5 of the 10 seconds of travel: the first
    finalization gives 80, and a second one 3 seconds later still 80. *)
Lemma _updatePosition_idempotent_example :
  let w := example 30 10 "U" 995 [1000; 1000; 1003; 1003] in
  exists w1 w2,
    SomfyShade._updatePosition w = (Ok true, w1) /\
    SomfyShade._updatePosition w1 = (Ok true, w2) /\
    position (shade w1) = 80 /\ position (shade w2) = 80.
Proof.
  cbv zeta. set (w := example 30 10 "U" 995 [1000; 1000; 1003; 1003]).
  destruct (_updatePosition_idempotent w ltac:(by_computation))
    as (w1 & w2 & E1 & _ & _ & E2 & P).
  assert (W : w1 = snd (SomfyShade._updatePosition w))
    by (rewrite E1; reflexivity).
  exists w1, w2. split; [exact E1|]. split; [exact E2|].
  rewrite P. split; rewrite W; by_computation.
Defined.

(** Claim C4 fails on the code.  A fresh shade is opened fully ([DON]) and
    its timer expires; [SET_TRAVEL_TIME] is then given [nan], which the range
    test lets through (claim C7); the shade is nudged down ([DIM]).  In that
    world the estimate is 100, the last command is [D] and the travel time is
    a NaN, and [_updatePosition] raises [ValueError] (from [int(nan)]), as
    does the [STOP] command that calls it. *)
Theorem _updatePosition_raises_on_nan :
  let w := run [DON PyNone; TimerExpires; SET_TRAVEL_TIME (PyStr "nan"); DIM]
             (fresh [1000; 1000; 1000; 1008; 1008; 1020; 1020; 1020; 1021]) in
  position (shade w) = 100 /\ lastCmd (shade w) = "D" /\
  (travelTime (shade w) =? travelTime (shade w))%float = false /\
  fst (SomfyShade._updatePosition w) = Raise ValueError /\
  fst (SomfyShade.stop w) = Raise ValueError.
Proof. cbv zeta. repeat split; vm_compute; reflexivity. Qed.

(** ** Moving a shade *)

Lemma _command_spec (timeSP : float) (c : ascii) (rest : string) (nextCmd : value)
    (w : World) :
  exists b w2,
    Controller.command (address (shade w)) (String c "") w = (Ok b, w2) /\
    same_shade w w2 /\
    SomfyShade._command timeSP (String c rest) nextCmd w =
      (Ok true, commanded w w2 timeSP (String c "") nextCmd).
Proof.
  destruct (command_frame (address (shade w)) (String c "") w)
    as (b & w2 & E & S).
  exists b, w2. split; [exact E|]. split; [exact S|].
  unfold SomfyShade._command, commanded, follow_up. unfold_method. rewrite E.
  destruct S as (S1 & S2 & S3). cbn. rewrite S1, S2, S3. reflexivity.
Qed.

Lemma _travelTimeReqd_spec (positionSP : Z) (w : World) :
  let s := shade w in
  exists d,
    SomfyShade._travelTimeReqd positionSP w = (Ok d, w) /\
    (position s = -1 -> d = travelTime s) /\
    (-100 <= positionSP - position s <= 100 -> position s <> -1 ->
     d = abs (travelTime s * nearest_float (positionSP - position s) / 100)).
Proof.
  cbv zeta. unfold SomfyShade._travelTimeReqd. unfold_method.
  destruct (position (shade w) =? -1)%Z eqn:U.
  - apply Z.eqb_eq in U. eexists. split; [reflexivity|]. split; [reflexivity|].
    intros _ X; contradiction.
  - apply Z.eqb_neq in U.
    destruct (float_of_int (positionSP - position (shade w))) as [f|e] eqn:F; cbn.
    + eexists. split; [reflexivity|]. split; [intros X; contradiction|].
      intros H _. apply float_of_distance in H as [H _].
      rewrite H in F. injection F as <-. reflexivity.
    + eexists. split; [reflexivity|]. split; [intros X; contradiction|].
      intros H _. apply float_of_distance in H as [H _]. congruence.
Qed.

Lemma setShadePosition_spec (t p : Z) (w : World) :
  let w1 := finalized w p in
  let T := travelTime (shade w) in
  SomfyShade._updatePosition w = (Ok true, w1) ->
  exists d b w2,
    Controller.command (address (shade w)) (direction p t) w1 = (Ok b, w2) /\
    same_shade w1 w2 /\
    SomfyShade.setShadePosition t w =
      (Ok true, commanded w1 w2 d (direction p t) (next_command p t)) /\
    (p = -1 -> d = T) /\
    (-100 <= t - p <= 100 -> p <> -1 -> d = abs (T * nearest_float (t - p) / 100)).
Proof.
  cbv zeta. intros E1.
  destruct (_travelTimeReqd_spec t (finalized w p)) as (d & E2 & D1 & D2).
  exists d.
  unfold SomfyShade.setShadePosition, bind, get. rewrite E1.
  unfold direction, next_command.
  change (position (shade (finalized w p))) with p in *.
  change (travelTime (shade (finalized w p))) with (travelTime (shade w)) in *.
  change (address (shade w)) with (address (shade (finalized w p))).
  destruct (t <=? 0); [|destruct (100 <=? t); [|destruct (p =? -1); [|destruct (p <? t)]]];
    rewrite E2; cbn [orb];
    match goal with |- context [SomfyShade._command d (String ?c ?r) ?n ?w1] =>
      destruct (_command_spec d c r n w1) as (b & w2 & E3 & S & E4)
    end;
    exists b, w2; rewrite E4; repeat (split; [solve [auto]|]); auto.
Qed.

Lemma _stop_spec (w : World) :
  well_formed w ->
  exists b w2 p,
    Controller.command (address (shade w)) "S" w = (Ok b, w2) /\
    same_shade w w2 /\
    SomfyShade._stop w = (Ok b, finalized w2 p).
Proof.
  intros WF.
  destruct (command_frame (address (shade w)) "S" w) as (b & w2 & E & S).
  assert (WF2 : well_formed w2).
  { destruct S as (S1 & _). unfold well_formed. rewrite S1. exact WF. }
  destruct (updatePosition_spec w2 WF2) as (p & E2 & _).
  exists b, w2, p. split; [exact E|]. split; [exact S|].
  unfold SomfyShade._stop, bind, get, ret. rewrite E, E2. reflexivity.
Qed.

Lemma follow_up_S : follow_up (PyStr "S") = Stop.
Proof. reflexivity. Qed.

Lemma follow_up_empty : follow_up (PyStr "") = UpdatePosition.
Proof. vm_compute. reflexivity. Qed.

Lemma follow_up_percent (t : Z) :
  0 < t < 100 -> follow_up (PyInt t) = SetShadePosition (PyInt t).
Proof.
  intros H. unfold follow_up, SomfyShade._isNumeric. cbn.
  destruct (float_of_distance t ltac:(lia)) as [E _]. rewrite E. reflexivity.
Qed.

Lemma expire_Stop (w : World) (d : float) :
  well_formed w -> timer (shade w) = mkTimer d Stop true false ->
  exists w', SomfyShade.expire w = (Ok tt, w') /\ sent "S" w w'.
Proof.
  intros WF Ht. destruct (_stop_spec w WF) as (b & w2 & p & E & S & E').
  exists (finalized w2 p). unfold SomfyShade.expire, bind, get, ret, sent.
  rewrite Ht. cbn [started finished function andb negb fst snd].
  rewrite E'. cbn [snd]. rewrite E. split; reflexivity.
Qed.

(** Claim C1.  Take a shade with a travel time [T > 0] whose estimate [p], once
    [setShadePosition] has finalized the move in flight, is known (with no
    move in flight, [p] is the position the shade had), and a target
    [0 < t < 100] other than [p].  Then [setShadePosition t] returns [True];
    it hands [U] to the controller when [t > p] and [D] when [t < p]; it arms
    a started timer of [T * |t - p| / 100] seconds (binary64 arithmetic: the
    value of the code's [abs(T * (t - p) / 100.)]); and the expiry of that
    timer returns after handing [S] to the controller. *)
Theorem setShadePosition_known (t : Z) (w : World) :
  let T := travelTime (shade w) in
  let w1 := snd (SomfyShade._updatePosition w) in
  let p := position (shade w1) in
  (0 <? T)%float = true -> -1 <= position (shade w) <= 100 ->
  0 <= p <= 100 -> 0 < t < 100 -> t <> p ->
  (lastCmd (shade w) = "" -> p = position (shade w)) /\
  exists w',
    SomfyShade.setShadePosition t w = (Ok true, w') /\
    sent (if p <? t then "U" else "D") w1 w' /\
    lastCmd (shade w') = (if p <? t then "U" else "D") /\
    timer (shade w') =
      mkTimer (T * nearest_float (Z.abs (t - p)) / 100) Stop true false /\
    exists w'', SomfyShade.expire w' = (Ok tt, w'') /\ sent "S" w' w''.
Proof.
  cbv zeta. intros HT Hpos.
  assert (WF : well_formed w) by (split; [apply positive_not_nan, HT|exact Hpos]).
  destruct (updatePosition_spec w WF) as (p & E1 & Rp & _). rewrite E1.
  change (position (shade (snd (Ok true, finalized w p)))) with p.
  cbn [snd]. intros Hp Ht Hne.
  split; [intros Idle; exact (finalized_idle w p WF Idle E1)|].
  destruct (setShadePosition_spec t p w E1) as (d & b & w2 & E2 & S & E3 & _ & D).
  specialize (D ltac:(lia) ltac:(lia)).
  rewrite required_seconds in D by (exact HT || lia). subst d.
  assert (Dir : direction p t = if p <? t then "U" else "D").
  { unfold direction.
    replace (t <=? 0) with false by (symmetry; apply Z.leb_gt; lia).
    replace (100 <=? t) with false by (symmetry; apply Z.leb_gt; lia).
    replace (p =? -1) with false by (symmetry; apply Z.eqb_neq; lia).
    reflexivity. }
  assert (Nx : next_command p t = PyStr "S").
  { unfold next_command.
    replace (t <=? 0) with false by (symmetry; apply Z.leb_gt; lia).
    replace (100 <=? t) with false by (symmetry; apply Z.leb_gt; lia).
    replace (p =? -1) with false by (symmetry; apply Z.eqb_neq; lia).
    reflexivity. }
  rewrite Dir, Nx in *. eexists. split; [exact E3|].
  split; [unfold sent;
          change (address (shade (finalized w p))) with (address (shade w));
          rewrite E2; reflexivity|].
  split; [reflexivity|]. split; [reflexivity|].
  eapply expire_Stop; [|reflexivity].
  split; [exact (proj1 WF)|cbn; lia].
Qed.

(** Scenario 2 of the specification, on the wire: at 30 percent with a travel
    time of 10 seconds, [setShadePosition 80] writes the frame [0105U],
    arms a 5 second timer, and the expiry 5 seconds later writes [0105S] and
    leaves the estimate at 80. *)
Lemma setShadePosition_known_example :
  let w := example 30 10 "" 0 [1000; 1000; 1000; 1005; 1005] in
  exists w1 w2,
    SomfyShade.setShadePosition 80 w = (Ok true, w1) /\
    calls (env w1) = [CallWrite ("0105U" ++ Controller.CR) true] /\
    timer (shade w1) = mkTimer 5 Stop true false /\
    SomfyShade.expire w1 = (Ok tt, w2) /\
    calls (env w2) = [CallWrite ("0105U" ++ Controller.CR) true;
                      CallWrite ("0105S" ++ Controller.CR) true] /\
    position (shade w2) = 80.
Proof.
  cbv zeta. set (w := example 30 10 "" 0 [1000; 1000; 1000; 1005; 1005]).
  destruct (setShadePosition_known 80 w
              ltac:(by_computation) ltac:(by_computation) ltac:(by_computation)
              ltac:(by_computation) ltac:(by_computation))
    as (_ & w1 & E & _ & _ & T & w2 & X & _).
  assert (W1 : w1 = snd (SomfyShade.setShadePosition 80 w))
    by (rewrite E; reflexivity).
  assert (W2 : w2 = snd (SomfyShade.expire w1)) by (rewrite X; reflexivity).
  exists w1, w2. split; [exact E|]. split; [rewrite W1; by_computation|].
  split; [rewrite T; by_computation|]. split; [exact X|].
  rewrite W2, W1. by_computation.
Defined.

(** Claim C3.  Take a shade with a travel time [T > 0] whose estimate is
    still unknown once [setShadePosition] has finalized (with no move in
    flight: a shade whose position is [-1]), and a target [0 < t < 100].
    Then [setShadePosition t] returns [True], hands [D] to the controller
    and arms a started timer of [T] seconds whose expiry is
    [setShadePosition t] again.  When the clock at that expiry reads [T]
    seconds or more after the command, the second call first sets the
    estimate to 0, then hands [U] to the controller and arms a timer of
    [T * t / 100] seconds that stops the motor. *)
Theorem setShadePosition_unknown (t : Z) (w : World) :
  let T := travelTime (shade w) in
  let w1 := snd (SomfyShade._updatePosition w) in
  (0 <? T)%float = true -> -1 <= position (shade w) <= 100 ->
  position (shade w1) = -1 -> 0 < t < 100 ->
  (lastCmd (shade w) = "" -> position (shade w) = -1) /\
  exists w',
    SomfyShade.setShadePosition t w = (Ok true, w') /\
    sent "D" w1 w' /\
    lastCmd (shade w') = "D" /\
    timer (shade w') = mkTimer T (SetShadePosition (PyInt t)) true false /\
    SomfyShade.expire w' =
      (let (r, w'') := SomfyShade.setShadePosition t w' in
       (match r with Ok _ => Ok tt | Raise e => Raise e end, w'')) /\
    ((T <=? elapsed w')%float = true ->
     let w2 := snd (SomfyShade._updatePosition w') in
     position (shade w2) = 0 /\
     exists w'',
       SomfyShade.expire w' = (Ok tt, w'') /\
       sent "U" w2 w'' /\
       lastCmd (shade w'') = "U" /\
       timer (shade w'') = mkTimer (T * nearest_float t / 100) Stop true false).
Proof.
  cbv zeta. intros HT Hpos.
  assert (WF : well_formed w) by (split; [apply positive_not_nan, HT|exact Hpos]).
  destruct (updatePosition_spec w WF) as (p & E1 & Rp & _). rewrite E1.
  change (position (shade (snd (Ok true, finalized w p)))) with p. cbn [snd].
  intros -> Ht.
  split; [intros Idle; symmetry; exact (finalized_idle w (-1) WF Idle E1)|].
  destruct (setShadePosition_spec t (-1) w E1)
    as (d & b & w2 & E2 & S & E3 & D & _).
  specialize (D eq_refl). subst d.
  assert (Dir : direction (-1) t = "D").
  { unfold direction.
    replace (t <=? 0) with false by (symmetry; apply Z.leb_gt; lia).
    replace (100 <=? t) with false by (symmetry; apply Z.leb_gt; lia).
    reflexivity. }
  assert (Nx : next_command (-1) t = PyInt t).
  { unfold next_command.
    replace (t <=? 0) with false by (symmetry; apply Z.leb_gt; lia).
    replace (100 <=? t) with false by (symmetry; apply Z.leb_gt; lia).
    reflexivity. }
  rewrite Dir, Nx in *.
  set (w' := commanded (finalized w (-1)) w2 (travelTime (shade w)) "D" (PyInt t)) in *.
  assert (Tm : timer (shade w') =
               mkTimer (travelTime (shade w)) (SetShadePosition (PyInt t)) true false).
  { change (timer (shade w'))
      with (mkTimer (travelTime (shade w)) (follow_up (PyInt t)) true false).
    rewrite (follow_up_percent t Ht). reflexivity. }
  exists w'. split; [exact E3|].
  split; [unfold sent;
          change (address (shade (finalized w (-1)))) with (address (shade w));
          rewrite E2; reflexivity|].
  split; [reflexivity|]. split; [exact Tm|].
  assert (Ex : SomfyShade.expire w' =
      (let (r, w'') := SomfyShade.setShadePosition t w' in
       (match r with Ok _ => Ok tt | Raise e => Raise e end, w''))).
  { unfold SomfyShade.expire, bind, get, ret. rewrite Tm.
    cbn [started finished function andb negb].
    destruct (SomfyShade.setShadePosition t w') as [[r|e] w'']; reflexivity. }
  split; [exact Ex|]. intros El.
  assert (WF' : well_formed w') by (split; [exact (proj1 WF)|cbn; lia]).
  destruct (updatePosition_spec w' WF') as (p' & E1' & _ & Snap & _).
  specialize (Snap El). change (lastCmd (shade w')) with "D" in Snap.
  cbn in Snap. subst p'. rewrite E1'. cbn [snd]. split; [reflexivity|].
  destruct (setShadePosition_spec t 0 w' E1')
    as (d' & b' & w2' & E2' & S' & E3' & _ & D').
  specialize (D' ltac:(lia) ltac:(lia)).
  rewrite required_seconds in D' by (exact HT || lia).
  replace (Z.abs (t - 0)) with t in D' by lia.
  change (travelTime (shade w')) with (travelTime (shade w)) in D'. subst d'.
  assert (Dir' : direction 0 t = "U").
  { unfold direction.
    replace (t <=? 0) with false by (symmetry; apply Z.leb_gt; lia).
    replace (100 <=? t) with false by (symmetry; apply Z.leb_gt; lia).
    replace (0 <? t) with true by (symmetry; apply Z.ltb_lt; lia).
    reflexivity. }
  assert (Nx' : next_command 0 t = PyStr "S").
  { unfold next_command.
    replace (t <=? 0) with false by (symmetry; apply Z.leb_gt; lia).
    replace (100 <=? t) with false by (symmetry; apply Z.leb_gt; lia).
    reflexivity. }
  rewrite Dir', Nx' in *. eexists. rewrite Ex, E3'.
  split; [reflexivity|].
  split; [unfold sent;
          change (address (shade (finalized w' 0))) with (address (shade w'));
          rewrite E2'; reflexivity|].
  split; reflexivity.
Qed.

(** Scenario 1 of the specification: unknown position, travel time 8
    seconds, [setShadePosition 50].  Down for 8 seconds, then up for 4
    seconds, then stop: the estimate ends at 50. *)
Lemma setShadePosition_unknown_example :
  let w := example (-1) 8 "" 0 [1000; 1000; 1000; 1008; 1008; 1008; 1012; 1012] in
  exists w1 w2 w3,
    SomfyShade.setShadePosition 50 w = (Ok true, w1) /\
    timer (shade w1) = mkTimer 8 (SetShadePosition (PyInt 50)) true false /\
    SomfyShade.expire w1 = (Ok tt, w2) /\
    timer (shade w2) = mkTimer 4 Stop true false /\
    SomfyShade.expire w2 = (Ok tt, w3) /\
    position (shade w3) = 50 /\
    calls (env w3) = [CallWrite ("0105D" ++ Controller.CR) true;
                      CallWrite ("0105U" ++ Controller.CR) true;
                      CallWrite ("0105S" ++ Controller.CR) true].
Proof.
  cbv zeta.
  set (w := example (-1) 8 "" 0 [1000; 1000; 1000; 1008; 1008; 1008; 1012; 1012]).
  destruct (setShadePosition_unknown 50 w
              ltac:(by_computation) ltac:(by_computation) ltac:(by_computation)
              ltac:(by_computation))
    as (_ & w1 & E & _ & _ & T & _ & S).
  assert (W1 : w1 = snd (SomfyShade.setShadePosition 50 w))
    by (rewrite E; reflexivity).
  destruct S as (_ & w2 & X & _ & _ & T'); [rewrite W1; by_computation|].
  assert (W2 : w2 = snd (SomfyShade.expire w1)) by (rewrite X; reflexivity).
  exists w1, w2, (snd (SomfyShade.expire w2)).
  split; [exact E|]. split; [exact T|]. split; [exact X|].
  split; [rewrite T'; by_computation|].
  rewrite W2, W1. by_computation.
Defined.

(** Claim C2, as the code has it.  A move to a boundary (target 0 or 100)
    of a shade with travel time [T > 0] returns [True], hands [D] (for 0) or
    [U] (for 100) to the controller and arms a timer that only finalizes the
    estimate.  The timer runs for the full travel time when the estimate is
    unknown after finalization; when the estimate [p] is known it runs for
    [T * |t - p| / 100] seconds, as for any other target. *)
Theorem boundary_move_duration (t : Z) (w : World) :
  let T := travelTime (shade w) in
  let w1 := snd (SomfyShade._updatePosition w) in
  let p := position (shade w1) in
  (0 <? T)%float = true -> -1 <= position (shade w) <= 100 ->
  t = 0 \/ t = 100 ->
  exists w',
    SomfyShade.setShadePosition t w = (Ok true, w') /\
    sent (if t =? 0 then "D" else "U") w1 w' /\
    function (timer (shade w')) = UpdatePosition /\
    (p = -1 -> interval (timer (shade w')) = T) /\
    (p <> -1 ->
     interval (timer (shade w')) = (T * nearest_float (Z.abs (t - p)) / 100)%float).
Proof.
  cbv zeta. intros HT Hpos Ht.
  assert (WF : well_formed w) by (split; [apply positive_not_nan, HT|exact Hpos]).
  destruct (updatePosition_spec w WF) as (p & E1 & Rp & _). rewrite E1.
  change (position (shade (snd (Ok true, finalized w p)))) with p. cbn [snd].
  pose proof (finalized_range w p WF Rp) as Hp.
  destruct (setShadePosition_spec t p w E1) as (d & b & w2 & E2 & S & E3 & D1 & D2).
  assert (Dir : direction p t = if t =? 0 then "D" else "U")
    by (destruct Ht; subst t; reflexivity).
  assert (Nx : next_command p t = PyStr "")
    by (destruct Ht; subst t; reflexivity).
  rewrite Dir, Nx in *. eexists. split; [exact E3|].
  split; [unfold sent;
          change (address (shade (finalized w p))) with (address (shade w));
          rewrite E2; reflexivity|].
  split; [exact follow_up_empty|]. split; [exact D1|].
  intros Hn. cbn. rewrite D2 by lia. apply required_seconds; [exact HT|lia].
Qed.

(** At 30 percent with a travel time of 10 seconds, a move to 0 writes
    [0105D] and arms a 3 second timer that only finalizes. *)
Lemma boundary_move_duration_example :
  let w := example 30 10 "" 0 [1000; 1000; 1000] in
  exists w',
    SomfyShade.setShadePosition 0 w = (Ok true, w') /\
    calls (env w') = [CallWrite ("0105D" ++ Controller.CR) true] /\
    timer (shade w') = mkTimer 3 UpdatePosition true false.
Proof.
  cbv zeta. set (w := example 30 10 "" 0 [1000; 1000; 1000]).
  destruct (boundary_move_duration 0 w
              ltac:(by_computation) ltac:(by_computation) (or_introl eq_refl))
    as (w' & E & _ & _ & _ & D).
  assert (W : w' = snd (SomfyShade.setShadePosition 0 w))
    by (rewrite E; reflexivity).
  exists w'. split; [exact E|]. rewrite W. by_computation.
Defined.

(** Claim C2 as stated fails: the estimate of this shade is known to be 30
    and its travel time is 10 seconds, yet a move to 0 runs for 3 seconds,
    not for the travel time. *)
Lemma boundary_move_from_30 :
  let w := example 30 10 "" 0 [1000; 1000; 1000] in
  let w' := snd (SomfyShade.setShadePosition 0 w) in
  position (shade (snd (SomfyShade._updatePosition w))) = 30 /\
  travelTime (shade w) = 10%float /\
  interval (timer (shade w')) = 3%float /\
  interval (timer (shade w')) <> travelTime (shade w).
Proof.
  cbv zeta. repeat split; try (vm_compute; reflexivity).
  intros H. apply (f_equal (fun x => (x =? 10)%float)) in H.
  vm_compute in H. discriminate.
Qed.

(** Claim C10.  On a shade whose travel time is a number and whose position
    is an estimate, for every value [v] that [int()] reads as [t],
    [setShadePosition t] returns [True], and so does the [DON] handler given
    [v], in the same world: no target is refused.  A target [t <= 0] hands
    [D] to the controller and a target [t >= 100] hands [U]; in both cases
    the timer that is started only finalizes the estimate. *)
Theorem setShadePosition_total (v : value) (t : Z) (w : World) :
  let w1 := snd (SomfyShade._updatePosition w) in
  well_formed w -> v <> PyNone -> int_of v = Ok t ->
  exists w',
    SomfyShade.setShadePosition t w = (Ok true, w') /\
    SomfyShade.up v w = (Ok true, w') /\
    (t <= 0 ->
     sent "D" w1 w' /\ lastCmd (shade w') = "D" /\
     function (timer (shade w')) = UpdatePosition /\
     started (timer (shade w')) = true) /\
    (100 <= t ->
     sent "U" w1 w' /\ lastCmd (shade w') = "U" /\
     function (timer (shade w')) = UpdatePosition /\
     started (timer (shade w')) = true).
Proof.
  cbv zeta. intros WF Hv Hi.
  destruct (updatePosition_spec w WF) as (p & E1 & Rp & _). rewrite E1. cbn [snd].
  destruct (setShadePosition_spec t p w E1) as (d & b & w2 & E2 & S & E3 & _).
  eexists. split; [exact E3|].
  split.
  { unfold SomfyShade.up. destruct v; try contradiction;
      unfold bind, lift; rewrite Hi; exact E3. }
  change (address (shade w)) with (address (shade (finalized w p))) in E2.
  unfold sent. unfold direction, next_command in *.
  split; intros Ht.
  - replace (t <=? 0) with true in * by (symmetry; apply Z.leb_le; lia).
    rewrite E2. repeat split.
  - replace (t <=? 0) with false in * by (symmetry; apply Z.leb_gt; lia).
    replace (100 <=? t) with true in * by (symmetry; apply Z.leb_le; lia).
    rewrite E2. repeat split.
Qed.

(** Targets 150 and -20, as the strings the supervisor sends. *)
Lemma setShadePosition_total_example :
  let w := example 50 10 "" 0 [1000; 1000; 1000] in
  exists w1 w2,
    SomfyShade.up (PyStr "150") w = (Ok true, w1) /\
    lastCmd (shade w1) = "U" /\ function (timer (shade w1)) = UpdatePosition /\
    SomfyShade.up (PyStr "-20") w = (Ok true, w2) /\
    lastCmd (shade w2) = "D" /\ function (timer (shade w2)) = UpdatePosition.
Proof.
  cbv zeta. set (w := example 50 10 "" 0 [1000; 1000; 1000]).
  destruct (setShadePosition_total (PyStr "150") 150 w
              ltac:(by_computation) ltac:(discriminate) ltac:(by_computation))
    as (w1 & _ & E & _ & U).
  destruct (setShadePosition_total (PyStr "-20") (-20) w
              ltac:(by_computation) ltac:(discriminate) ltac:(by_computation))
    as (w2 & _ & E' & D & _).
  destruct (U ltac:(lia)) as (_ & L & F & _).
  destruct (D ltac:(lia)) as (_ & L' & F' & _).
  exists w1, w2. repeat split; assumption.
Defined.

(** ** Nudges and calibration *)

(** Claim C8.  With the position unknown, [up5] and [down5] return [False]
    and leave the world as it was, the record of serial calls included;
    otherwise they are [setShadePosition] of the position plus or minus 5. *)
Theorem nudge_needs_known_position (w : World) :
  (position (shade w) = -1 ->
   SomfyShade.up5 w = (Ok false, w) /\ SomfyShade.down5 w = (Ok false, w) /\
   calls (env (snd (SomfyShade.up5 w))) = calls (env w) /\
   calls (env (snd (SomfyShade.down5 w))) = calls (env w)) /\
  (position (shade w) <> -1 ->
   SomfyShade.up5 w = SomfyShade.setShadePosition (position (shade w) + 5) w /\
   SomfyShade.down5 w = SomfyShade.setShadePosition (position (shade w) - 5) w).
Proof.
  unfold SomfyShade.up5, SomfyShade.down5, bind, get, ret. split; intros H.
  - rewrite H. repeat split.
  - apply Z.eqb_neq in H. rewrite H. split; reflexivity.
Qed.

(** Scenario 4 of the specification: a nudge on a shade that has just been
    started fails and makes no serial call. *)
Example nudge_on_fresh_shade :
  SomfyShade.up5 (fresh []) = (Ok false, fresh []) /\ calls (env (fresh [])) = [].
Proof. split; reflexivity. Qed.

(** What [setTravelTime] does with every value. *)
Lemma setTravelTime_spec (v : value) (w : World) :
  SomfyShade.setTravelTime v w =
    match float_of v with
    | Ok _time =>
        if (_time <? 0)%float || (60 <? _time)%float then (Ok false, w)
        else (Ok true,
              set_shade (with_travelTimeDriver _time
                           (with_travelTime _time (shade w))) w)
    | Raise _ => (Ok false, w)
    end.
Proof.
  unfold SomfyShade.setTravelTime, SomfyShade.setDriver_GV1, bind, try, lift, ret,
    modify_shade, modify.
  destruct (float_of v) as [f|e]; [|reflexivity].
  destruct ((f <? 0)%float || (60 <? f)%float); reflexivity.
Qed.

(** Claim C7 fails on the code.  [float('nan')] is a float that is not in
    [0,60], yet both comparisons of the range test are false for it:
    [setTravelTime] stores it as the travel time, reports it and returns
    [True]. *)
Theorem setTravelTime_accepts_nan (w : World) :
  float_of (PyStr "nan") = Ok nan /\
  ((0 <=? nan)%float && (nan <=? 60)%float) = false /\
  SomfyShade.setTravelTime (PyStr "nan") w =
    (Ok true, set_shade (with_travelTimeDriver nan (with_travelTime nan (shade w))) w).
Proof.
  split; [vm_compute; reflexivity|]. split; [reflexivity|].
  rewrite setTravelTime_spec.
  replace (float_of (PyStr "nan")) with (Ok nan) by (vm_compute; reflexivity).
  reflexivity.
Qed.

(** ** The position stays an estimate *)

Lemma position_step_refl (w : World) : position_step w w.
Proof. left. reflexivity. Qed.

Lemma position_step_trans (w1 w2 w3 : World) :
  position_step w1 w2 -> position_step w2 w3 -> position_step w1 w3.
Proof. unfold position_step. intros [A|A] [B|B]; try (right; lia). left. congruence. Qed.

Lemma same_shade_position_step (w w' : World) : same_shade w w' -> position_step w w'.
Proof. intros (E & _). left. rewrite E. reflexivity. Qed.

Ltac keeps_position :=
  repeat match goal with
    | |- keeps _ (Controller.command _ _) =>
        apply (keeps_weaken _ same_shade);
        [exact same_shade_position_step|apply command_same_shade]
    | |- keeps _ (bind (lift _) _) =>
        apply (keeps_bind_lift _ position_step_refl); intros ? ?
    | |- keeps _ (bind _ _) =>
        apply (keeps_bind _ position_step_trans); [|intros ?]
    | |- keeps _ (try _ _) => apply (keeps_try _ position_step_trans)
    | |- keeps _ (ret _) => apply (keeps_ret _ position_step_refl)
    | |- keeps _ (raise _) => apply (keeps_raise _ position_step_refl)
    | |- keeps _ (lift _) => apply (keeps_lift _ position_step_refl)
    | |- keeps _ (get _) => apply (keeps_get _ position_step_refl)
    | |- keeps _ (if ?c then _ else _) => destruct c
    | |- keeps _ (match ?v with _ => _ end) => destruct v
    | |- keeps _ (modify _) => apply keeps_modify; intros ?; left; reflexivity
    end.

Lemma time_position_step : keeps position_step time.
Proof. intros w. left. reflexivity. Qed.

Lemma _updatePosition_position_step : keeps position_step SomfyShade._updatePosition.
Proof.
  unfold SomfyShade._updatePosition, SomfyShade.setDriver_ST, modify_shade.
  apply (keeps_bind _ position_step_trans); [keeps_position|intros _].
  apply (keeps_bind _ position_step_trans); [apply time_position_step|intros _now].
  apply (keeps_bind _ position_step_trans); [keeps_position|intros s].
  apply (keeps_bind _ position_step_trans).
  - repeat match goal with
      | |- keeps _ (if ?c then _ else _) => destruct c
      end; keeps_position;
      try (apply keeps_modify; intros w; right; cbn; lia).
    + apply keeps_modify; intros w; right; cbn.
      eapply int_of_clamp_range. eassumption.
    + apply keeps_modify; intros w; right; cbn.
      eapply int_of_clamp_range. eassumption.
  - intros _. 
    apply (keeps_bind _ position_step_trans); [keeps_position|intros s'].
    apply (keeps_bind _ position_step_trans); [keeps_position|intros _].
    apply (keeps_bind _ position_step_trans); [apply time_position_step|intros t].
    keeps_position.
Qed.

Lemma _travelTimeReqd_position_step (sp : Z) :
  keeps position_step (SomfyShade._travelTimeReqd sp).
Proof. unfold SomfyShade._travelTimeReqd. keeps_position. Qed.

Lemma _command_position_step (timeSP : float) (c : string) (n : value) :
  keeps position_step (SomfyShade._command timeSP c n).
Proof.
  unfold SomfyShade._command, modify_shade.
  apply (keeps_bind _ position_step_trans); [keeps_position|intros c'].
  apply (keeps_bind _ position_step_trans); [keeps_position|intros a].
  apply (keeps_bind _ position_step_trans); [keeps_position|intros _].
  apply (keeps_bind _ position_step_trans); [apply time_position_step|intros t].
  keeps_position.
Qed.

Lemma setShadePosition_position_step (sp : Z) :
  keeps position_step (SomfyShade.setShadePosition sp).
Proof.
  unfold SomfyShade.setShadePosition.
  apply (keeps_bind _ position_step_trans);
    [apply _updatePosition_position_step|intros _].
  apply (keeps_bind _ position_step_trans); [keeps_position|intros s].
  repeat match goal with
    | |- keeps _ (if ?c then _ else _) => destruct c
    end;
    (apply (keeps_bind _ position_step_trans);
     [apply _travelTimeReqd_position_step|intros d; apply _command_position_step]).
Qed.

Lemma _stop_position_step : keeps position_step SomfyShade._stop.
Proof.
  unfold SomfyShade._stop.
  apply (keeps_bind _ position_step_trans); [keeps_position|intros a].
  apply (keeps_bind _ position_step_trans); [keeps_position|intros b].
  apply (keeps_bind _ position_step_trans);
    [apply _updatePosition_position_step|intros _].
  keeps_position.
Qed.

Lemma perform_position_step (op : Operation) : keeps position_step (perform op).
Proof.
  destruct op; cbn [perform].
  - apply (keeps_bind _ position_step_trans); [|intros _; keeps_position].
    unfold SomfyShade.up. destruct v; try apply setShadePosition_position_step;
      (apply (keeps_bind _ position_step_trans);
       [keeps_position|intros p; apply setShadePosition_position_step]).
  - apply (keeps_bind _ position_step_trans); [|intros _; keeps_position].
    apply setShadePosition_position_step.
  - apply (keeps_bind _ position_step_trans); [|intros _; keeps_position].
    unfold SomfyShade.up5.
    apply (keeps_bind _ position_step_trans); [keeps_position|intros s].
    destruct (position s =? -1); [keeps_position|].
    apply setShadePosition_position_step.
  - apply (keeps_bind _ position_step_trans); [|intros _; keeps_position].
    unfold SomfyShade.down5.
    apply (keeps_bind _ position_step_trans); [keeps_position|intros s].
    destruct (position s =? -1); [keeps_position|].
    apply setShadePosition_position_step.
  - unfold SomfyShade.query, SomfyShade.setDriver_ST, SomfyShade.setDriver_GV1,
      modify_shade.
    keeps_position.
  - apply (keeps_bind _ position_step_trans); [|intros _; keeps_position].
    apply _stop_position_step.
  - apply (keeps_bind _ position_step_trans); [|intros _; keeps_position].
    unfold SomfyShade.setTravelTime, SomfyShade.setDriver_GV1, modify_shade.
    keeps_position.
  - unfold SomfyShade.expire.
    apply (keeps_bind _ position_step_trans); [keeps_position|intros t].
    destruct (started t && negb (finished t)); [|keeps_position].
    destruct (function t) as [| |[]|]; keeps_position.
    + apply _stop_position_step.
    + apply setShadePosition_position_step.
    + apply _updatePosition_position_step.
Qed.

Lemma run_keeps_estimate (ops : list Operation) (w : World) :
  estimate (position (shade w)) -> estimate (position (shade (run ops w))).
Proof.
  revert w. induction ops as [|op ops IH]; intros w H; [exact H|].
  cbn [run fold_left]. apply IH.
  destruct (perform_position_step op w) as [E|E].
  - rewrite E. exact H.
  - right. exact E.
Qed.

(** Claim C6.  From a shade as [start()] leaves it, after any sequence of
    commands and timer expiries (whatever their values, whatever the clock
    reads and the serial device does, whether they return or raise), the
    position is [-1] or a percentage in [0,100].  A finalization in that
    world leaves the position as it is or sets it to a percentage in
    [0,100], however long the motor has been running: the position is again
    [-1] or in [0,100]. *)
Theorem position_is_an_estimate (address : string) (configured : option value)
    (controller : Controller) (environment : Env) (ops : list Operation) :
  let w := run ops (mkWorld controller (SomfyShade.new address configured) environment) in
  let w' := snd (SomfyShade._updatePosition w) in
  estimate (position (shade w)) /\
  position_step w w' /\
  estimate (position (shade w')).
Proof.
  cbv zeta.
  set (w := run ops _).
  assert (H : estimate (position (shade w))).
  { apply run_keeps_estimate. left. reflexivity. }
  split; [exact H|].
  split; [exact (_updatePosition_position_step w)|].
  destruct (_updatePosition_position_step w) as [E|E].
  - rewrite E. exact H.
  - right. exact E.
Qed.

(** ** The connection to the serial port *)

Lemma disconnectSerial_trace (w : World) :
  exists b w' l,
    Controller.disconnectSerial w = (Ok b, w') /\
    calls (env w') = (calls (env w) ++ l)%list /\
    serialPort (parent w') = serialPort (parent w) /\
    shade w' = shade w /\
    GV1 (parent w') = 0 /\
    match _ser (parent w) with
    | None => b = false /\ l = [] /\ _ser (parent w') = None
    | Some h => l = [CallClose b] /\
                (b = true -> _ser (parent w') = Some (mkSerial false)) /\
                (b = false -> _ser (parent w') = Some h)
    end.
Proof.
  unfold Controller.disconnectSerial. unfold_method.
  destruct (_ser (parent w)) as [h|] eqn:H.
  - unfold serial_close. cbn. destruct (closes (env w)) as [|[] rest]; cbn;
      do 3 eexists; (split; [reflexivity|]); (split; [reflexivity|]); cbn;
      repeat split; try discriminate; try reflexivity; intros _; exact H.
  - exists false, (set_parent (with_GV1 0 (parent w)) w), [].
    split; [reflexivity|]. split; [symmetry; apply app_nil_r|].
    repeat split. cbn. exact H.
Qed.

Lemma connect_exit_trace (budget : nat) (w : World) :
  connect_trace budget w ((Controller.disconnectSerial ;; ret false) w).
Proof.
  destruct (disconnectSerial_trace w) as (b & w' & l & E & C & P & _ & _ & L).
  unfold bind. rewrite E. cbn. exists l. split; [exact C|]. split; [exact P|].
  unfold link_is_open.
  destruct (_ser (parent w)) as [h|];
    [destruct L as (-> & L1 & L2)|destruct L as (_ & -> & L)].
  - split; [cbn; lia|]. split; [discriminate|]. intros O _.
    change (snd (ret false w')) with w'.
    destruct b; [rewrite (L1 eq_refl)|rewrite (L2 eq_refl)]; [reflexivity|exact O].
  - split; [cbn; lia|]. split; [discriminate|]. intros _ _.
    change (snd (ret false w')) with w'. rewrite L. reflexivity.
Qed.

Lemma connect_trace_step (budget budget' : nat) (w w1 : World) (c : SerialCall)
    (r : result bool * World) :
  calls (env w1) = (calls (env w) ++ [c])%list ->
  serialPort (parent w1) = serialPort (parent w) ->
  (link_is_open w = false -> link_is_open w1 = false) ->
  ((if is_failed_open c then 1 else 0) + budget' <= budget)%nat ->
  connect_trace budget' w1 r -> connect_trace budget w r.
Proof.
  intros C P O B (l & C' & P' & N & T & F). exists (c :: l).
  split; [rewrite C', C, <- app_assoc; reflexivity|].
  split; [congruence|]. split; [|split].
  - cbn [filter]. destruct (is_failed_open c); cbn [List.length]; lia.
  - intros H. destruct (T H) as (l0 & ->). exists (c :: l0).
    unfold open_call. rewrite P. reflexivity.
  - intros H. apply F, O, H.
Qed.

Lemma connect_gone_trace (n : nat) :
  forall w, connect_trace n w (Controller.connect_gone n w).
Proof.
  induction n as [|n IH]; intros w; cbn [Controller.connect_gone].
  - apply connect_exit_trace.
  - unfold bind at 1. cbn.
    eapply connect_trace_step; [| | | |apply IH]; cbn; try reflexivity; try lia.
    intros H; exact H.
Qed.

Lemma connect_loop_trace (script : list OpenOutcome) :
  forall _tries w,
    connect_trace (2 - _tries) w (Controller.connect_loop script _tries w).
Proof.
  induction script as [|o rest IH]; intros _tries w;
    cbn [Controller.connect_loop]; destruct (_tries <=? 1)%nat eqn:T;
    try apply connect_exit_trace.
  - apply connect_gone_trace.
  - apply Nat.leb_le in T. destruct o; unfold bind at 1; cbn.
    + exists [open_call w Opened]. repeat split; cbn; try lia.
      * intros _. exists []. reflexivity.
      * discriminate.
    + eapply connect_trace_step; [| | | |apply IH]; cbn; try reflexivity.
    + eapply connect_trace_step; [| | | |apply IH];
        [reflexivity|reflexivity|intros H; exact H|destruct _tries as [|[|]]; cbn; lia].
Qed.

Lemma connectSerial_trace (w : World) :
  link_is_open w = false -> connect_trace 2 w (Controller.connectSerial w).
Proof.
  intros O. unfold Controller.connectSerial, bind, get. cbv beta iota.
  unfold link_is_open in O. rewrite O. apply (connect_loop_trace _ 0%nat).
Qed.

Lemma connectSerial_open (w : World) :
  link_is_open w = true ->
  Controller.connectSerial w = (Ok true, set_parent (with_GV1 1 (parent w)) w).
Proof.
  intros O. unfold Controller.connectSerial, bind, get. cbv beta iota.
  unfold link_is_open in O. rewrite O. reflexivity.
Qed.

(** Property X1.

    [connectSerial] returns a bool, never an exception, and writes nothing.
    With the port open already it returns [True] without a serial call.
    Otherwise at most two of its calls to open the port raise; [True] means
    that its last call opened the port, which is then open with the [GV1]
    driver 1; on [False] the driver is 0 and the port is not open. *)
Theorem connectSerial_bounded_retry (w : World) :
  exists b w' l,
    Controller.connectSerial w = (Ok b, w') /\
    calls (env w') = (calls (env w) ++ l)%list /\
    filter is_write l = [] /\
    (List.length (filter is_failed_open l) <= 2)%nat /\
    (link_is_open w = true -> b = true /\ l = []) /\
    (b = true -> link_is_open w' = true /\ GV1 (parent w') = 1 /\
                 (link_is_open w = false ->
                  exists l0, l = (l0 ++ [open_call w Opened])%list)) /\
    (b = false -> GV1 (parent w') = 0 /\ link_is_open w' = false).
Proof.
  destruct (link_is_open w) eqn:O.
  - rewrite (connectSerial_open w O).
    exists true, (set_parent (with_GV1 1 (parent w)) w), [].
    split; [reflexivity|]. split; [symmetry; apply app_nil_r|].
    split; [reflexivity|]. split; [cbn; lia|]. split; [intros _; split; reflexivity|].
    split; [|discriminate]. intros _. split; [exact O|]. split; [reflexivity|discriminate].
  - destruct (connectSerial_spec w) as (b & w' & E & (_ & l' & C' & W) & K).
    destruct (connectSerial_trace w O) as (l & C & _ & N & T & F).
    rewrite E in C, T, F. cbn [fst snd] in C, T, F.
    assert (l' = l) by (rewrite C in C'; apply app_inv_head in C'; congruence).
    subst l'. exists b, w', l. split; [exact E|]. split; [exact C|].
    split; [exact W|]. split; [exact N|]. split; [discriminate|].
    split; intros ->; cbn in K.
    + destruct K as [K1 K2]. split; [exact K1|]. split; [exact K2|].
      intros _. exact (T eq_refl).
    + split; [exact K|exact (F O eq_refl)].
Qed.

Lemma set_GV1_same (w : World) (v : Z) :
  GV1 (parent w) = v -> set_parent (with_GV1 v (parent w)) w = w.
Proof.
  destruct w as [[p h g] s e]. cbn. intros ->. reflexivity.
Qed.

(** Property X2.

    Polling a link that is up does nothing: when [longPoll] leaves the port
    open, a second [longPoll] returns in the same world, without a serial
    call. *)
Theorem longPoll_idempotent (w : World) :
  let w' := snd (Controller.longPoll w) in
  link_is_open w' = true ->
  Controller.longPoll w' = (Ok tt, w').
Proof.
  cbv zeta. unfold Controller.longPoll, bind.
  destruct (connectSerial_spec w) as (b & w' & E & _ & K).
  pose proof (connectSerial_trace w) as T. rewrite E in *.
  unfold ret. cbn [snd]. intros O.
  destruct b; cbn in K.
  - rewrite (connectSerial_open w' O), set_GV1_same by apply K. reflexivity.
  - destruct (link_is_open w) eqn:O0.
    + rewrite (connectSerial_open w O0) in E. discriminate.
    + destruct (T eq_refl) as (_ & _ & _ & _ & _ & F).
      pose proof (F O0 eq_refl) as X. cbn [snd] in X. congruence.
Qed.

(** A first poll opens the port; the second finds it open. *)
Lemma longPoll_idempotent_example :
  let w := snd (Controller.longPoll (fresh [])) in
  calls (env w) = [CallOpen "/dev/ttyUSB0" false Opened] /\
  Controller.longPoll w = (Ok tt, w).
Proof.
  cbv zeta. split; [reflexivity|].
  apply (longPoll_idempotent (fresh [])). reflexivity.
Defined.

(** Property X3.

    [disconnectSerial], and with it [delete] and the [DISCONNECT] command,
    never raises and always sets the [GV1] driver to 0.  Without a port
    object it returns [False] without a serial call.  With one it calls
    [close()] once, whether the port was open or not, and returns whether
    the call completed; if it did the port is closed, if it raised the port
    object is as it was. *)
Theorem disconnectSerial_closes_once (w : World) :
  exists b w',
    Controller.disconnectSerial w = (Ok b, w') /\
    Controller.delete w = (Ok tt, w') /\
    Controller._disconnectSerial w = (Ok tt, w') /\
    GV1 (parent w') = 0 /\
    match _ser (parent w) with
    | None => b = false /\ calls (env w') = calls (env w) /\ _ser (parent w') = None
    | Some h =>
        calls (env w') = (calls (env w) ++ [CallClose b])%list /\
        _ser (parent w') = (if b then Some (mkSerial false) else Some h)
    end.
Proof.
  destruct (disconnectSerial_trace w) as (b & w' & l & E & C & _ & _ & G & L).
  exists b, w'. split; [exact E|].
  unfold Controller.delete, Controller._disconnectSerial, bind. rewrite E.
  split; [reflexivity|]. split; [reflexivity|]. split; [exact G|].
  destruct (_ser (parent w)) as [h|].
  - destruct L as (-> & L1 & L2). split; [exact C|].
    destruct b; [apply L1|apply L2]; reflexivity.
  - destruct L as (-> & -> & L). rewrite app_nil_r in C. repeat split; assumption.
Qed.

(** Property X4.

    Sending on a link that is down reconnects first: with a device that
    opens and completes the write, [_sendURTSCmd] opens the port, writes the
    payload once and returns [True]; the port is open and the [GV1] driver
    is 1 again. *)
Theorem _sendURTSCmd_reconnects (command : string) (w : World)
    (os : list OpenOutcome) (ws : list bool) :
  command <> "" -> link_is_open w = false ->
  opens (env w) = Opened :: os -> writes (env w) = true :: ws ->
  exists w',
    Controller._sendURTSCmd command w = (Ok true, w') /\
    calls (env w') =
      (calls (env w) ++ [open_call w Opened; CallWrite command true])%list /\
    link_is_open w' = true /\ GV1 (parent w') = 1.
Proof.
  intros N L O W. unfold Controller._sendURTSCmd.
  apply String.eqb_neq in N. rewrite N.
  cbn [Controller.send_loop]. unfold bind, try, Controller.connectSerial, bind, get.
  unfold link_is_open in L. rewrite L, O. cbn [Controller.connect_loop Nat.leb].
  unfold Controller.serial_open, Controller.setDriver_GV1, modify_parent, modify_env,
    record_call, modify_env, modify, bind, get, ret. cbn.
  unfold serial_write. cbn. rewrite W. cbn.
  eexists. split; [reflexivity|]. cbn. rewrite <- app_assoc. repeat split.
Qed.

(** Scenario 5 of the specification in full: after three failed writes and
    the forced close, the next send opens the port again and goes through. *)
Lemma _sendURTSCmd_reconnects_example :
  let frame := "0105U" ++ Controller.CR in
  let w := snd (Controller._sendURTSCmd frame flaky_device) in
  fst (Controller._sendURTSCmd frame flaky_device) = Ok false /\
  GV1 (parent w) = 0 /\
  exists w',
    Controller._sendURTSCmd frame w = (Ok true, w') /\
    GV1 (parent w') = 1 /\
    calls (env w') =
      [CallOpen "/dev/ttyUSB0" false Opened;
       CallWrite frame false; CallWrite frame false; CallWrite frame false;
       CallClose true;
       CallOpen "/dev/ttyUSB0" false Opened;
       CallWrite frame true].
Proof.
  cbv zeta. split; [by_computation|]. split; [by_computation|].
  destruct (_sendURTSCmd_reconnects ("0105U" ++ Controller.CR)
              (snd (Controller._sendURTSCmd ("0105U" ++ Controller.CR) flaky_device))
              [] [] ltac:(by_computation) ltac:(by_computation)
              ltac:(by_computation) ltac:(by_computation))
    as (w' & E & C & _ & G).
  exists w'. split; [exact E|]. split; [exact G|]. rewrite C. by_computation.
Defined.

(** Property X5.

    [command] never raises.  With an empty command, or an address whose
    first two characters do not read as an int once leading zeros are
    stripped (["00"] among them), it returns [False] and does nothing.
    Otherwise it is [_sendURTSCmd] of the frame: the address from its fourth
    character on without underscores, the command, a carriage return; the
    serial port number it has parsed plays no part. *)
Theorem command_frame_format (a c : string) (w : World) :
  Controller.command a c w =
    if String.eqb c "" then (Ok false, w)
    else if is_ok (int_of_str (lstrip_char "0" (slice_to 2 a))) then
      Controller._sendURTSCmd (remove_char "_" (slice_from 3 a) ++ c ++ Controller.CR) w
    else (Ok false, w).
Proof.
  unfold Controller.command, try, bind, lift. destruct (String.eqb c ""); [reflexivity|].
  cbn [int_of]. destruct (int_of_str _) as [n|e]; cbn [is_ok]; [|reflexivity].
  unfold Controller._sendURTSCmd. destruct (String.eqb _ ""); [reflexivity|].
  destruct (send_loop_spec (remove_char "_" (slice_from 3 a) ++ c ++ Controller.CR)
              3 w) as (b & w' & l & E & _).
  rewrite E. reflexivity.
Qed.

(** An address like ["00_01_05"] is refused, as is the empty command; the
    address of channel 5 gives the frame [0105U]. *)
Lemma command_frame_format_example :
  Controller.command "00_01_05" "U" (fresh []) = (Ok false, fresh []) /\
  Controller.command "01_01_05" "" (fresh []) = (Ok false, fresh []) /\
  Controller.command "01_01_05" "U" (fresh []) =
    Controller._sendURTSCmd ("0105U" ++ Controller.CR) (fresh []).
Proof.
  rewrite !command_frame_format. repeat split.
Defined.

(** Property X6.

    The [CONNECT] command takes the port from the configuration and
    connects, without raising.  With the port open it makes no serial call:
    the port that is open stays in use whatever the configuration names
    now.  Otherwise a connection that comes up was opened on the configured
    port, by its URL when it holds ["://"]. *)
Theorem _connectSerial_uses_configured_port (customParams : dict string) (w : World) :
  let port := configured_port customParams in
  exists w' l,
    Controller._connectSerial customParams w = (Ok tt, w') /\
    serialPort (parent w') = port /\
    calls (env w') = (calls (env w) ++ l)%list /\
    (link_is_open w = true -> l = [] /\ link_is_open w' = true) /\
    (link_is_open w = false -> link_is_open w' = true ->
     exists l0, l = (l0 ++ [CallOpen port (contains "://" port) Opened])%list).
Proof.
  cbv zeta. unfold Controller._connectSerial.
  set (w1 := set_parent (with_serialPort (configured_port customParams) (parent w)) w).
  assert (G : Controller._getSerialConfig customParams w = (Ok tt, w1)).
  { unfold w1, Controller._getSerialConfig, configured_port, try.
    destruct (lookup "port" customParams); reflexivity. }
  unfold bind at 1. rewrite G.
  assert (P : serialPort (parent w1) = configured_port customParams) by reflexivity.
  assert (L : link_is_open w1 = link_is_open w) by reflexivity.
  assert (C1 : calls (env w1) = calls (env w)) by reflexivity.
  rewrite <- L, <- C1. clearbody w1. clear G.
  destruct (link_is_open w1) eqn:O.
  - unfold bind, ret. rewrite (connectSerial_open w1 O).
    exists (set_parent (with_GV1 1 (parent w1)) w1), [].
    split; [reflexivity|]. split; [exact P|].
    split; [symmetry; apply app_nil_r|].
    split; [intros _; split; [reflexivity|exact O]|discriminate].
  - destruct (connectSerial_spec w1) as (b & w' & E & _ & K).
    destruct (connectSerial_trace w1 O) as (l & C & P' & _ & T & F).
    unfold bind, ret. rewrite E in *. cbn [fst snd] in *.
    exists w', l. split; [reflexivity|]. split; [congruence|].
    split; [exact C|]. split; [discriminate|]. intros _ O'.
    destruct b; [|rewrite (F O eq_refl) in O'; discriminate].
    destruct (T eq_refl) as (l0 & ->). exists l0. unfold open_call.
    rewrite P. reflexivity.
Qed.

(** With the port open, [CONNECT] takes the new port name from the
    configuration and leaves the open port alone. *)
Lemma _connectSerial_uses_configured_port_example :
  let customParams := [("port", "socket://10.0.0.7:4001")] in
  let w := example 30 10 "" 0 [] in
  exists w1,
    Controller._connectSerial customParams w = (Ok tt, w1) /\
    serialPort (parent w1) = "socket://10.0.0.7:4001" /\
    calls (env w1) = [] /\ link_is_open w1 = true.
Proof.
  cbv zeta.
  destruct (_connectSerial_uses_configured_port
              [("port", "socket://10.0.0.7:4001")] (example 30 10 "" 0 []))
    as (w1 & l & E & P & C & A & _).
  destruct (A ltac:(reflexivity)) as [-> O].
  exists w1. split; [exact E|]. split; [exact P|]. split; [exact C|exact O].
Defined.

(** Property X7.

    [start()] of the controller returns [True] whatever happens to the
    connection, and never raises: it has taken the port from the
    configuration, the [GV1] driver says whether the port is open, the shade
    is untouched and the node table holds what [discover] adds. *)
Theorem start_returns_True (customParams : dict string) (nodes : dict string)
    (w : World) :
  exists w',
    Controller.start customParams nodes w = (Ok (true, Controller.discover nodes), w') /\
    serialPort (parent w') = configured_port customParams /\
    shade w' = shade w /\
    (link_is_open w' = true /\ GV1 (parent w') = 1 \/
     link_is_open w' = false /\ GV1 (parent w') = 0).
Proof.
  unfold Controller.start.
  set (w1 := set_parent (with_serialPort (configured_port customParams) (parent w)) w).
  assert (G : Controller._getSerialConfig customParams w = (Ok tt, w1)).
  { unfold w1, Controller._getSerialConfig, configured_port, try.
    destruct (lookup "port" customParams); reflexivity. }
  unfold bind at 1. rewrite G.
  assert (P : serialPort (parent w1) = configured_port customParams) by reflexivity.
  assert (S : shade w1 = shade w) by reflexivity.
  rewrite <- S. clearbody w1. clear G S.
  destruct (connectSerial_spec w1) as (b & w' & E & _ & K).
  pose proof (connectSerial_same_shade w1) as (S' & _).
  unfold bind, ret. rewrite E in *. cbn [snd] in S'.
  exists w'. split; [reflexivity|].
  destruct (link_is_open w1) eqn:O.
  - rewrite (connectSerial_open w1 O) in E. injection E as <- <-.
    split; [exact P|]. split; [reflexivity|]. left. split; [exact O|reflexivity].
  - destruct (connectSerial_trace w1 O) as (l & C & P' & _ & T & F).
    rewrite E in *. cbn [fst snd] in *.
    split; [congruence|]. split; [exact S'|].
    destruct b; cbn in K; [left; exact K|right].
    split; [exact (F O eq_refl)|exact K].
Qed.

(** ** The nodes of the channels *)

Lemma lookup_store {V : Type} (k k' : string) (v : V) (d : dict V) :
  lookup k (store k' v d) =
    match lookup k d with
    | Some x => Some x
    | None => if String.eqb k' k then Some v else None
    end.
Proof.
  unfold store. induction d as [|[k0 v0] d IH]; cbn; [reflexivity|].
  destruct (String.eqb k0 k); [reflexivity|exact IH].
Qed.

Lemma lookup_None {V : Type} (k : string) (d : dict V) :
  lookup k d = None <-> ~ In k (map fst d).
Proof.
  induction d as [|[k0 v0] d IH]; cbn; [tauto|].
  destruct (String.eqb_spec k0 k) as [E|E].
  - split; [discriminate|]. intros H. exfalso. apply H. left. exact E.
  - rewrite IH. tauto.
Qed.

Lemma In_channels (ch : Z) : In ch channels <-> 1 <= ch <= 16.
Proof.
  unfold channels. rewrite in_map_iff. split.
  - intros (n & <- & H). apply in_seq in H. lia.
  - intros H. exists (Z.to_nat ch). split; [lia|]. apply in_seq. lia.
Qed.

Lemma discover_loop_spec (chs : list Z) :
  forall nodes,
  exists added,
    Controller.discover_loop chs nodes = (nodes ++ added)%list /\
    (forall a name, lookup a nodes = Some name ->
                    lookup a (Controller.discover_loop chs nodes) = Some name) /\
    (forall ch, In ch chs ->
       let a := Controller.channel_address ch in
       lookup a (Controller.discover_loop chs nodes) =
         Some (match lookup a nodes with Some name => name | None => "Shade_" ++ a end)) /\
    (forall a name, In (a, name) added ->
       lookup a nodes = None /\ name = "Shade_" ++ a /\
       exists ch, In ch chs /\ a = Controller.channel_address ch) /\
    (NoDup (map fst nodes) ->
     NoDup (map fst (Controller.discover_loop chs nodes))).
Proof.
  induction chs as [|ch chs IH]; intros nodes; cbn [Controller.discover_loop].
  - exists []. rewrite app_nil_r. split; [reflexivity|]. split; [auto|].
    split; [intros ? []|]. split; [intros ? ? []|auto].
  - cbv zeta. set (a0 := Controller.channel_address ch).
    destruct (lookup a0 nodes) as [name0|] eqn:L.
    + destruct (IH nodes) as (added & E & K & A & N & D).
      exists added. split; [exact E|]. split; [exact K|]. split; [|split; [|exact D]].
      * intros ch' [<-|H]; [|apply A, H]. cbv zeta. fold a0. rewrite L.
        apply K, L.
      * intros a name H. destruct (N a name H) as (N1 & N2 & ch' & N3 & N4).
        split; [exact N1|]. split; [exact N2|]. exists ch'. split; [right; exact N3|exact N4].
    + destruct (IH (store a0 ("Shade_" ++ a0) nodes)) as (added & E & K & A & N & D).
      exists ((a0, "Shade_" ++ a0) :: added).
      split; [rewrite E; unfold store; rewrite <- app_assoc; reflexivity|].
      split; [|split; [|split]].
      * intros a name H. apply K. rewrite lookup_store, H. reflexivity.
      * intros ch' [<-|H]; cbv zeta.
        -- fold a0. rewrite L. apply K. rewrite lookup_store, L, String.eqb_refl.
           reflexivity.
        -- rewrite (A ch' H). cbv zeta. rewrite lookup_store.
           destruct (lookup (Controller.channel_address ch') nodes); [reflexivity|].
           destruct (String.eqb_spec a0 (Controller.channel_address ch')) as [<-|_];
             reflexivity.
      * intros a name [H|H].
        -- injection H as <- <-. split; [exact L|]. split; [reflexivity|].
           exists ch. split; [left; reflexivity|reflexivity].
        -- destruct (N a name H) as (N1 & N2 & ch' & N3 & N4).
           rewrite lookup_store in N1. split.
           ++ destruct (lookup a nodes); [discriminate|reflexivity].
           ++ split; [exact N2|]. exists ch'. split; [right; exact N3|exact N4].
      * intros H. apply D. unfold store. rewrite map_app. cbn.
        apply NoDup_app; [exact H|constructor; [intros []|constructor]|].
        intros x Hx [<-|[]]. apply lookup_None in L. contradiction.
Qed.

Lemma discover_loop_present (chs : list Z) (nodes : dict string) :
  (forall ch, In ch chs -> lookup (Controller.channel_address ch) nodes <> None) ->
  Controller.discover_loop chs nodes = nodes.
Proof.
  induction chs as [|ch chs IH]; intros H; cbn [Controller.discover_loop];
    [reflexivity|].
  cbv zeta. destruct (lookup (Controller.channel_address ch) nodes) eqn:L.
  - apply IH. intros ch' H'. apply H. right. exact H'.
  - exfalso. apply (H ch); [left; reflexivity|exact L].
Qed.

(** Property X8.

    [discover] keeps the nodes there are, in their order, and appends a node
    for each of the channels 1 to 16 that has none: its address is the
    channel's, its name ["Shade_"] and the address.  Afterwards every
    channel has a node (the one it had, when it had one), and no address
    occurs twice if none did before. *)
Theorem discover_adds_missing_channels (nodes : dict string) :
  exists added,
    Controller.discover nodes = (nodes ++ added)%list /\
    (forall a name, lookup a nodes = Some name ->
                    lookup a (Controller.discover nodes) = Some name) /\
    (forall ch, 1 <= ch <= 16 ->
       let a := Controller.channel_address ch in
       lookup a (Controller.discover nodes) =
         Some (match lookup a nodes with Some name => name | None => "Shade_" ++ a end)) /\
    (forall a name, In (a, name) added ->
       lookup a nodes = None /\ name = "Shade_" ++ a /\
       exists ch, 1 <= ch <= 16 /\ a = Controller.channel_address ch) /\
    (NoDup (map fst nodes) -> NoDup (map fst (Controller.discover nodes))).
Proof.
  destruct (discover_loop_spec channels nodes) as (added & E & K & A & N & D).
  exists added. split; [exact E|]. split; [exact K|]. split; [|split; [|exact D]].
  - intros ch H. apply A, In_channels, H.
  - intros a name H. destruct (N a name H) as (N1 & N2 & ch & N3 & N4).
    split; [exact N1|]. split; [exact N2|]. exists ch.
    split; [apply In_channels, N3|exact N4].
Qed.

(** Property X9.

    A second [discover] adds nothing. *)
Theorem discover_idempotent (nodes : dict string) :
  Controller.discover (Controller.discover nodes) = Controller.discover nodes.
Proof.
  apply discover_loop_present. intros ch H.
  destruct (discover_loop_spec channels nodes) as (_ & _ & _ & A & _).
  change (Controller.discover nodes) with (Controller.discover_loop channels nodes).
  rewrite (A ch H). discriminate.
Qed.

(** Property X10.

    The addresses [discover] gives its nodes are addresses [command] takes:
    for each channel 1 to 16 the address has 8 characters, and with the port
    open and a device that completes the write, a command for it is written
    as [01], the channel in two digits, the command and a carriage return. *)
Theorem discovered_channel_frame (ch : Z) (c : string) (w : World) (rest : list bool) :
  1 <= ch <= 16 -> c <> "" ->
  link_is_open w = true -> writes (env w) = true :: rest ->
  String.length (Controller.channel_address ch) = 8%nat /\
  exists w',
    Controller.command (Controller.channel_address ch) c w = (Ok true, w') /\
    calls (env w') =
      (calls (env w) ++
       [CallWrite ("01" ++ rjust 2 "0" (str_of_int ch) ++ c ++ Controller.CR) true])%list.
Proof.
  intros H C L W. apply In_channels in H.
  assert (A : forallb channel_ok channels = true) by (vm_compute; reflexivity).
  rewrite forallb_forall in A. specialize (A ch H). unfold channel_ok in A.
  cbv zeta in A. apply andb_prop in A as [A A3]. apply andb_prop in A as [A1 A2].
  apply Nat.eqb_eq in A3. apply String.eqb_eq in A2. split; [exact A3|].
  destruct (command_writes_frame (Controller.channel_address ch) c w rest L W C A1)
    as (w' & E & K & _).
  exists w'. split; [exact E|]. rewrite K, A2. reflexivity.
Qed.

(** Channel 5, the shade of the specification's scenarios, and channel 16. *)
Lemma discovered_channel_frame_example :
  Controller.channel_address 5 = "01_01_05" /\
  Controller.channel_address 16 = "01_01_16" /\
  exists w1 w2,
    Controller.command (Controller.channel_address 5) "U" (example 30 10 "" 0 []) =
      (Ok true, w1) /\
    calls (env w1) = [CallWrite ("0105U" ++ Controller.CR) true] /\
    Controller.command (Controller.channel_address 16) "S" (example 30 10 "" 0 []) =
      (Ok true, w2) /\
    calls (env w2) = [CallWrite ("0116S" ++ Controller.CR) true].
Proof.
  split; [reflexivity|]. split; [reflexivity|].
  destruct (discovered_channel_frame 5 "U" (example 30 10 "" 0 []) [true; true; true]
              ltac:(lia) ltac:(discriminate) ltac:(reflexivity) ltac:(reflexivity))
    as (_ & w1 & E1 & C1).
  destruct (discovered_channel_frame 16 "S" (example 30 10 "" 0 []) [true; true; true]
              ltac:(lia) ltac:(discriminate) ltac:(reflexivity) ltac:(reflexivity))
    as (_ & w2 & E2 & C2).
  exists w1, w2. split; [exact E1|]. split; [exact C1|]. split; [exact E2|exact C2].
Defined.

(** ** Calibration, stopping and moves *)

(** Property X11.

    [setTravelTime] on numbers: a value that [float()] cannot read is
    refused; a value it reads as a number (not a NaN) is accepted exactly
    when it lies in [0,60].  A refusal returns [False] and changes nothing;
    an acceptance returns [True] and changes the travel time and its driver,
    nothing else. *)
Theorem setTravelTime_validates_numbers (v : value) (w : World) :
  match float_of v with
  | Raise _ => SomfyShade.setTravelTime v w = (Ok false, w)
  | Ok t =>
      (t =? t)%float = true ->
      SomfyShade.setTravelTime v w =
        if (0 <=? t)%float && (t <=? 60)%float then (Ok true, calibrated t w)
        else (Ok false, w)
  end.
Proof.
  rewrite setTravelTime_spec. destruct (float_of v) as [t|e]; [|reflexivity].
  intros N. rewrite (range_check t N).
  destruct ((0 <=? t)%float && (t <=? 60)%float); reflexivity.
Qed.

(** Scenario 3 of the specification: 70 is refused, 15 is accepted; so are
    the bounds 0 and 60, and text is refused. *)
Lemma setTravelTime_validates_numbers_example :
  let w := example 30 10 "" 0 [] in
  SomfyShade.setTravelTime (PyStr "70") w = (Ok false, w) /\
  SomfyShade.setTravelTime (PyStr "15") w = (Ok true, calibrated 15 w) /\
  SomfyShade.setTravelTime (PyInt 0) w = (Ok true, calibrated 0 w) /\
  SomfyShade.setTravelTime (PyFloat 60) w = (Ok true, calibrated 60 w) /\
  SomfyShade.setTravelTime (PyStr "-0.5") w = (Ok false, w) /\
  SomfyShade.setTravelTime (PyStr "fast") w = (Ok false, w) /\
  SomfyShade.setTravelTime PyNone w = (Ok false, w).
Proof.
  cbv zeta. set (w := example 30 10 "" 0 []).
  pose proof (setTravelTime_validates_numbers (PyStr "70") w) as A.
  pose proof (setTravelTime_validates_numbers (PyStr "15") w) as B.
  pose proof (setTravelTime_validates_numbers (PyInt 0) w) as C.
  pose proof (setTravelTime_validates_numbers (PyFloat 60) w) as D.
  pose proof (setTravelTime_validates_numbers (PyStr "-0.5") w) as E.
  pose proof (setTravelTime_validates_numbers (PyStr "fast") w) as F.
  pose proof (setTravelTime_validates_numbers PyNone w) as G.
  split; [exact (A eq_refl)|]. split; [exact (B eq_refl)|].
  split; [exact (C eq_refl)|]. split; [exact (D eq_refl)|].
  split; [exact (E eq_refl)|]. split; [exact F|exact G].
Defined.

(** Property X12.

    [start()] of a shade takes its travel time from the configuration
    whenever [float()] reads the entry of its address, and returns [True]:
    there is no range test, so it takes what [setTravelTime] refuses.
    With no entry, or one that [float()] cannot read, the travel time is 8
    seconds and [start()] returns [None].  Either way the driver reports the
    travel time and nothing else changes; on a shade as [__init__] left it
    the result is the started shade [new]. *)
Theorem start_takes_configured_time (customParams : dict string) (w : World) :
  let a := address (shade w) in
  match configured_time customParams a with
  | Some t =>
      SomfyShade.start customParams w = (Ok (Some true), calibrated t w) /\
      forall configured,
        lookup a customParams = Some configured ->
        (t <? 0)%float || (60 <? t)%float = true ->
        SomfyShade.setTravelTime (PyStr configured) w = (Ok false, w)
  | None => SomfyShade.start customParams w = (Ok None, calibrated 8 w)
  end /\
  (shade w = SomfyShade.new a None ->
   shade (snd (SomfyShade.start customParams w)) =
     SomfyShade.new a (option_map PyStr (lookup a customParams))).
Proof.
  cbv zeta. unfold configured_time, SomfyShade.start, SomfyShade.new. unfold_method.
  destruct (lookup (address (shade w)) customParams) as [c|] eqn:L; cbn [option_map].
  - change (float_of (PyStr c)) with (float_of_str c).
    destruct (float_of_str c) as [t|e] eqn:F.
    + split; [split; [reflexivity|]|].
      * intros c' [= <-] R. rewrite setTravelTime_spec.
        change (float_of (PyStr c)) with (float_of_str c). rewrite F, R. reflexivity.
      * intros ->. reflexivity.
    + split; [reflexivity|]. intros ->. reflexivity.
  - split; [reflexivity|]. intros ->. reflexivity.
Qed.

(** A shade configured with 600 seconds starts with them; the command to
    set the same value is refused. *)
Lemma start_takes_configured_time_example :
  let w := fresh [] in
  SomfyShade.start [("port", "/dev/ttyS0"); ("01_01_05", "600")] w =
    (Ok (Some true), calibrated 600 w) /\
  SomfyShade.setTravelTime (PyStr "600") w = (Ok false, w) /\
  SomfyShade.start [("port", "/dev/ttyS0")] w = (Ok None, calibrated 8 w) /\
  SomfyShade.start [("01_01_05", "slow")] w = (Ok None, calibrated 8 w).
Proof.
  cbv zeta.
  pose proof (start_takes_configured_time
                [("port", "/dev/ttyS0"); ("01_01_05", "600")] (fresh [])) as [[A B] _].
  pose proof (start_takes_configured_time [("port", "/dev/ttyS0")] (fresh [])) as [C _].
  pose proof (start_takes_configured_time [("01_01_05", "slow")] (fresh [])) as [D _].
  split; [exact A|]. split; [exact (B "600" eq_refl eq_refl)|].
  split; [exact C|exact D].
Defined.

Lemma same_shade_well_formed (w w' : World) :
  same_shade w w' -> well_formed w -> well_formed w'.
Proof. intros (S & _) WF. unfold well_formed. rewrite S. exact WF. Qed.

Lemma expire_cancelled (w : World) :
  finished (timer (shade w)) = true -> SomfyShade.expire w = (Ok tt, w).
Proof.
  intros F. unfold SomfyShade.expire, bind, get. rewrite F, andb_false_r. reflexivity.
Qed.

(** Property X13.

    [STOP] on a shade whose travel time is a number and whose position is
    an estimate: it hands [S] to the controller and returns what the
    controller returned, [False] when the frame was not written; whatever
    the controller returned it then finalizes the position in the world the
    controller left, which clears the last command and cancels the timer, so
    that the follow-up of the move that was stopped does not run: the expiry
    of the timer changes nothing. *)
Theorem stop_cancels_timer (w : World) :
  well_formed w ->
  exists b w',
    SomfyShade.stop w = (Ok b, w') /\
    fst (Controller.command (address (shade w)) "S" w) = Ok b /\
    SomfyShade._updatePosition (snd (Controller.command (address (shade w)) "S" w)) =
      (Ok true, w') /\
    position_step w w' /\
    lastCmd (shade w') = "" /\
    timer (shade w') = SomfyShade.cancel (timer (shade w)) /\
    SomfyShade.expire w' = (Ok tt, w').
Proof.
  intros WF.
  destruct (command_frame (address (shade w)) "S" w) as (b & w2 & E & S).
  pose proof (same_shade_well_formed w w2 S WF) as WF2.
  destruct (updatePosition_spec w2 WF2) as (p & E2 & R & _).
  exists b, (finalized w2 p).
  assert (Es : SomfyShade.stop w = (Ok b, finalized w2 p)).
  { unfold SomfyShade.stop, SomfyShade._stop, bind, get, ret. rewrite E, E2.
    reflexivity. }
  destruct S as (S1 & _).
  split; [exact Es|]. split; [rewrite E; reflexivity|].
  split; [rewrite E; exact E2|].
  split; [unfold position_step; cbn; rewrite <- S1; destruct R as [->|R];
          [left; reflexivity|right; exact R]|].
  split; [reflexivity|]. split; [cbn; rewrite S1; reflexivity|].
  apply expire_cancelled. reflexivity.
Qed.

(** Stopping the move of scenario 2 after 2 of its 5 seconds: the position
    is 50, and the timer that would have stopped the motor does nothing. *)
Lemma stop_cancels_timer_example :
  let w := snd (SomfyShade.setShadePosition 80
                  (example 30 10 "" 0 [1000; 1000; 1000; 1002; 1002])) in
  exists w',
    SomfyShade.stop w = (Ok true, w') /\
    position (shade w') = 50 /\
    SomfyShade.expire w' = (Ok tt, w') /\
    calls (env w') = [CallWrite ("0105U" ++ Controller.CR) true;
                      CallWrite ("0105S" ++ Controller.CR) true].
Proof.
  cbv zeta.
  set (w := snd (SomfyShade.setShadePosition 80
                   (example 30 10 "" 0 [1000; 1000; 1000; 1002; 1002]))).
  destruct (stop_cancels_timer w ltac:(by_computation))
    as (b & w' & E & B & _ & _ & _ & _ & X).
  assert (W : w' = snd (SomfyShade.stop w)) by (rewrite E; reflexivity).
  assert (Hb : b = true).
  { assert (Ok b = Ok true) as [= ->]; [rewrite <- B; by_computation|reflexivity]. }
  subst b. exists w'. split; [exact E|]. split; [rewrite W; by_computation|].
  split; [exact X|]. rewrite W. by_computation.
Defined.

Lemma no_distance_no_time (T : float) :
  (0 <? T)%float = true -> (T <? infinity)%float = true ->
  (T * nearest_float 0 / 100)%float = 0%float.
Proof.
  intros P F. apply Prim2SF_inj. rewrite div_spec, mul_spec, Prim2SF_100.
  rewrite ltb_spec, Prim2SF_0 in P.
  rewrite ltb_spec in F.
  replace (Prim2SF (nearest_float 0)) with (S754_zero false) by (vm_compute; reflexivity).
  replace (Prim2SF infinity) with (S754_infinity false) in F by (vm_compute; reflexivity).
  rewrite Prim2SF_0.
  destruct (Prim2SF T) as [s|s| |s m e]; try discriminate;
    destruct s; try discriminate; reflexivity.
Qed.

(** Property X14.

    A move to the position the shade is at (known, not a boundary) is not
    skipped: [setShadePosition] hands [D] to the controller and arms a
    timer that stops the motor after [T * 0 / 100] seconds, which is no time
    at all for a finite travel time. *)
Theorem setShadePosition_at_target (t : Z) (w : World) :
  let T := travelTime (shade w) in
  let w1 := snd (SomfyShade._updatePosition w) in
  (0 <? T)%float = true -> -1 <= position (shade w) <= 100 ->
  0 < t < 100 -> position (shade w1) = t ->
  exists w',
    SomfyShade.setShadePosition t w = (Ok true, w') /\
    sent "D" w1 w' /\
    lastCmd (shade w') = "D" /\
    timer (shade w') = mkTimer (T * nearest_float 0 / 100) Stop true false /\
    ((T <? infinity)%float = true -> interval (timer (shade w')) = 0%float).
Proof.
  cbv zeta. intros HT Hpos.
  assert (WF : well_formed w) by (split; [apply positive_not_nan, HT|exact Hpos]).
  destruct (updatePosition_spec w WF) as (p & E1 & Rp & _). rewrite E1.
  change (position (shade (snd (Ok true, finalized w p)))) with p. cbn [snd].
  intros Ht ->.
  destruct (setShadePosition_spec t t w E1) as (d & b & w2 & E2 & S & E3 & _ & D).
  specialize (D ltac:(lia) ltac:(lia)).
  rewrite required_seconds in D by (exact HT || lia).
  rewrite Z.sub_diag in D. change (Z.abs 0) with 0 in D. subst d.
  assert (Dir : direction t t = "D").
  { unfold direction.
    replace (t <=? 0) with false by (symmetry; apply Z.leb_gt; lia).
    replace (100 <=? t) with false by (symmetry; apply Z.leb_gt; lia).
    replace (t =? -1) with false by (symmetry; apply Z.eqb_neq; lia).
    rewrite Z.ltb_irrefl. reflexivity. }
  assert (Nx : next_command t t = PyStr "S").
  { unfold next_command.
    replace (t <=? 0) with false by (symmetry; apply Z.leb_gt; lia).
    replace (100 <=? t) with false by (symmetry; apply Z.leb_gt; lia).
    replace (t =? -1) with false by (symmetry; apply Z.eqb_neq; lia).
    reflexivity. }
  rewrite Dir, Nx in *. eexists. split; [exact E3|].
  split; [unfold sent;
          change (address (shade (finalized w t))) with (address (shade w));
          rewrite E2; reflexivity|].
  split; [reflexivity|]. split; [reflexivity|].
  intros F. cbn. apply no_distance_no_time; assumption.
Qed.

(** At 30 percent, a move to 30 writes [0105D] and arms a Stop timer of 0
    seconds. *)
Lemma setShadePosition_at_target_example :
  let w := example 30 10 "" 0 [1000; 1000; 1000] in
  exists w',
    SomfyShade.setShadePosition 30 w = (Ok true, w') /\
    calls (env w') = [CallWrite ("0105D" ++ Controller.CR) true] /\
    timer (shade w') = mkTimer 0 Stop true false.
Proof.
  cbv zeta. set (w := example 30 10 "" 0 [1000; 1000; 1000]).
  destruct (setShadePosition_at_target 30 w
              ltac:(by_computation) ltac:(by_computation) ltac:(lia)
              ltac:(by_computation))
    as (w' & E & _ & _ & T & _).
  assert (W : w' = snd (SomfyShade.setShadePosition 30 w))
    by (rewrite E; reflexivity).
  exists w'. split; [exact E|]. split; [rewrite W; by_computation|].
  rewrite T. by_computation.
Defined.

(** Property X15.

    [DON] without a value and [DOF] run the motor to the end: they return
    [True], the command handed to the controller, after the finalization
    that comes first, is [U] or [D], and the timer that is started only
    finalizes, after the travel time when the position is unknown.  When the travel time has passed at the expiry
    of the timer, the position is known from then on: 100 after [DON], 0
    after [DOF], reported on the [ST] driver. *)
Theorem full_travel_fixes_position (opening : bool) (w : World) :
  let T := travelTime (shade w) in
  let handler := if opening then SomfyShade.up PyNone else SomfyShade.down in
  let boundary := if opening then 100 else 0 in
  well_formed w ->
  exists w',
    handler w = (Ok true, w') /\
    sent (if opening then "U" else "D") (snd (SomfyShade._updatePosition w)) w' /\
    lastCmd (shade w') = (if opening then "U" else "D") /\
    started (timer (shade w')) = true /\
    function (timer (shade w')) = UpdatePosition /\
    (position (shade w') = -1 -> interval (timer (shade w')) = T) /\
    ((T <=? elapsed w')%float = true ->
     exists w'',
       SomfyShade.expire w' = (Ok tt, w'') /\
       position (shade w'') = boundary /\ ST (shade w'') = boundary /\
       lastCmd (shade w'') = "").
Proof.
  cbv zeta. intros WF.
  destruct (updatePosition_spec w WF) as (p & E1 & Rp & _).
  pose proof (finalized_range w p WF Rp) as Hp.
  set (t := if opening then 100 else 0).
  assert (H : (if opening then SomfyShade.up PyNone else SomfyShade.down) =
              SomfyShade.setShadePosition t) by (destruct opening; reflexivity).
  rewrite H. clear H.
  destruct (setShadePosition_spec t p w E1) as (d & b & w2 & E2 & S & E3 & D & _).
  assert (Dir : direction p t = if opening then "U" else "D")
    by (destruct opening; reflexivity).
  assert (Nx : next_command p t = PyStr "") by (destruct opening; reflexivity).
  rewrite Dir, Nx in *.
  set (w' := commanded (finalized w p) w2 d (if opening then "U" else "D") (PyStr "")) in *.
  assert (Tm : timer (shade w') = mkTimer d UpdatePosition true false).
  { change (timer (shade w')) with (mkTimer d (follow_up (PyStr "")) true false).
    rewrite follow_up_empty. reflexivity. }
  exists w'. split; [exact E3|].
  split; [unfold sent; rewrite E1; cbn [snd];
          change (address (shade (finalized w p))) with (address (shade w));
          rewrite E2; reflexivity|].
  split; [reflexivity|]. split; [rewrite Tm; reflexivity|].
  split; [rewrite Tm; reflexivity|]. split; [rewrite Tm; exact D|].
  intros El.
  assert (WF' : well_formed w') by (split; [exact (proj1 WF)|cbn; lia]).
  destruct (updatePosition_spec w' WF') as (p' & E1' & _ & Snap & _).
  specialize (Snap El). change (lastCmd (shade w')) with (if opening then "U" else "D") in Snap.
  assert (P' : p' = t) by (subst p' t; destruct opening; reflexivity).
  exists (finalized w' p'). split.
  - unfold SomfyShade.expire, bind, get, ret. rewrite Tm.
    cbn [started finished function andb negb]. rewrite E1'. reflexivity.
  - rewrite P'. subst t. destruct opening; repeat split.
Qed.

(** From an unknown position with the travel time of 8 seconds: [DON]
    opens the port and writes [0105U]; the timer 8 seconds later finds the
    shade at 100. *)
Lemma full_travel_fixes_position_example :
  let w := fresh [1000; 1000; 1000; 1008; 1008] in
  exists w1 w2,
    SomfyShade.up PyNone w = (Ok true, w1) /\
    calls (env w1) = [CallOpen "/dev/ttyUSB0" false Opened;
                      CallWrite ("0105U" ++ Controller.CR) true] /\
    timer (shade w1) = mkTimer 8 UpdatePosition true false /\
    SomfyShade.expire w1 = (Ok tt, w2) /\
    position (shade w) = -1 /\ position (shade w2) = 100.
Proof.
  cbv zeta. set (w := fresh [1000; 1000; 1000; 1008; 1008]).
  destruct (full_travel_fixes_position true w ltac:(by_computation))
    as (w1 & E & _ & _ & _ & _ & _ & X).
  assert (W : w1 = snd (SomfyShade.up PyNone w)) by (rewrite E; reflexivity).
  destruct X as (w2 & X & P & _); [rewrite W; by_computation|].
  exists w1, w2. split; [exact E|]. split; [rewrite W; by_computation|].
  split; [rewrite W; by_computation|].
  split; [exact X|]. split; [reflexivity|exact P].
Defined.

Lemma failing_between_refl (w : World) : failing_between w w.
Proof.
  intros H. split; [exact H|]. exists []. rewrite app_nil_r. split; reflexivity.
Qed.

Lemma failing_between_trans (w1 w2 w3 : World) :
  failing_between w1 w2 -> failing_between w2 w3 -> failing_between w1 w3.
Proof.
  intros A B H. destruct (A H) as (H2 & l & C & F).
  destruct (B H2) as (H3 & l' & C' & F'). split; [exact H3|].
  exists (l ++ l')%list. rewrite C', C, <- app_assoc, filter_app, F, F'.
  split; reflexivity.
Qed.

Lemma no_completed_write (l : list SerialCall) :
  filter is_write l = [] -> filter is_completed_write l = [].
Proof.
  induction l as [|c l IH]; [reflexivity|]. cbn.
  destruct c as [| p [] |]; cbn; try discriminate; exact IH.
Qed.

Lemma no_write_failing (w w' : World) : no_write_between w w' -> failing_between w w'.
Proof.
  intros (W & l & C & F) H. unfold write_fails in *. rewrite W. split; [exact H|].
  exists l. split; [exact C|apply no_completed_write, F].
Qed.

Lemma serial_write_failing (payload : string) : keeps failing_between (serial_write payload).
Proof.
  intros w H. unfold write_fails in *. unfold serial_write.
  destruct (writes (env w)) as [|[] rest] eqn:W; cbn in H; try discriminate; cbn.
  - split; [reflexivity|]. exists [CallWrite payload false]. split; reflexivity.
  - split; [exact H|]. exists [CallWrite payload false]. split; reflexivity.
Qed.

Lemma send_loop_failing (command : string) :
  forall remaining, keeps failing_between (Controller.send_loop remaining command).
Proof.
  induction remaining as [|r IH]; cbn [Controller.send_loop].
  - apply (keeps_bind _ failing_between_trans).
    + apply (keeps_weaken _ no_write_between);
        [exact no_write_failing|apply disconnectSerial_no_write].
    + intros _. apply (keeps_ret _ failing_between_refl).
  - apply (keeps_bind _ failing_between_trans).
    + apply (keeps_try _ failing_between_trans);
        [|apply (keeps_ret _ failing_between_refl)].
      apply (keeps_bind _ failing_between_trans).
      * apply (keeps_weaken _ no_write_between);
          [exact no_write_failing|apply connectSerial_no_write].
      * intros [|]; [|apply (keeps_ret _ failing_between_refl)].
        apply (keeps_bind _ failing_between_trans);
          [apply serial_write_failing|intros _; apply (keeps_ret _ failing_between_refl)].
    + intros [b|]; [apply (keeps_ret _ failing_between_refl)|apply IH].
Qed.

(** What [command] comes to. *)
Lemma command_cases (a c : string) (w : World) :
  Controller.command a c w =
    if String.eqb c "" then (Ok false, w)
    else if is_ok (int_of_str (lstrip_char "0" (slice_to 2 a))) then
      Controller._sendURTSCmd (remove_char "_" (slice_from 3 a) ++ c ++ Controller.CR) w
    else (Ok false, w).
Proof.
  unfold Controller.command, try, bind, lift. destruct (String.eqb c ""); [reflexivity|].
  cbn [int_of]. destruct (int_of_str _) as [n|e]; cbn [is_ok]; [|reflexivity].
  unfold Controller._sendURTSCmd. destruct (String.eqb _ ""); [reflexivity|].
  destruct (send_loop_spec (remove_char "_" (slice_from 3 a) ++ c ++ Controller.CR)
              3 w) as (b & w' & l & E & _).
  rewrite E. reflexivity.
Qed.

Lemma command_failing (a c : string) (w : World) :
  write_fails w = true ->
  exists w',
    Controller.command a c w = (Ok false, w') /\
    write_fails w' = true /\
    filter is_completed_write (calls (env w')) =
      filter is_completed_write (calls (env w)).
Proof.
  intros H. rewrite command_cases.
  destruct (String.eqb c ""); [exists w; repeat split; assumption|].
  destruct (is_ok _); [|exists w; repeat split; assumption].
  unfold Controller._sendURTSCmd.
  destruct (String.eqb _ ""); [exists w; repeat split; assumption|].
  set (frame := (_ ++ _ ++ _)%string).
  destruct (send_loop_spec frame 3 w) as (b & w' & l & E & C & _ & T & _).
  destruct (send_loop_failing frame 3 w H) as (H' & l' & C' & F').
  rewrite E in H', C'. cbn [snd] in H', C'.
  assert (l' = l) by (rewrite C in C'; apply app_inv_head in C'; congruence).
  subst l'. exists w'. split.
  - destruct b; [|exact E]. destruct (T eq_refl) as (l0 & -> & _).
    rewrite filter_app in F'. cbn in F'. apply app_eq_nil in F' as [_ F'].
    discriminate.
  - split; [exact H'|]. rewrite C, filter_app, F'. apply app_nil_r.
Qed.

(** Property X16.

    A move does not report a transport that is down.  On a device on which
    no write completes, the controller returns [False] to the shade, and
    [setShadePosition] returns [True] all the same: no write has completed,
    yet the shade has recorded the command and started the timer that will
    move the estimate. *)
Theorem moves_ignore_transport (t : Z) (w : World) :
  let w1 := snd (SomfyShade._updatePosition w) in
  let p := position (shade w1) in
  well_formed w -> write_fails w = true ->
  exists w',
    SomfyShade.setShadePosition t w = (Ok true, w') /\
    fst (Controller.command (address (shade w)) (direction p t) w1) = Ok false /\
    sent (direction p t) w1 w' /\
    filter is_completed_write (calls (env w')) =
      filter is_completed_write (calls (env w)) /\
    lastCmd (shade w') = direction p t /\
    started (timer (shade w')) = true /\ finished (timer (shade w')) = false.
Proof.
  cbv zeta. intros WF H.
  destruct (updatePosition_spec w WF) as (p & E1 & _). rewrite E1.
  change (position (shade (snd (Ok true, finalized w p)))) with p. cbn [snd].
  destruct (setShadePosition_spec t p w E1) as (d & b & w2 & E2 & S & E3 & _).
  destruct (command_failing (address (shade w)) (direction p t) (finalized w p) H)
    as (w2' & E2' & _ & F).
  rewrite E2 in E2'. injection E2' as -> <-.
  eexists. split; [exact E3|]. split; [rewrite E2; reflexivity|].
  split; [unfold sent;
          change (address (shade (finalized w p))) with (address (shade w));
          rewrite E2; reflexivity|].
  split; [exact F|]. repeat split.
Qed.

(** On the device on which every write fails, a move to 50 returns [True]
    after three failed writes. *)
Lemma moves_ignore_transport_example :
  exists w',
    SomfyShade.setShadePosition 50 failing_device = (Ok true, w') /\
    lastCmd (shade w') = "D" /\ started (timer (shade w')) = true /\
    GV1 (parent w') = 0 /\
    calls (env w') =
      [CallOpen "/dev/ttyUSB0" false Opened;
       CallWrite ("0105D" ++ Controller.CR) false;
       CallWrite ("0105D" ++ Controller.CR) false;
       CallWrite ("0105D" ++ Controller.CR) false;
       CallClose true].
Proof.
  destruct (moves_ignore_transport 50 failing_device
              ltac:(by_computation) ltac:(reflexivity))
    as (w' & E & _ & _ & _ & _ & T & _).
  assert (W : w' = snd (SomfyShade.setShadePosition 50 failing_device))
    by (rewrite E; reflexivity).
  exists w'. split; [exact E|]. split; [rewrite W; by_computation|].
  split; [exact T|]. rewrite W. by_computation.
Defined.

(** ** When finalization raises *)

Lemma not_a_number (T : float) :
  (T =? T)%float = false -> Prim2SF T = S754_nan.
Proof.
  rewrite eqb_spec. destruct (Prim2SF T) as [s|s| |s m e]; try reflexivity.
  - destruct s; discriminate.
  - destruct s; discriminate.
  - unfold SFeqb, SFcompare.
    destruct s; rewrite Z.compare_refl, Pos.compare_cont_refl; discriminate.
Qed.

Lemma nan_leb (T x : float) : Prim2SF T = S754_nan -> (T <=? x)%float = false.
Proof. intros H. rewrite leb_spec, H. reflexivity. Qed.

Lemma nan_eqb_0 (T : float) : Prim2SF T = S754_nan -> (T =? 0)%float = false.
Proof. intros H. rewrite eqb_spec, H. reflexivity. Qed.

Lemma int_of_nan (x : float) :
  Prim2SF x = S754_nan -> int_of_float (Py.max (Py.min x 100) 0) = Raise ValueError.
Proof.
  intros H. unfold Py.max, Py.min.
  replace (100 <? x)%float with false by (rewrite ltb_spec, H; destruct (Prim2SF 100); reflexivity).
  replace (x <? 0)%float with false by (rewrite ltb_spec, H; reflexivity).
  unfold int_of_float. rewrite H. reflexivity.
Qed.

Lemma nan_travel (p td T : float) :
  Prim2SF T = S754_nan ->
  Prim2SF (p + td / T * 100) = S754_nan /\ Prim2SF (p - td / T * 100) = S754_nan.
Proof.
  intros H. rewrite add_spec, sub_spec, mul_spec, div_spec, H.
  unfold SF64add, SF64sub, SF64mul, SF64div.
  assert (D : SFdiv prec emax (Prim2SF td) S754_nan = S754_nan)
    by (destruct (Prim2SF td); reflexivity).
  rewrite D. cbn [SFmul]. split; destruct (Prim2SF p); reflexivity.
Qed.

(** Property X17.

    When [_updatePosition] raises.  On a shade whose position is an
    estimate it raises in one case only: the travel time is a NaN, time has
    passed since an [U] or [D] command, and the position is known.  It then
    raises [ValueError] with the timer cancelled and the position, the last
    command and its time as they were.  In every other case it returns
    [True]. *)
Theorem _updatePosition_raises_only_on_nan (w : World) :
  -1 <= position (shade w) <= 100 ->
  if finalization_fails w then
    exists w',
      SomfyShade._updatePosition w = (Raise ValueError, w') /\
      position (shade w') = position (shade w) /\
      lastCmd (shade w') = lastCmd (shade w) /\
      lastCmdTime (shade w') = lastCmdTime (shade w) /\
      timer (shade w') = SomfyShade.cancel (timer (shade w))
  else fst (SomfyShade._updatePosition w) = Ok true.
Proof.
  intros R. unfold finalization_fails. cbv zeta.
  destruct (travelTime (shade w) =? travelTime (shade w))%float eqn:N.
  - cbn [negb andb].
    destruct (updatePosition_spec w (conj N R)) as (p & E & _). rewrite E. reflexivity.
  - cbn [negb andb]. apply not_a_number in N.
    unfold elapsed. unfold SomfyShade._updatePosition. unfold_method.
    set (td := Py.max (clock (env w) (ticks (env w)) - lastCmdTime (shade w)) 0).
    rewrite (nan_leb _ td N).
    destruct (0 <? td)%float; [|cbn; destruct (0 <=? position (shade w)); reflexivity].
    destruct (0 <=? position (shade w)) eqn:P; [|cbn; rewrite P; reflexivity].
    cbn [andb]. unfold truediv. rewrite (nan_eqb_0 _ N).
    apply Z.leb_le in P.
    destruct (float_of_percent (position (shade w)) ltac:(lia)) as [Fp _].
    destruct (nan_travel (nearest_float (position (shade w))) td _ N) as [A S].
    destruct (String.eqb (lastCmd (shade w)) "U") eqn:U;
      [|destruct (String.eqb (lastCmd (shade w)) "D") eqn:D]; cbn [orb].
    + rewrite Fp, (int_of_nan _ A). eexists. split; [reflexivity|]. repeat split.
    + rewrite Fp, (int_of_nan _ S). eexists. split; [reflexivity|]. repeat split.
    + cbn. apply Z.leb_le in P. rewrite P. reflexivity.
Qed.

(** The shade of claim C4, whose travel time is a NaN: a finalization
    raises while the shade is moving and returns once it is idle. *)
Lemma _updatePosition_raises_only_on_nan_example :
  let moving := example 100 nan "D" 1000 [1001] in
  let idle := example 100 nan "" 1000 [1001; 1001] in
  fst (SomfyShade._updatePosition moving) = Raise ValueError /\
  fst (SomfyShade._updatePosition idle) = Ok true.
Proof.
  cbv zeta.
  pose proof (_updatePosition_raises_only_on_nan (example 100 nan "D" 1000 [1001])
                ltac:(by_computation)) as A.
  pose proof (_updatePosition_raises_only_on_nan (example 100 nan "" 1000 [1001; 1001])
                ltac:(by_computation)) as B.
  split; [|exact B]. destruct A as (w' & E & _). rewrite E. reflexivity.
Defined.

(** ** Handlers that return *)

Lemma same_shade_sound (w w' : World) : same_shade w w' -> sound w -> sound w'.
Proof.
  intros (S & _) [WF T]. unfold sound, well_formed. rewrite S. split; assumption.
Qed.

Lemma _updatePosition_sound (w : World) :
  sound w ->
  exists p, SomfyShade._updatePosition w = (Ok true, finalized w p) /\
            sound (finalized w p).
Proof.
  intros [WF T]. destruct (updatePosition_spec w WF) as (p & E & R & _).
  exists p. split; [exact E|]. split; [apply well_formed_finalized; assumption|].
  exact T.
Qed.

Lemma follow_up_ok (p t : Z) (d : float) :
  timer_ok (mkTimer d (follow_up (next_command p t)) true false).
Proof.
  unfold timer_ok, next_command. cbn [function].
  destruct ((t <=? 0) || (100 <=? t)); [rewrite follow_up_empty; exact I|].
  destruct (p =? -1); [|rewrite follow_up_S; exact I].
  unfold follow_up. cbn [str_is]. destruct (SomfyShade._isNumeric (PyInt t)); [|exact I].
  exists t. reflexivity.
Qed.

Lemma setShadePosition_sound (t : Z) (w : World) :
  sound w ->
  exists w', SomfyShade.setShadePosition t w = (Ok true, w') /\ sound w'.
Proof.
  intros [WF T]. destruct (updatePosition_spec w WF) as (p & E1 & R & _).
  pose proof (finalized_range w p WF R) as Hp.
  destruct (setShadePosition_spec t p w E1) as (d & b & w2 & _ & _ & E3 & _).
  eexists. split; [exact E3|]. split.
  - split; [exact (proj1 WF)|exact Hp].
  - apply follow_up_ok.
Qed.

Lemma _stop_sound (w : World) :
  sound w -> exists b w', SomfyShade._stop w = (Ok b, w') /\ sound w'.
Proof.
  intros H.
  destruct (command_frame (address (shade w)) "S" w) as (b & w2 & E & S).
  destruct (_updatePosition_sound w2 (same_shade_sound w w2 S H)) as (p & E2 & H2).
  exists b, (finalized w2 p). split; [|exact H2].
  unfold SomfyShade._stop, bind, get, ret. rewrite E, E2. reflexivity.
Qed.

Lemma perform_sound (op : Operation) (w : World) :
  sound w -> readable op ->
  fst (perform op w) = Ok tt /\ sound (snd (perform op w)).
Proof.
  intros H Rd. destruct op as [v| | | | | |v|]; cbn [perform readable] in *.
  - assert (X : exists t, SomfyShade.up v = SomfyShade.setShadePosition t).
    { destruct v as [|z|f|s]; [exists 100; reflexivity| | |];
        (destruct Rd as [Rd|Rd]; [discriminate|]); cbn [int_of] in Rd;
        unfold SomfyShade.up, bind, lift; cbn [int_of].
      - exists z. reflexivity.
      - destruct (int_of_float f) as [z|e]; [exists z; reflexivity|discriminate].
      - destruct (int_of_str s) as [z|e]; [exists z; reflexivity|discriminate]. }
    destruct X as (t & ->).
    destruct (setShadePosition_sound t w H) as (w' & E & H').
    unfold bind, ret. rewrite E. split; [reflexivity|exact H'].
  - destruct (setShadePosition_sound 0 w H) as (w' & E & H').
    unfold SomfyShade.down, bind, ret. rewrite E. split; [reflexivity|exact H'].
  - unfold SomfyShade.up5, bind, get, ret.
    destruct (position (shade w) =? -1); [split; [reflexivity|exact H]|].
    destruct (setShadePosition_sound (position (shade w) + 5) w H) as (w' & E & H').
    rewrite E. split; [reflexivity|exact H'].
  - unfold SomfyShade.down5, bind, get, ret.
    destruct (position (shade w) =? -1); [split; [reflexivity|exact H]|].
    destruct (setShadePosition_sound (position (shade w) - 5) w H) as (w' & E & H').
    rewrite E. split; [reflexivity|exact H'].
  - unfold SomfyShade.query. unfold_method.
    destruct (0 <=? position (shade w)); cbn; (split; [reflexivity|exact H]).
  - destruct (_stop_sound w H) as (b & w' & E & H').
    unfold SomfyShade.stop, bind, ret. rewrite E. split; [reflexivity|exact H'].
  - unfold bind, ret. rewrite setTravelTime_spec.
    destruct (float_of v) as [t|e]; [|split; [reflexivity|exact H]].
    destruct ((t <? 0)%float || (60 <? t)%float); [split; [reflexivity|exact H]|].
    split; [reflexivity|]. destruct H as [[_ R] T]. split; [split|]; assumption.
  - unfold SomfyShade.expire, bind, get, ret. pose proof H as [_ T].
    destruct (started (timer (shade w)) && negb (finished (timer (shade w))));
      [|split; [reflexivity|exact H]].
    unfold timer_ok in T.
    destruct (function (timer (shade w))) as [| |a|].
    + split; [reflexivity|exact H].
    + destruct (_stop_sound w H) as (b & w' & E & H').
      rewrite E. split; [reflexivity|exact H'].
    + destruct T as (z & ->).
      destruct (setShadePosition_sound z w H) as (w' & E & H').
      rewrite E. split; [reflexivity|exact H'].
    + destruct (_updatePosition_sound w H) as (p & E & H').
      rewrite E. split; [reflexivity|exact H'].
Qed.

(** Property X18.

    No handler raises on readable requests.  From a shade in working order,
    every command and timer expiry of a sequence returns, and leaves the
    shade in working order, provided each [DON] comes without a value or
    with one that [int()] reads and no [SET_TRAVEL_TIME] comes with a NaN;
    whatever the clock reads and the serial device does. *)
Theorem handlers_return (ops : list Operation) (w : World) :
  sound w -> Forall readable ops ->
  all_return ops w /\ sound (run ops w).
Proof.
  revert w. induction ops as [|op ops IH]; intros w H F; cbn [all_return run fold_left].
  - split; [exact I|exact H].
  - inversion F as [|? ? R F']; subst.
    destruct (perform_sound op w H R) as [E H'].
    destruct (IH _ H' F') as [A S]. split; [split; assumption|exact S].
Qed.

(** A day of a shade on a device on which every write fails: every
    request returns. *)
Lemma handlers_return_example :
  let ops := [DON (PyStr "40"); TimerExpires; SET_TRAVEL_TIME (PyStr "12.5");
              BRT; STOP; QUERY; DOF; TimerExpires; DIM; SET_TRAVEL_TIME (PyStr "x")] in
  all_return ops failing_device /\ sound (run ops failing_device).
Proof.
  cbv zeta. apply handlers_return.
  - split; [by_computation|exact I].
  - repeat (apply Forall_cons;
            [cbn [readable]; first [exact I|right; reflexivity
                                   |vm_compute; first [exact I|reflexivity]]|]).
    apply Forall_nil.
Defined.

(** ** The drivers *)

Lemma report_step_refl (w : World) : report_step w w.
Proof. intros H. exact H. Qed.

Lemma report_step_trans (w1 w2 w3 : World) :
  report_step w1 w2 -> report_step w2 w3 -> report_step w1 w3.
Proof. intros A B H. apply B, A, H. Qed.

Lemma same_report_step (w w' : World) : same_report w w' -> report_step w w'.
Proof.
  intros (A & B & C & D) [H1 H2]. unfold drivers_report. rewrite A, B, C, D.
  split; assumption.
Qed.

Lemma same_shade_report (w w' : World) : same_shade w w' -> report_step w w'.
Proof.
  intros (S & _). apply same_report_step. unfold same_report. rewrite S.
  repeat split.
Qed.

Ltac keeps_report :=
  repeat match goal with
    | |- keeps _ (Controller.command _ _) =>
        apply (keeps_weaken _ same_shade);
        [exact same_shade_report|apply command_same_shade]
    | |- keeps _ (bind (lift _) _) =>
        apply (keeps_bind_lift _ report_step_refl); intros ? ?
    | |- keeps _ (bind _ _) =>
        apply (keeps_bind _ report_step_trans); [|intros ?]
    | |- keeps _ (try _ _) => apply (keeps_try _ report_step_trans)
    | |- keeps _ (ret _) => apply (keeps_ret _ report_step_refl)
    | |- keeps _ (raise _) => apply (keeps_raise _ report_step_refl)
    | |- keeps _ (lift _) => apply (keeps_lift _ report_step_refl)
    | |- keeps _ (get _) => apply (keeps_get _ report_step_refl)
    | |- keeps _ (if ?c then _ else _) => destruct c
    | |- keeps _ (match ?v with _ => _ end) => destruct v
    | |- keeps _ (modify _) =>
        apply keeps_modify; intros ?; apply same_report_step; repeat split
    end.

Lemma time_report : keeps report_step time.
Proof. intros w. apply same_report_step. repeat split. Qed.

Lemma _updatePosition_report : keeps report_step SomfyShade._updatePosition.
Proof.
  intros w [A B]. unfold SomfyShade._updatePosition. unfold_method.
  repeat match goal with
    | |- context [if ?c then _ else _] => destruct c eqn:?; cbn
    | |- context [match ?x with Ok _ => _ | Raise _ => _ end] => destruct x eqn:?; cbn
    end;
    (split; cbn; [exact A|]); intros P; try reflexivity; try (apply B; exact P);
    try lia.
Qed.

Lemma _travelTimeReqd_report (sp : Z) : keeps report_step (SomfyShade._travelTimeReqd sp).
Proof. unfold SomfyShade._travelTimeReqd. keeps_report. Qed.

Lemma _command_report (timeSP : float) (c : string) (n : value) :
  keeps report_step (SomfyShade._command timeSP c n).
Proof.
  unfold SomfyShade._command, modify_shade.
  apply (keeps_bind _ report_step_trans); [keeps_report|intros c'].
  apply (keeps_bind _ report_step_trans); [keeps_report|intros a].
  apply (keeps_bind _ report_step_trans); [keeps_report|intros _].
  apply (keeps_bind _ report_step_trans); [apply time_report|intros t].
  keeps_report.
Qed.

Lemma setShadePosition_report (sp : Z) :
  keeps report_step (SomfyShade.setShadePosition sp).
Proof.
  unfold SomfyShade.setShadePosition.
  apply (keeps_bind _ report_step_trans); [apply _updatePosition_report|intros _].
  apply (keeps_bind _ report_step_trans); [keeps_report|intros s].
  repeat match goal with
    | |- keeps _ (if ?c then _ else _) => destruct c
    end;
    (apply (keeps_bind _ report_step_trans);
     [apply _travelTimeReqd_report|intros d; apply _command_report]).
Qed.

Lemma _stop_report : keeps report_step SomfyShade._stop.
Proof.
  unfold SomfyShade._stop.
  apply (keeps_bind _ report_step_trans); [keeps_report|intros a].
  apply (keeps_bind _ report_step_trans); [keeps_report|intros b].
  apply (keeps_bind _ report_step_trans); [apply _updatePosition_report|intros _].
  keeps_report.
Qed.

Lemma query_report (w : World) : drivers_report (shade (snd (SomfyShade.query w))).
Proof.
  unfold SomfyShade.query. unfold_method.
  destruct (0 <=? position (shade w)) eqn:P; cbn; split; cbn; try reflexivity.
  intros H. apply Z.leb_gt in P. lia.
Qed.

Lemma setTravelTime_report (v : value) : keeps report_step (SomfyShade.setTravelTime v).
Proof.
  intros w [A B]. rewrite setTravelTime_spec.
  destruct (float_of v) as [t|e]; [|split; assumption].
  destruct ((t <? 0)%float || (60 <? t)%float); split; cbn; try assumption.
  reflexivity.
Qed.

Lemma perform_report (op : Operation) : keeps report_step (perform op).
Proof.
  destruct op; cbn [perform].
  - apply (keeps_bind _ report_step_trans); [|intros _; keeps_report].
    unfold SomfyShade.up. destruct v; try apply setShadePosition_report;
      (apply (keeps_bind _ report_step_trans);
       [keeps_report|intros p; apply setShadePosition_report]).
  - apply (keeps_bind _ report_step_trans); [|intros _; keeps_report].
    apply setShadePosition_report.
  - apply (keeps_bind _ report_step_trans); [|intros _; keeps_report].
    unfold SomfyShade.up5.
    apply (keeps_bind _ report_step_trans); [keeps_report|intros s].
    destruct (position s =? -1); [keeps_report|].
    apply setShadePosition_report.
  - apply (keeps_bind _ report_step_trans); [|intros _; keeps_report].
    unfold SomfyShade.down5.
    apply (keeps_bind _ report_step_trans); [keeps_report|intros s].
    destruct (position s =? -1); [keeps_report|].
    apply setShadePosition_report.
  - intros w _. apply query_report.
  - apply (keeps_bind _ report_step_trans); [|intros _; keeps_report].
    apply _stop_report.
  - apply (keeps_bind _ report_step_trans); [|intros _; keeps_report].
    apply setTravelTime_report.
  - unfold SomfyShade.expire.
    apply (keeps_bind _ report_step_trans); [keeps_report|intros t].
    destruct (started t && negb (finished t)); [|keeps_report].
    destruct (function t) as [| |[]|]; keeps_report.
    + apply _stop_report.
    + apply setShadePosition_report.
    + apply _updatePosition_report.
Qed.

Lemma run_report (ops : list Operation) (w : World) :
  drivers_report (shade w) -> drivers_report (shade (run ops w)).
Proof.
  revert w. induction ops as [|op ops IH]; intros w H; [exact H|].
  cbn [run fold_left]. apply IH, perform_report, H.
Qed.

(** Property X19.

    The drivers follow the state.  From a shade as [start()] leaves it,
    after any sequence of commands and timer expiries, whether they return
    or raise, the [GV1] driver holds the travel time and, once the position
    is known, the [ST] driver holds the position.  [QUERY] brings the
    drivers in line with any state. *)
Theorem drivers_follow_state (address : string) (configured : option value)
    (controller : Controller) (environment : Env) (ops : list Operation) :
  let w := run ops (mkWorld controller (SomfyShade.new address configured) environment) in
  drivers_report (shade w) /\
  forall w0, drivers_report (shade (snd (SomfyShade.query w0))).
Proof.
  cbv zeta. split; [|exact query_report].
  apply run_report. split; [reflexivity|]. cbn. lia.
Qed.

(** ** Who touches what *)

Lemma _updatePosition_silent : silent SomfyShade._updatePosition.
Proof.
  intros w. unfold SomfyShade._updatePosition. unfold_method.
  repeat match goal with
    | |- context [if ?c then _ else _] => destruct c eqn:?; cbn
    | |- context [match ?x with Ok _ => _ | Raise _ => _ end] => destruct x eqn:?; cbn
    end; reflexivity.
Qed.

(** Property X20.

    A shade keeps its books without the serial port: finalizing the
    position, answering [QUERY], setting the travel time and [start()] leave
    the controller, the device and the record of serial calls as they were,
    whatever they are given and whether they return or raise. *)
Theorem bookkeeping_is_silent (v : value) (customParams : dict string) :
  silent SomfyShade._updatePosition /\
  silent SomfyShade.query /\
  silent (SomfyShade.setTravelTime v) /\
  silent (SomfyShade.start customParams).
Proof.
  split; [exact _updatePosition_silent|]. split; [|split]; intros w.
  - unfold SomfyShade.query. unfold_method.
    destruct (0 <=? position (shade w)); reflexivity.
  - rewrite setTravelTime_spec. destruct (float_of v) as [t|e]; [|reflexivity].
    destruct ((t <? 0)%float || (60 <? t)%float); reflexivity.
  - unfold SomfyShade.start. unfold_method.
    destruct (lookup (address (shade w)) customParams) as [c|]; [|reflexivity].
    change (float_of (PyStr c)) with (float_of_str c).
    destruct (float_of_str c); reflexivity.
Qed.

(** Property X21.

    The controller leaves the shades alone: connecting, disconnecting,
    polling and sending change neither a shade's state nor the clock,
    whatever the device does. *)
Theorem transport_leaves_shade (a c payload : string) :
  keeps same_shade Controller.connectSerial /\
  keeps same_shade Controller.disconnectSerial /\
  keeps same_shade Controller.longPoll /\
  keeps same_shade (Controller._sendURTSCmd payload) /\
  keeps same_shade (Controller.command a c).
Proof.
  split; [exact connectSerial_same_shade|].
  split; [exact disconnectSerial_same_shade|].
  split; [|split; [|exact (command_same_shade a c)]].
  - unfold Controller.longPoll.
    apply (keeps_bind _ same_shade_trans); [exact connectSerial_same_shade|].
    intros _. apply (keeps_ret _ same_shade_refl).
  - unfold Controller._sendURTSCmd. destruct (String.eqb payload "").
    + apply (keeps_ret _ same_shade_refl).
    + apply send_loop_same_shade.
Qed.

(** ** What goes out on the wire *)

Lemma wrote_nothing (payloads : list string) (n : nat) (w w' : World) :
  calls (env w') = calls (env w) -> wrote payloads n w w'.
Proof.
  intros E. exists []. rewrite E, app_nil_r. repeat split; cbn; try lia. constructor.
Qed.

Lemma wrote_more (payloads payloads' : list string) (n n' : nat) (w w' : World) :
  incl payloads payloads' -> (n <= n')%nat ->
  wrote payloads n w w' -> wrote payloads' n' w w'.
Proof.
  intros I N (l & C & F & W & K). exists l. split; [exact C|].
  split; [|split; [lia|exact K]].
  eapply Forall_impl; [|exact F]. intros [| p b |]; cbn; auto.
Qed.

Lemma sent_frames (payload : string) (remaining : nat) :
  forall w,
  exists l,
    calls (env (snd (Controller.send_loop remaining payload w))) =
      (calls (env w) ++ l)%list /\
    Forall (writes_one_of [payload]) l.
Proof.
  induction remaining as [|r IH]; intros w; cbn [Controller.send_loop].
  - destruct (disconnectSerial_spec w) as (b & w' & l & E & _ & C & F & _).
    unfold bind. rewrite E. cbn. exists l. split; [exact C|].
    clear - F. induction l as [|c l IHl]; [constructor|].
    cbn in F. destruct c; cbn in F; try discriminate; constructor; auto; exact I.
  - unfold bind at 1. unfold try, bind at 1.
    destruct (connectSerial_spec w) as (b & w1 & E & (_ & l1 & C1 & F1) & _).
    rewrite E.
    assert (N1 : Forall (writes_one_of [payload]) l1).
    { clear - F1. induction l1 as [|c l IHl]; [constructor|].
      cbn in F1. destruct c; cbn in F1; try discriminate; constructor; auto; exact I. }
    destruct b.
    + unfold bind at 1.
      destruct (serial_write_spec payload w1) as (res & w2 & E2 & _ & C2). rewrite E2.
      destruct res as [[]|e].
      * cbn. exists (l1 ++ [CallWrite payload true])%list.
        rewrite C2, C1, <- app_assoc. split; [reflexivity|].
        apply Forall_app. split; [exact N1|]. constructor; [left; reflexivity|constructor].
      * cbn. destruct (IH w2) as (l & C & F). exists (l1 ++ CallWrite payload false :: l)%list.
        rewrite C, C2, C1, <- !app_assoc. split; [reflexivity|].
        apply Forall_app. split; [exact N1|]. constructor; [left; reflexivity|exact F].
    + cbn. destruct (IH w1) as (l & C & F). exists (l1 ++ l)%list.
      rewrite C, C1, <- app_assoc. split; [reflexivity|].
      apply Forall_app. split; assumption.
Qed.

Lemma command_wrote (a c : string) (w : World) :
  wrote [frame a c] 3 w (snd (Controller.command a c w)).
Proof.
  rewrite command_cases.
  destruct (String.eqb c ""); [apply wrote_nothing; reflexivity|].
  destruct (is_ok _); [|apply wrote_nothing; reflexivity].
  fold (frame a c). unfold Controller._sendURTSCmd.
  destruct (String.eqb (frame a c) ""); [apply wrote_nothing; reflexivity|].
  destruct (send_loop_spec (frame a c) 3 w) as (b & w' & l & E & C & N & T & F).
  destruct (sent_frames (frame a c) 3 w) as (l' & C' & F').
  rewrite E in *. cbn [snd] in *.
  assert (l' = l) by (rewrite C in C'; apply app_inv_head in C'; congruence).
  subst l'. exists l. split; [exact C|]. split; [exact F'|]. split; [exact N|].
  destruct b.
  - destruct (T eq_refl) as (l0 & -> & Z). rewrite filter_app, Z. cbn. lia.
  - destruct (F eq_refl) as (Z & _). rewrite Z. cbn. lia.
Qed.

Lemma one_request_quiet (w w' : World) :
  address (shade w') = address (shade w) -> calls (env w') = calls (env w) ->
  one_request w w'.
Proof. intros A C. split; [exact A|apply wrote_nothing, C]. Qed.

Lemma direction_cases (p t : Z) : direction p t = "U" \/ direction p t = "D".
Proof.
  unfold direction.
  destruct (t <=? 0); [right; reflexivity|].
  destruct (100 <=? t); [left; reflexivity|].
  destruct (p =? -1); [right; reflexivity|].
  destruct (p <? t); [left|right]; reflexivity.
Qed.

Lemma setShadePosition_request (t : Z) (w : World) :
  sound w -> one_request w (snd (SomfyShade.setShadePosition t w)).
Proof.
  intros [WF _]. destruct (updatePosition_spec w WF) as (p & E1 & _).
  destruct (setShadePosition_spec t p w E1) as (d & b & w2 & E2 & _ & E3 & _).
  rewrite E3. cbn [snd]. split; [reflexivity|].
  pose proof (command_wrote (address (shade w)) (direction p t) (finalized w p)) as W.
  rewrite E2 in W. cbn [snd] in W.
  eapply wrote_more; [|apply Nat.le_refl|exact W].
  intros x [<-|[]]. unfold motor_frames.
  destruct (direction_cases p t) as [-> | ->]; cbn; auto.
Qed.

Lemma _stop_request (w : World) :
  sound w -> one_request w (snd (SomfyShade._stop w)).
Proof.
  intros H.
  destruct (command_frame (address (shade w)) "S" w) as (b & w2 & E & S).
  destruct (_updatePosition_sound w2 (same_shade_sound w w2 S H)) as (p & E2 & _).
  assert (Es : SomfyShade._stop w = (Ok b, finalized w2 p)).
  { unfold SomfyShade._stop, bind, get, ret. rewrite E, E2. reflexivity. }
  rewrite Es. cbn [snd]. destruct S as (S1 & _).
  split; [cbn; rewrite S1; reflexivity|].
  pose proof (command_wrote (address (shade w)) "S" w) as W.
  rewrite E in W. cbn [snd] in W.
  eapply wrote_more; [|apply Nat.le_refl|exact W].
  intros x [<-|[]]. cbn. auto.
Qed.

Lemma _updatePosition_request (w : World) :
  sound w -> one_request w (snd (SomfyShade._updatePosition w)).
Proof.
  intros H. destruct (_updatePosition_sound w H) as (p & E & _). rewrite E.
  apply one_request_quiet; reflexivity.
Qed.

Lemma perform_request (op : Operation) (w : World) :
  sound w -> readable op -> one_request w (snd (perform op w)).
Proof.
  intros H Rd. destruct op as [v| | | | | |v|]; cbn [perform readable] in *.
  - assert (X : exists t, SomfyShade.up v = SomfyShade.setShadePosition t).
    { destruct v as [|z|f|s]; [exists 100; reflexivity| | |];
        (destruct Rd as [Rd|Rd]; [discriminate|]); cbn [int_of] in Rd;
        unfold SomfyShade.up, bind, lift; cbn [int_of].
      - exists z. reflexivity.
      - destruct (int_of_float f) as [z|e]; [exists z; reflexivity|discriminate].
      - destruct (int_of_str s) as [z|e]; [exists z; reflexivity|discriminate]. }
    destruct X as (t & ->).
    pose proof (setShadePosition_request t w H) as Q.
    unfold bind, ret. destruct (SomfyShade.setShadePosition t w) as [[r|e] w']; exact Q.
  - pose proof (setShadePosition_request 0 w H) as Q.
    unfold SomfyShade.down, bind, ret.
    destruct (SomfyShade.setShadePosition 0 w) as [[r|e] w']; exact Q.
  - unfold SomfyShade.up5, bind, get, ret.
    destruct (position (shade w) =? -1); [apply one_request_quiet; reflexivity|].
    pose proof (setShadePosition_request (position (shade w) + 5) w H) as Q.
    destruct (SomfyShade.setShadePosition _ w) as [[r|e] w']; exact Q.
  - unfold SomfyShade.down5, bind, get, ret.
    destruct (position (shade w) =? -1); [apply one_request_quiet; reflexivity|].
    pose proof (setShadePosition_request (position (shade w) - 5) w H) as Q.
    destruct (SomfyShade.setShadePosition _ w) as [[r|e] w']; exact Q.
  - unfold SomfyShade.query. unfold_method.
    destruct (0 <=? position (shade w)); apply one_request_quiet; reflexivity.
  - pose proof (_stop_request w H) as Q.
    unfold SomfyShade.stop, bind, ret.
    destruct (SomfyShade._stop w) as [[r|e] w']; exact Q.
  - unfold bind, ret. rewrite setTravelTime_spec.
    destruct (float_of v) as [t|e]; [|apply one_request_quiet; reflexivity].
    destruct ((t <? 0)%float || (60 <? t)%float); apply one_request_quiet; reflexivity.
  - unfold SomfyShade.expire, bind, get, ret. pose proof H as [_ T].
    destruct (started (timer (shade w)) && negb (finished (timer (shade w))));
      [|apply one_request_quiet; reflexivity].
    unfold timer_ok in T.
    destruct (function (timer (shade w))) as [| |a|].
    + apply one_request_quiet; reflexivity.
    + pose proof (_stop_request w H) as Q.
      destruct (SomfyShade._stop w) as [[r|e] w']; exact Q.
    + destruct T as (z & ->).
      pose proof (setShadePosition_request z w H) as Q.
      destruct (SomfyShade.setShadePosition z w) as [[r|e] w']; exact Q.
    + pose proof (_updatePosition_request w H) as Q.
      destruct (SomfyShade._updatePosition w) as [[r|e] w']; exact Q.
Qed.

Lemma run_frames (ops : list Operation) :
  forall w, sound w -> Forall readable ops ->
  exists l,
    calls (env (run ops w)) = (calls (env w) ++ l)%list /\
    Forall (writes_one_of (motor_frames (address (shade w)))) l.
Proof.
  induction ops as [|op ops IH]; intros w H F; cbn [run fold_left].
  - exists []. rewrite app_nil_r. split; [reflexivity|constructor].
  - inversion F as [|? ? R F']; subst.
    destruct (perform_sound op w H R) as [_ H'].
    destruct (perform_request op w H R) as (A & l1 & C1 & F1 & _).
    destruct (IH _ H' F') as (l & C & Fl). rewrite A in Fl.
    exists (l1 ++ l)%list. split.
    + change (fold_left (fun w0 op0 => snd (perform op0 w0)) ops (snd (perform op w)))
        with (run ops (snd (perform op w))).
      rewrite C, C1, <- app_assoc. reflexivity.
    + apply Forall_app. split; assumption.
Qed.

(** Property X22.

    Nothing but motor frames goes out.  From a shade in working order and
    on readable requests, every write to the serial port, completed or not,
    is the frame of one of the commands [U], [D] and [S] for the shade's
    address; and one request makes at most three writes, of which at most
    one completes. *)
Theorem only_motor_frames (ops : list Operation) (w : World) :
  sound w -> Forall readable ops ->
  (exists l,
     calls (env (run ops w)) = (calls (env w) ++ l)%list /\
     Forall (writes_one_of (motor_frames (address (shade w)))) l) /\
  (forall op, readable op -> one_request w (snd (perform op w))).
Proof.
  intros H F. split; [apply run_frames; assumption|].
  intros op R. apply perform_request; assumption.
Qed.

(** The moves of scenario 1 on the shade of channel 5: after the port is
    opened, the frames [0105D], [0105U] and [0105S], each written once. *)
Lemma only_motor_frames_example :
  let w := fresh [1000; 1000; 1000; 1008; 1008; 1008; 1012; 1012] in
  let ops := [DON (PyStr "50"); TimerExpires; TimerExpires] in
  motor_frames (address (shade w)) =
    ["0105U" ++ Controller.CR; "0105D" ++ Controller.CR; "0105S" ++ Controller.CR] /\
  Forall (writes_one_of (motor_frames (address (shade w)))) (calls (env (run ops w))) /\
  calls (env (run ops w)) =
    [CallOpen "/dev/ttyUSB0" false Opened;
     CallWrite ("0105D" ++ Controller.CR) true;
     CallWrite ("0105U" ++ Controller.CR) true;
     CallWrite ("0105S" ++ Controller.CR) true].
Proof.
  cbv zeta. split; [reflexivity|].
  destruct (only_motor_frames
              [DON (PyStr "50"); TimerExpires; TimerExpires]
              (fresh [1000; 1000; 1000; 1008; 1008; 1008; 1012; 1012]))
    as [(l & C & F) _].
  - split; [by_computation|exact I].
  - repeat (apply Forall_cons;
            [cbn [readable]; first [exact I|right; reflexivity]|]).
    apply Forall_nil.
  - split; [rewrite C; exact F|by_computation].
Defined.
